(** * The bulk JSON import of the Jira clone: [parseJsonImport]

    A shallow embedding of [utils/parser.ts] and the properties of its
    import/reconciliation pass.

    The function parses a user-written JSON document that describes boards,
    their sprints and tickets, draws a new identifier for every entity, and
    rewrites the references between them (ticket to board, ticket to sprint,
    ticket to parent) through three token-to-id maps.

    What belongs to the JavaScript runtime and not to the repository is
    taken as it is specified by ECMAScript:
    - [JSON.parse] is an argument of [parseJsonImport];
    - [crypto.randomUUID()] and [new Date().toISOString()] read the [World],
      which holds the sequence of identifiers and of clock readings still to
      come;
    - numbers are IEEE-754 binary64 values ([spec_float]);
    - strings are Rocq strings (the UTF-8 text of the JavaScript string). *)

From Stdlib Require Import String Ascii List ZArith Bool Arith Lia Permutation.
From Stdlib Require Import Floats.SpecFloat.
Import ListNotations.
Open Scope string_scope.
Open Scope list_scope.
Set Warnings "-register-all".

(* ================================================================== *)
(** * JavaScript values *)
(* ================================================================== *)

Module JS.

(** Objects and arrays have an identity.  [JSON.parse] builds every object
    and array of its result afresh, at a location [Parsed n] of its own; an
    array written [[]] in the source is at [Literal] (the program never
    compares the identity of those). *)
Inductive loc : Type :=
| Parsed (n : nat)
| Literal.

(** A value as the program sees it.  An array is an object too: besides its
    elements it can carry named properties (the program writes
    [_temp_board_id] on whatever a board lists as a ticket). *)
Inductive value : Type :=
| VUndefined
| VNull
| VBool (b : bool)
| VNum (x : spec_float)
| VStr (s : string)
| VObj (l : loc) (props : list (string * value))
| VArr (l : loc) (elems : list value) (props : list (string * value)).

(** [ToBoolean]: what [if (v)], [!v], [v || d] and [v && w] test. *)
Definition truthy (v : value) : bool :=
  match v with
  | VUndefined | VNull => false
  | VBool b => b
  | VNum (S754_zero _) | VNum S754_nan => false
  | VNum _ => true
  | VStr s => negb (String.eqb s "")
  | VObj _ _ | VArr _ _ _ => true
  end.

(** [a || d] *)
Definition or_else (a d : value) : value := if truthy a then a else d.

(** [!!a] *)
Definition to_boolean (a : value) : bool := truthy a.

(** [Array.isArray(v)] *)
Definition isArray (v : value) : bool :=
  match v with VArr _ _ _ => true | _ => false end.

(** [typeof v === 'string'] *)
Definition isString (v : value) : bool :=
  match v with VStr _ => true | _ => false end.

(** The elements [forEach] visits. *)
Definition elements (v : value) : list value :=
  match v with VArr _ es _ => es | _ => [] end.

(** Own property of an object, [undefined] when there is none. *)
Fixpoint lookup (k : string) (ps : list (string * value)) : value :=
  match ps with
  | [] => VUndefined
  | (k', v) :: ps' => if String.eqb k k' then v else lookup k ps'
  end.

(** [o.k = x] on the property list: overwrite in place, or add at the end. *)
Fixpoint assign (k : string) (x : value) (ps : list (string * value))
  : list (string * value) :=
  match ps with
  | [] => [(k, x)]
  | (k', v) :: ps' =>
      if String.eqb k k' then (k', x) :: ps' else (k', v) :: assign k x ps'
  end.

(** What a JavaScript exception of this program can be: the [Error] that
    [parseJsonImport] throws itself, or a [TypeError] of the runtime. *)
Inductive exn : Type :=
| InvalidJSONFormat   (* new Error("Invalid JSON format") *)
| TypeError.

Inductive outcome (A : Type) : Type :=
| Return (a : A)
| Throw (e : exn).
Arguments Return {A} a.
Arguments Throw {A} e.

(** [v.k], for the property names this program reads.  None of them is an
    index, [length], or a method of a prototype, so on a primitive and on an
    array without such an own property the read gives [undefined]; on
    [null] and [undefined] it throws. *)
Definition get_prop (v : value) (k : string) : outcome value :=
  match v with
  | VUndefined | VNull => Throw TypeError
  | VObj _ ps | VArr _ _ ps => Return (lookup k ps)
  | VBool _ | VNum _ | VStr _ => Return VUndefined
  end.

(** [v.k = x].  The file is an ES module, hence strict code: writing a
    property on a primitive throws, as on [null] and [undefined]. *)
Definition set_prop (v : value) (k : string) (x : value) : outcome value :=
  match v with
  | VObj l ps => Return (VObj l (assign k x ps))
  | VArr l es ps => Return (VArr l es (assign k x ps))
  | _ => Throw TypeError
  end.

(** [a.push(x)]: only an array has the method; calling what is not a
    function throws. *)
Definition array_push (a x : value) : outcome value :=
  match a with
  | VArr l es ps => Return (VArr l (es ++ [x]) ps)
  | _ => Throw TypeError
  end.

(** ** Map keys: SameValueZero *)

Definition loc_eqb (a b : loc) : bool :=
  match a, b with
  | Parsed n, Parsed m => Nat.eqb n m
  | _, _ => false
  end.

Definition float_eqb (x y : spec_float) : bool :=
  match x, y with
  | S754_zero _, S754_zero _ => true
  | S754_nan, S754_nan => true
  | S754_infinity s, S754_infinity s' => Bool.eqb s s'
  | S754_finite s m e, S754_finite s' m' e' =>
      Bool.eqb s s' && Pos.eqb m m' && Z.eqb e e'
  | _, _ => false
  end.

Definition same_value_zero (a b : value) : bool :=
  match a, b with
  | VUndefined, VUndefined => true
  | VNull, VNull => true
  | VBool x, VBool y => Bool.eqb x y
  | VNum x, VNum y => float_eqb x y
  | VStr x, VStr y => String.eqb x y
  | VObj l _, VObj l' _ => loc_eqb l l'
  | VArr l _ _, VArr l' _ _ => loc_eqb l l'
  | _, _ => false
  end.

(** A [Map<string, string>] as the program uses it ([set], [has], [get]).
    Keys are compared by SameValueZero, which is not plain equality (it
    identifies the two zeros and tells objects apart by identity), so the
    map is a list of bindings in which the newest binding of a key is found
    first. *)
Definition Map := list (value * string).

Definition Map_set (k : value) (v : string) (m : Map) : Map := (k, v) :: m.

Fixpoint Map_find (k : value) (m : Map) : option string :=
  match m with
  | [] => None
  | (k', v) :: m' => if same_value_zero k k' then Some v else Map_find k m'
  end.

Definition Map_has (k : value) (m : Map) : bool :=
  match Map_find k m with Some _ => true | None => false end.

Definition Map_get (k : value) (m : Map) : value :=
  match Map_find k m with Some v => VStr v | None => VUndefined end.

(** ** [parseInt(s, 10)] and [isNaN] *)

Definition is_digit (c : ascii) : bool :=
  let n := nat_of_ascii c in (48 <=? n)%nat && (n <=? 57)%nat.

Definition digit_value (c : ascii) : Z := Z.of_nat (nat_of_ascii c - 48).

(** Leading white space and line terminators of ECMAScript, in UTF-8:
    TAB LF VT FF CR SP, U+00A0, U+1680, U+2000..U+200A, U+2028, U+2029,
    U+202F, U+205F, U+3000, U+FEFF. *)
Fixpoint skip_white (s : string) : string :=
  match s with
  | String c r =>
      let n := nat_of_ascii c in
      if ((9 <=? n) && (n <=? 13) || (n =? 32))%nat then skip_white r
      else
        match r with
        | String c1 r1 =>
            let n1 := nat_of_ascii c1 in
            if ((n =? 194) && (n1 =? 160))%nat then skip_white r1
            else
              match r1 with
              | String c2 r2 =>
                  let n2 := nat_of_ascii c2 in
                  if (((n =? 225) && (n1 =? 154) && (n2 =? 128))
                      || ((n =? 226) && (n1 =? 128)
                          && ((128 <=? n2) && (n2 <=? 138)
                              || (n2 =? 168) || (n2 =? 169) || (n2 =? 175)))
                      || ((n =? 226) && (n1 =? 129) && (n2 =? 159))
                      || ((n =? 227) && (n1 =? 128) && (n2 =? 128))
                      || ((n =? 239) && (n1 =? 187) && (n2 =? 191)))%nat
                  then skip_white r2 else s
              | EmptyString => s
              end
        | EmptyString => s
        end
  | EmptyString => s
  end.

(** The decimal digits at the front of [s], read into [acc];
    [None] when there was no digit at all. *)
Fixpoint read_digits (s : string) (acc : option Z) : option Z :=
  match s with
  | String c r =>
      if is_digit c
      then read_digits r
             (Some (10 * match acc with Some a => a | None => 0 end
                    + digit_value c)%Z)
      else acc
  | EmptyString => acc
  end.

(** The binary64 value nearest to an integer (ties to even).  ECMAScript
    lets an implementation replace the digits after the 20th by zeros
    before it rounds; the exact value is rounded here. *)
Definition number_of_Z (negative : bool) (z : Z) : spec_float :=
  binary_normalize 53 1024 (if negative then Z.opp z else z) 0 negative.

Definition parseInt (s : string) : spec_float :=
  let s1 := skip_white s in
  let '(negative, s2) :=
    match s1 with
    | String "-" r => (true, r)
    | String "+" r => (false, r)
    | _ => (false, s1)
    end in
  match read_digits s2 None with
  | None => S754_nan
  | Some z => number_of_Z negative z
  end.

Definition isNaN (x : spec_float) : bool :=
  match x with S754_nan => true | _ => false end.

End JS.
Export JS.

(* ================================================================== *)
(** * The data model ([types.ts], as far as the import fills it) *)
(* ================================================================== *)

(** Fields that the import copies from the document keep whatever value
    the document had there, so they are [value]s; the identifiers that the
    import draws are strings. *)
Module Board.
Record t : Type := mk {
  id : string;
  name : value;
  key : value;
  type : value;
  columns : value
}.
End Board.

Module Sprint.
Record t : Type := mk {
  id : string;
  board_id : string;
  name : value;
  status : value;
  goal : value;
  start_date : value;
  end_date : value
}.
End Sprint.

Module Ticket.
Record t : Type := mk {
  id : string;
  board_id : value;             (* a string, or undefined *)
  sprint_id : value;            (* a string, or null *)
  title : value;
  description : value;
  status : value;
  type : value;
  priority : value;
  story_points : value;
  labels : value;
  is_flagged : bool;
  parent_id : value;            (* the raw token, then a string or null *)
  assignee_id : value;
  created_at : string
}.
End Ticket.

Record Stats : Type := mkStats {
  stats_boards : nat;
  stats_sprints : nat;
  stats_tickets : nat
}.

Record ParsedResult : Type := mkResult {
  boards : list Board.t;
  sprints : list Sprint.t;
  tickets : list Ticket.t;
  stats : Stats
}.

(* ================================================================== *)
(** * State and effects *)
(* ================================================================== *)

(** The runtime outside the program: the identifiers [crypto.randomUUID]
    will hand out and the readings of the clock, with how many of each have
    been consumed. *)
Record World : Type := mkWorld {
  uuid_at : nat -> string;
  uuid_next : nat;
  time_at : nat -> string;
  time_next : nat
}.

(** The variables one call of [parseJsonImport] owns and mutates. *)
Record State : Type := mkState {
  world : World;
  data : value;
  result : ParsedResult;
  boardMap : Map;
  sprintMap : Map;
  ticketMap : Map
}.

Definition M (A : Type) : Type := State -> outcome (A * State).

Definition ret {A} (a : A) : M A := fun st => Return (a, st).

Definition bind {A B} (m : M A) (f : A -> M B) : M B :=
  fun st =>
    match m st with
    | Return (a, st') => f a st'
    | Throw e => Throw e
    end.

Definition lift {A} (o : outcome A) : M A :=
  fun st => match o with Return a => Return (a, st) | Throw e => Throw e end.

Declare Scope js_scope.
Delimit Scope js_scope with js.
Notation "x <- m ;; k" := (bind m (fun x => k))
  (at level 61, m at next level, right associativity) : js_scope.
Notation "m ;; k" := (bind m (fun _ => k))
  (at level 61, right associativity) : js_scope.
Open Scope js_scope.

(** [if (c) m] *)
Definition when (c : bool) (m : M unit) : M unit := if c then m else ret tt.

(** [a.forEach(f)] *)
Fixpoint forEach {A} (f : A -> M unit) (l : list A) : M unit :=
  match l with
  | [] => ret tt
  | a :: l' => f a ;; forEach f l'
  end.

(** [v.k] *)
Definition prop (v : value) (k : string) : M value := lift (get_prop v k).

Definition randomUUID : M string :=
  fun st =>
    let w := world st in
    Return (uuid_at w (uuid_next w),
            mkState (mkWorld (uuid_at w) (S (uuid_next w))
                             (time_at w) (time_next w))
                    (data st) (result st)
                    (boardMap st) (sprintMap st) (ticketMap st)).

(** [new Date().toISOString()] *)
Definition now_toISOString : M string :=
  fun st =>
    let w := world st in
    Return (time_at w (time_next w),
            mkState (mkWorld (uuid_at w) (uuid_next w)
                             (time_at w) (S (time_next w)))
                    (data st) (result st)
                    (boardMap st) (sprintMap st) (ticketMap st)).

Definition get_data : M value := fun st => Return (data st, st).

Definition set_data (d : value) : M unit :=
  fun st => Return (tt, mkState (world st) d (result st)
                                (boardMap st) (sprintMap st) (ticketMap st)).

Definition get_result : M ParsedResult := fun st => Return (result st, st).

Definition set_result (r : ParsedResult) : M unit :=
  fun st => Return (tt, mkState (world st) (data st) r
                                (boardMap st) (sprintMap st) (ticketMap st)).

Definition get_boardMap : M Map := fun st => Return (boardMap st, st).
Definition get_sprintMap : M Map := fun st => Return (sprintMap st, st).
Definition get_ticketMap : M Map := fun st => Return (ticketMap st, st).

Definition boardMap_set (k : value) (v : string) : M unit :=
  fun st => Return (tt, mkState (world st) (data st) (result st)
                                (Map_set k v (boardMap st))
                                (sprintMap st) (ticketMap st)).

Definition sprintMap_set (k : value) (v : string) : M unit :=
  fun st => Return (tt, mkState (world st) (data st) (result st)
                                (boardMap st)
                                (Map_set k v (sprintMap st)) (ticketMap st)).

Definition ticketMap_set (k : value) (v : string) : M unit :=
  fun st => Return (tt, mkState (world st) (data st) (result st)
                                (boardMap st) (sprintMap st)
                                (Map_set k v (ticketMap st))).

(** [result.boards.push(b)], [result.sprints.push(s)],
    [result.tickets.push(t)] *)
Definition push_board (b : Board.t) : M unit :=
  r <- get_result ;;
  set_result (mkResult (boards r ++ [b]) (sprints r) (tickets r) (stats r)).

Definition push_sprint (s : Sprint.t) : M unit :=
  r <- get_result ;;
  set_result (mkResult (boards r) (sprints r ++ [s]) (tickets r) (stats r)).

Definition push_ticket (t : Ticket.t) : M unit :=
  r <- get_result ;;
  set_result (mkResult (boards r) (sprints r) (tickets r ++ [t]) (stats r)).

(* ================================================================== *)
(** * [parseJsonImport] *)
(* ================================================================== *)

(** ** 1a. A sprint nested in a board *)
Definition processSprint (newId : string) (s : value) : M unit :=
  newSprintId <- randomUUID ;;
  s_id <- prop s "id" ;;
  when (truthy s_id) (sprintMap_set s_id newSprintId) ;;
  s_name <- prop s "name" ;;
  s_status <- prop s "status" ;;
  s_goal <- prop s "goal" ;;
  s_start_date <- prop s "start_date" ;;
  s_end_date <- prop s "end_date" ;;
  push_sprint
    {| Sprint.id := newSprintId;
       Sprint.board_id := newId;
       Sprint.name := or_else s_name (VStr "Imported Sprint");
       Sprint.status := or_else s_status (VStr "future");
       Sprint.goal := s_goal;
       Sprint.start_date := s_start_date;
       Sprint.end_date := s_end_date |}.

(** ** 1b. A ticket nested in a board: marked with the board's token and
    moved to the end of [data.tickets].

    The mark is written on the ticket object itself; the copy that stays
    under [b.tickets] is not read again, so the marked ticket is the one
    pushed. *)
Definition tagTicket (b : value) (t : value) : M unit :=
  b_id <- prop b "id" ;;
  t' <- lift (set_prop t "_temp_board_id" b_id) ;;
  d <- get_data ;;
  d_tickets <- prop d "tickets" ;;
  when (negb (truthy d_tickets))
       (d' <- lift (set_prop d "tickets" (VArr Literal [] [])) ;;
        set_data d') ;;
  d <- get_data ;;
  d_tickets <- prop d "tickets" ;;
  pushed <- lift (array_push d_tickets t') ;;
  d' <- lift (set_prop d "tickets" pushed) ;;
  set_data d'.

(** ** 1. A board *)
Definition processBoard (b : value) : M unit :=
  newId <- randomUUID ;;
  b_id <- prop b "id" ;;
  when (truthy b_id) (boardMap_set b_id newId) ;;
  b_name <- prop b "name" ;;
  b_key <- prop b "key" ;;
  b_type <- prop b "type" ;;
  b_columns <- prop b "columns" ;;
  push_board
    {| Board.id := newId;
       Board.name := or_else b_name (VStr "Imported Project");
       Board.key := or_else b_key (VStr "IMP");
       Board.type := or_else b_type (VStr "kanban");
       Board.columns := or_else b_columns (VArr Literal [] []) |} ;;
  b_sprints <- prop b "sprints" ;;
  when (truthy b_sprints && isArray b_sprints)
       (forEach (processSprint newId) (elements b_sprints)) ;;
  b_tickets <- prop b "tickets" ;;
  when (truthy b_tickets && isArray b_tickets)
       (forEach (tagTicket b) (elements b_tickets)).

(** ** 2. Tickets, first pass *)

(** "Resolve Board ID": mapped id from the import, then the current active
    board, then the first imported board, else what [currentBoardId] was. *)
Definition resolveBoardId (boardMap : Map) (result_boards : list Board.t)
    (currentBoardId : value) (t_temp_board_id t_board_id : value) : value :=
  let targetBoardId := currentBoardId in
  if truthy t_temp_board_id && Map_has t_temp_board_id boardMap
  then Map_get t_temp_board_id boardMap
  else if truthy t_board_id && Map_has t_board_id boardMap
  then Map_get t_board_id boardMap
  else if negb (truthy targetBoardId) && (0 <? length result_boards)%nat
  then match result_boards with
       | b0 :: _ => VStr (Board.id b0)
       | [] => VUndefined
       end
  else targetBoardId.

(** "Resolve Sprint ID" *)
Definition resolveSprintId (sprintMap : Map) (t_sprint_id : value) : value :=
  if truthy t_sprint_id && Map_has t_sprint_id sprintMap
  then Map_get t_sprint_id sprintMap
  else VNull.

(** "Safe parsing for story points" *)
Definition parsePoints (t_story_points : value) : value :=
  match t_story_points with
  | VStr s =>
      let parsedPoints := parseInt s in
      if isNaN parsedPoints then VUndefined else VNum parsedPoints
  | _ => t_story_points
  end.

(** An optional string argument left out is [undefined]. *)
Definition optional (a : option string) : value :=
  match a with Some s => VStr s | None => VUndefined end.

Definition processTicket (currentBoardId : option string) (t : value)
  : M unit :=
  newId <- randomUUID ;;
  t_id <- prop t "id" ;;
  when (truthy t_id) (ticketMap_set t_id newId) ;;
  t_temp_board_id <- prop t "_temp_board_id" ;;
  t_board_id <- prop t "board_id" ;;
  bm <- get_boardMap ;;
  r <- get_result ;;
  let targetBoardId :=
    resolveBoardId bm (boards r) (optional currentBoardId)
                   t_temp_board_id t_board_id in
  t_sprint_id <- prop t "sprint_id" ;;
  sm <- get_sprintMap ;;
  let targetSprintId := resolveSprintId sm t_sprint_id in
  t_story_points <- prop t "story_points" ;;
  let parsedPoints := parsePoints t_story_points in
  t_title <- prop t "title" ;;
  t_description <- prop t "description" ;;
  t_status <- prop t "status" ;;
  t_type <- prop t "type" ;;
  t_priority <- prop t "priority" ;;
  t_labels <- prop t "labels" ;;
  t_is_flagged <- prop t "is_flagged" ;;
  t_parent_id <- prop t "parent_id" ;;
  created <- now_toISOString ;;
  push_ticket
    {| Ticket.id := newId;
       Ticket.board_id := targetBoardId;
       Ticket.sprint_id := targetSprintId;
       Ticket.title := or_else t_title (VStr "Untitled Ticket");
       Ticket.description := or_else t_description (VStr "");
       Ticket.status := or_else t_status (VStr "Todo");
       Ticket.type := or_else t_type (VStr "Story");
       Ticket.priority := or_else t_priority (VStr "Medium");
       Ticket.story_points := parsedPoints;
       Ticket.labels := or_else t_labels (VArr Literal [] []);
       Ticket.is_flagged := to_boolean t_is_flagged;
       Ticket.parent_id := or_else t_parent_id VNull;
       Ticket.assignee_id := VNull;
       Ticket.created_at := created |}.

(** ** Tickets, second pass: link parents *)
Definition linkParent (ticketMap : Map) (ticket : Ticket.t) : Ticket.t :=
  let raw := Ticket.parent_id ticket in
  {| Ticket.id := Ticket.id ticket;
     Ticket.board_id := Ticket.board_id ticket;
     Ticket.sprint_id := Ticket.sprint_id ticket;
     Ticket.title := Ticket.title ticket;
     Ticket.description := Ticket.description ticket;
     Ticket.status := Ticket.status ticket;
     Ticket.type := Ticket.type ticket;
     Ticket.priority := Ticket.priority ticket;
     Ticket.story_points := Ticket.story_points ticket;
     Ticket.labels := Ticket.labels ticket;
     Ticket.is_flagged := Ticket.is_flagged ticket;
     Ticket.parent_id :=
       if truthy raw && Map_has raw ticketMap
       then Map_get raw ticketMap
       else VNull;
     Ticket.assignee_id := Ticket.assignee_id ticket;
     Ticket.created_at := Ticket.created_at ticket |}.

Definition linkParents : M unit :=
  tm <- get_ticketMap ;;
  r <- get_result ;;
  set_result (mkResult (boards r) (sprints r)
                       (map (linkParent tm) (tickets r)) (stats r)).

(** ** The body of [parseJsonImport] after [JSON.parse] *)
Definition importBody (currentBoardId : option string) : M ParsedResult :=
  d <- get_data ;;
  d_boards <- prop d "boards" ;;
  when (truthy d_boards && isArray d_boards)
       (forEach processBoard (elements d_boards)) ;;
  d <- get_data ;;
  d_tickets <- prop d "tickets" ;;
  when (truthy d_tickets && isArray d_tickets)
       (forEach (processTicket currentBoardId) (elements d_tickets) ;;
        linkParents) ;;
  r <- get_result ;;
  set_result (mkResult (boards r) (sprints r) (tickets r)
                       (mkStats (length (boards r)) (length (sprints r))
                                (length (tickets r)))) ;;
  get_result.

Definition empty_result : ParsedResult := mkResult [] [] [] (mkStats 0 0 0).

Definition initial (w : World) (d : value) : State :=
  mkState w d empty_result [] [] [].

(** [parseJsonImport(jsonString, currentBoardId)].  [JSON_parse] gives
    [None] where [JSON.parse] throws.  The outcome is the returned value
    with the world the call leaves behind, or the exception. *)
Definition parseJsonImport (JSON_parse : string -> option value)
    (jsonString : string) (currentBoardId : option string) (w : World)
  : outcome (ParsedResult * World) :=
  match JSON_parse jsonString with
  | None => Throw InvalidJSONFormat
  | Some d =>
      match importBody currentBoardId (initial w d) with
      | Return (r, st) => Return (r, world st)
      | Throw e => Throw e
      end
  end.


(* ================================================================== *)
(** * The import as a state transformer

    Each loop body of [parseJsonImport] either throws a [TypeError] or
    moves the state in one definite way.  The definitions of this part name
    the condition and the move, so that the program can be reasoned about
    as a fold over the document; the lemmas [*_exact] below prove that they
    are what the program does. *)
(* ================================================================== *)

(** [v] is [null] or [undefined]: reading a property of it throws. *)
Definition nullish (v : value) : bool :=
  match v with VUndefined | VNull => true | _ => false end.

(** [v] is an object or an array: a property can be written on it. *)
Definition writable (v : value) : bool :=
  match v with VObj _ _ | VArr _ _ _ => true | _ => false end.

(** [v.k] where it does not throw. *)
Definition field (v : value) (k : string) : value :=
  match v with
  | VObj _ ps | VArr _ _ ps => lookup k ps
  | _ => VUndefined
  end.

(** [v] after [v.k = x] where that does not throw. *)
Definition with_field (v : value) (k : string) (x : value) : value :=
  match v with
  | VObj l ps => VObj l (assign k x ps)
  | VArr l es ps => VArr l es (assign k x ps)
  | _ => v
  end.

(** The entries visited by [if (x && Array.isArray(x)) x.forEach(...)]. *)
Definition entries (x : value) : list value :=
  if truthy x && isArray x then elements x else [].

(** [a] after [a.push(x)], for [a] an array. *)
Definition pushed (a x : value) : value :=
  match a with
  | VArr l es ps => VArr l (es ++ [x]) ps
  | _ => a
  end.

(** ** Sprints *)

Definition sprint_for (newId newSprintId : string) (s : value) : Sprint.t :=
  {| Sprint.id := newSprintId;
     Sprint.board_id := newId;
     Sprint.name := or_else (field s "name") (VStr "Imported Sprint");
     Sprint.status := or_else (field s "status") (VStr "future");
     Sprint.goal := field s "goal";
     Sprint.start_date := field s "start_date";
     Sprint.end_date := field s "end_date" |}.

(** A token is recorded only when it is truthy. *)
Definition record_token (tok : value) (newid : string) (m : Map) : Map :=
  if truthy tok then Map_set tok newid m else m.

Definition drawn (w : World) : string := uuid_at w (uuid_next w).

Definition after_draw (w : World) : World :=
  mkWorld (uuid_at w) (S (uuid_next w)) (time_at w) (time_next w).

Definition after_tick (w : World) : World :=
  mkWorld (uuid_at w) (uuid_next w) (time_at w) (S (time_next w)).

Definition after_sprint (newId : string) (s : value) (st : State) : State :=
  let r := result st in
  mkState (after_draw (world st)) (data st)
          (mkResult (boards r)
                    (sprints r ++ [sprint_for newId (drawn (world st)) s])
                    (tickets r) (stats r))
          (boardMap st)
          (record_token (field s "id") (drawn (world st)) (sprintMap st))
          (ticketMap st).

Definition sprint_ok (s : value) (st : State) : bool := negb (nullish s).

(** ** Tickets nested in a board *)

(** The ticket [t] of board [b], marked with the board's token. *)
Definition tagged (b t : value) : value :=
  with_field t "_temp_board_id" (field b "id").

Definition tag_ok (b t : value) (st : State) : bool :=
  negb (nullish b) && writable t && writable (data st)
  && (negb (truthy (field (data st) "tickets"))
      || isArray (field (data st) "tickets")).

Definition after_tag (b t : value) (st : State) : State :=
  let d := data st in
  let d1 := if truthy (field d "tickets") then d
            else with_field d "tickets" (VArr Literal [] []) in
  let d2 := with_field d1 "tickets" (pushed (field d1 "tickets") (tagged b t)) in
  mkState (world st) d2 (result st) (boardMap st) (sprintMap st) (ticketMap st).

(** ** Boards *)

Definition board_for (newId : string) (b : value) : Board.t :=
  {| Board.id := newId;
     Board.name := or_else (field b "name") (VStr "Imported Project");
     Board.key := or_else (field b "key") (VStr "IMP");
     Board.type := or_else (field b "type") (VStr "kanban");
     Board.columns := or_else (field b "columns") (VArr Literal [] []) |}.

(** The state when the board itself has been recorded and pushed, before
    its sprints and tickets are visited. *)
Definition after_board_head (b : value) (st : State) : State :=
  let r := result st in
  mkState (after_draw (world st)) (data st)
          (mkResult (boards r ++ [board_for (drawn (world st)) b])
                    (sprints r) (tickets r) (stats r))
          (record_token (field b "id") (drawn (world st)) (boardMap st))
          (sprintMap st) (ticketMap st).

(** A loop whose body is [ok]/[after]: whether it runs through, and where
    it ends. *)
Fixpoint all_ok {A} (ok : A -> State -> bool) (after : A -> State -> State)
    (l : list A) (st : State) : bool :=
  match l with
  | [] => true
  | a :: l' => ok a st && all_ok ok after l' (after a st)
  end.

Fixpoint after_all {A} (after : A -> State -> State) (l : list A)
    (st : State) : State :=
  match l with
  | [] => st
  | a :: l' => after_all after l' (after a st)
  end.

Definition after_sprints (b : value) (st : State) : State :=
  after_all (after_sprint (drawn (world st))) (entries (field b "sprints"))
            (after_board_head b st).

Definition after_board (b : value) (st : State) : State :=
  after_all (after_tag b) (entries (field b "tickets")) (after_sprints b st).

Definition board_ok (b : value) (st : State) : bool :=
  negb (nullish b)
  && all_ok sprint_ok (after_sprint (drawn (world st)))
            (entries (field b "sprints")) (after_board_head b st)
  && all_ok (tag_ok b) (after_tag b)
            (entries (field b "tickets")) (after_sprints b st).

(** ** Tickets *)

Definition ticket_for (currentBoardId : option string) (st : State)
    (t : value) : Ticket.t :=
  {| Ticket.id := drawn (world st);
     Ticket.board_id :=
       resolveBoardId (boardMap st) (boards (result st))
                      (optional currentBoardId)
                      (field t "_temp_board_id") (field t "board_id");
     Ticket.sprint_id := resolveSprintId (sprintMap st) (field t "sprint_id");
     Ticket.title := or_else (field t "title") (VStr "Untitled Ticket");
     Ticket.description := or_else (field t "description") (VStr "");
     Ticket.status := or_else (field t "status") (VStr "Todo");
     Ticket.type := or_else (field t "type") (VStr "Story");
     Ticket.priority := or_else (field t "priority") (VStr "Medium");
     Ticket.story_points := parsePoints (field t "story_points");
     Ticket.labels := or_else (field t "labels") (VArr Literal [] []);
     Ticket.is_flagged := to_boolean (field t "is_flagged");
     Ticket.parent_id := or_else (field t "parent_id") VNull;
     Ticket.assignee_id := VNull;
     Ticket.created_at := time_at (world st) (time_next (world st)) |}.

Definition ticket_ok (t : value) (st : State) : bool := negb (nullish t).

Definition after_ticket (currentBoardId : option string) (t : value)
    (st : State) : State :=
  let r := result st in
  mkState (after_tick (after_draw (world st))) (data st)
          (mkResult (boards r) (sprints r)
                    (tickets r ++ [ticket_for currentBoardId st t])
                    (stats r))
          (boardMap st) (sprintMap st)
          (record_token (field t "id") (drawn (world st)) (ticketMap st)).

Definition after_link (st : State) : State :=
  let r := result st in
  mkState (world st) (data st)
          (mkResult (boards r) (sprints r)
                    (map (linkParent (ticketMap st)) (tickets r)) (stats r))
          (boardMap st) (sprintMap st) (ticketMap st).

Definition with_stats (r : ParsedResult) : ParsedResult :=
  mkResult (boards r) (sprints r) (tickets r)
           (mkStats (length (boards r)) (length (sprints r))
                    (length (tickets r))).

(** ** The whole body *)

(** The state after the board stage. *)
Definition after_boards (st : State) : State :=
  after_all after_board (entries (field (data st) "boards")) st.

(** The working ticket list: what [data.tickets] holds when the ticket
    stage starts. *)
Definition working_list (st : State) : list value :=
  entries (field (data (after_boards st)) "tickets").

Definition after_tickets (currentBoardId : option string) (st : State)
  : State :=
  let st1 := after_boards st in
  if truthy (field (data st1) "tickets") && isArray (field (data st1) "tickets")
  then after_link (after_all (after_ticket currentBoardId)
                             (working_list st) st1)
  else st1.

Definition body_ok (currentBoardId : option string) (st : State) : bool :=
  negb (nullish (data st))
  && all_ok board_ok after_board (entries (field (data st) "boards")) st
  && all_ok ticket_ok (after_ticket currentBoardId)
            (working_list st) (after_boards st).

(** What a successful call returns. *)
Definition body_result (currentBoardId : option string) (st : State)
  : ParsedResult :=
  with_stats (result (after_tickets currentBoardId st)).

(* ================================================================== *)
(** * Reading the document *)
(* ================================================================== *)

(** The boards of the document, and for a board its sprints and its
    tickets: the entries the loops of stage 1 visit. *)
Definition doc_boards (d : value) : list value := entries (field d "boards").
Definition board_sprints (b : value) : list value :=
  entries (field b "sprints").
Definition board_tickets (b : value) : list value :=
  entries (field b "tickets").

(** The top-level tickets, and the tickets nested in boards, each marked
    with the token of its board. *)
Definition top_tickets (d : value) : list value :=
  entries (field d "tickets").
Definition nested_tickets (d : value) : list value :=
  flat_map (fun b => map (tagged b) (board_tickets b)) (doc_boards d).

(** The input token of an entity. *)
Definition token (v : value) : value := field v "id".

(** The id that a token stands for, given the tokens and the new ids of the
    entities in document order: the last entity that carries the token
    wins, and a falsy token is never recorded. *)
Fixpoint resolve (tok : value) (toks : list value) (ids : list string)
  : option string :=
  match toks, ids with
  | tok' :: toks', id' :: ids' =>
      match resolve tok toks' ids' with
      | Some i => Some i
      | None => if truthy tok' && same_value_zero tok tok' then Some id'
                else None
      end
  | _, _ => None
  end.

(** The map that recording the pairs in order builds. *)
Fixpoint record_all (toks : list value) (ids : list string) (m : Map) : Map :=
  match toks, ids with
  | tok :: toks', id' :: ids' => record_all toks' ids' (record_token tok id' m)
  | _, _ => m
  end.

(** The identifiers of a batch: the ids of its boards, sprints and
    tickets. *)
Definition batch_ids (r : ParsedResult) : list string :=
  map Board.id (boards r) ++ map Sprint.id (sprints r)
  ++ map Ticket.id (tickets r).

(** A ticket with another id and time stamp. *)
Definition reissue (i c : string) (tk : Ticket.t) : Ticket.t :=
  {| Ticket.id := i;
     Ticket.board_id := Ticket.board_id tk;
     Ticket.sprint_id := Ticket.sprint_id tk;
     Ticket.title := Ticket.title tk;
     Ticket.description := Ticket.description tk;
     Ticket.status := Ticket.status tk;
     Ticket.type := Ticket.type tk;
     Ticket.priority := Ticket.priority tk;
     Ticket.story_points := Ticket.story_points tk;
     Ticket.labels := Ticket.labels tk;
     Ticket.is_flagged := Ticket.is_flagged tk;
     Ticket.parent_id := Ticket.parent_id tk;
     Ticket.assignee_id := Ticket.assignee_id tk;
     Ticket.created_at := c |}.

(** [tk] is what the first pass makes of the entry [t] when the board stage
    has left the state [st]: everything but the id and the time stamp is
    determined by [t] and the maps of [st]. *)
Definition emitted (currentBoardId : option string) (st : State)
    (t : value) (tk : Ticket.t) : Prop :=
  tk = reissue (Ticket.id tk) (Ticket.created_at tk)
               (ticket_for currentBoardId st t).

(** Only the count of identifiers drawn separates two worlds. *)
Definition same_world_but_uuid (w w' : World) : Prop :=
  uuid_at w' = uuid_at w /\ time_at w' = time_at w
  /\ time_next w' = time_next w.

(** The references the board stage has recorded stay inside the batch. *)
Definition closed_maps (st : State) : Prop :=
  (forall k i, Map_find k (boardMap st) = Some i ->
               In i (map Board.id (boards (result st))))
  /\ (forall k i, Map_find k (sprintMap st) = Some i ->
                  In i (map Sprint.id (sprints (result st))))
  /\ (forall s, In s (sprints (result st)) ->
                In (Sprint.board_id s) (map Board.id (boards (result st)))).

(** The ids of the batch are the identifiers drawn since the world [w0],
    each used once. *)
Definition ids_drawn_since (w0 : World) (st : State) : Prop :=
  uuid_at (world st) = uuid_at w0
  /\ uuid_next w0 <= uuid_next (world st)
  /\ Permutation (batch_ids (result st))
                 (map (uuid_at w0)
                      (seq (uuid_next w0)
                           (uuid_next (world st) - uuid_next w0))).

(* ================================================================== *)
(** * Example documents *)
(* ================================================================== *)

(** JSON texts are written here with apostrophes in place of the double
    quotes. *)
Fixpoint json (s : string) : string :=
  match s with
  | EmptyString => EmptyString
  | String c r =>
      String (if Ascii.eqb c "'"%char then ascii_of_nat 34 else c) (json r)
  end.

(** One board [b1] with the sprint [s1], an Epic [e1] and a Story that
    refers to both. *)
Definition text_scenario : string :=
  json "{'boards':[{'id':'b1','sprints':[{'id':'s1'}],'tickets':[{'id':'e1','type':'Epic'},{'type':'Story','parent_id':'e1','sprint_id':'s1'}]}]}".

Definition doc_scenario : value :=
  VObj (Parsed 0)
    [("boards", VArr (Parsed 1)
       [VObj (Parsed 2)
          [("id", VStr "b1");
           ("sprints", VArr (Parsed 3)
              [VObj (Parsed 4) [("id", VStr "s1")]] []);
           ("tickets", VArr (Parsed 5)
              [VObj (Parsed 6) [("id", VStr "e1"); ("type", VStr "Epic")];
               VObj (Parsed 7)
                 [("type", VStr "Story"); ("parent_id", VStr "e1");
                  ("sprint_id", VStr "s1")]] [])]] [])].

(** Two boards with a sprint each; the ticket of the first board names the
    sprint of the second. *)
Definition text_cross : string :=
  json "{'boards':[{'id':'b1','sprints':[{'id':'s1'}],'tickets':[{'sprint_id':'s2'}]},{'id':'b2','sprints':[{'id':'s2'}]}]}".

Definition doc_cross : value :=
  VObj (Parsed 0)
    [("boards", VArr (Parsed 1)
       [VObj (Parsed 2)
          [("id", VStr "b1");
           ("sprints", VArr (Parsed 3)
              [VObj (Parsed 4) [("id", VStr "s1")]] []);
           ("tickets", VArr (Parsed 5)
              [VObj (Parsed 6) [("sprint_id", VStr "s2")]] [])];
        VObj (Parsed 7)
          [("id", VStr "b2");
           ("sprints", VArr (Parsed 8)
              [VObj (Parsed 9) [("id", VStr "s2")]] [])]] [])].

(** A ticket under a board and a ticket at top level. *)
Definition text_order : string :=
  json "{'boards':[{'tickets':[{'title':'N'}]}],'tickets':[{'title':'T'}]}".

Definition doc_order : value :=
  VObj (Parsed 0)
    [("boards", VArr (Parsed 1)
       [VObj (Parsed 2)
          [("tickets", VArr (Parsed 3)
              [VObj (Parsed 4) [("title", VStr "N")]] [])]] []);
     ("tickets", VArr (Parsed 5)
        [VObj (Parsed 6) [("title", VStr "T")]] [])].

(** A board without a token and a loose ticket without a board. *)
Definition text_loose : string := json "{'boards':[{}],'tickets':[{}]}".

Definition doc_loose : value :=
  VObj (Parsed 0)
    [("boards", VArr (Parsed 1) [VObj (Parsed 2) []] []);
     ("tickets", VArr (Parsed 3) [VObj (Parsed 4) []] [])].

(** A child listed before its parent. *)
Definition text_forward : string :=
  json "{'tickets':[{'parent_id':'e1'},{'id':'e1'}]}".

Definition doc_forward : value :=
  VObj (Parsed 0)
    [("tickets", VArr (Parsed 1)
        [VObj (Parsed 2) [("parent_id", VStr "e1")];
         VObj (Parsed 3) [("id", VStr "e1")]] [])].

(** Story points below zero, as a number. *)
Definition text_points : string := json "{'tickets':[{'story_points':-3}]}".

Definition doc_points : value :=
  VObj (Parsed 0)
    [("tickets", VArr (Parsed 1)
        [VObj (Parsed 2) [("story_points", VNum (number_of_Z true 3))]] [])].

(** Story points written as text: a number, a signed number with a unit
    behind it, no number at all, and four hundred digits. *)
Fixpoint nines (n : nat) : string :=
  match n with
  | O => EmptyString
  | S n' => String "9"%char (nines n')
  end.

Definition text_estimates : string :=
  json ("{'tickets':[{'story_points':'12'},{'story_points':' -4px'},{'story_points':'abc'},{'story_points':'"
        ++ nines 400 ++ "'}]}").

Definition doc_estimates : value :=
  VObj (Parsed 0)
    [("tickets", VArr (Parsed 1)
        [VObj (Parsed 2) [("story_points", VStr "12")];
         VObj (Parsed 3) [("story_points", VStr " -4px")];
         VObj (Parsed 4) [("story_points", VStr "abc")];
         VObj (Parsed 5) [("story_points", VStr (nines 400))]] [])].

(** One loose ticket and no board. *)
Definition text_flat : string := json "{'tickets':[{'title':'A'}]}".

Definition doc_flat : value :=
  VObj (Parsed 0)
    [("tickets", VArr (Parsed 1)
        [VObj (Parsed 2) [("title", VStr "A")]] [])].

(** The document that is just [null]. *)
Definition text_null : string := "null".

(** [JSON.parse] on the texts above; every other text of the examples
    ([{not valid], for one) is not JSON. *)
Definition JSON_parse_examples (s : string) : option value :=
  if String.eqb s text_scenario then Some doc_scenario
  else if String.eqb s text_cross then Some doc_cross
  else if String.eqb s text_order then Some doc_order
  else if String.eqb s text_loose then Some doc_loose
  else if String.eqb s text_forward then Some doc_forward
  else if String.eqb s text_points then Some doc_points
  else if String.eqb s text_estimates then Some doc_estimates
  else if String.eqb s text_flat then Some doc_flat
  else if String.eqb s text_null then Some VNull
  else None.

(** A generator that never repeats itself, and a clock. *)
Fixpoint example_uuid (n : nat) : string :=
  match n with
  | O => "u"
  | S n' => String "u"%char (example_uuid n')
  end.

Definition example_world : World :=
  mkWorld example_uuid 0 (fun _ => "2024-01-01T00:00:00.000Z") 0.

(* ================================================================== *)
(** * Vocabulary of the properties *)
(* ================================================================== *)

(** The fields of an emitted ticket that its own entry determines. *)
Definition made_from (t : value) (tk : Ticket.t) : Prop :=
  Ticket.title tk = or_else (field t "title") (VStr "Untitled Ticket")
  /\ Ticket.description tk = or_else (field t "description") (VStr "")
  /\ Ticket.status tk = or_else (field t "status") (VStr "Todo")
  /\ Ticket.type tk = or_else (field t "type") (VStr "Story")
  /\ Ticket.priority tk = or_else (field t "priority") (VStr "Medium")
  /\ Ticket.story_points tk = parsePoints (field t "story_points")
  /\ Ticket.labels tk = or_else (field t "labels") (VArr Literal [] [])
  /\ Ticket.is_flagged tk = to_boolean (field t "is_flagged")
  /\ Ticket.assignee_id tk = VNull.

(** A value that is the number of a whole number not below zero. *)
Definition nonneg_integer (v : value) : Prop :=
  exists z, (0 <= z)%Z /\ v = VNum (number_of_Z false z).

(** A magnitude with its sign. *)
Definition signed (negative : bool) (n : Z) : Z :=
  if negative then Z.opp n else n.

(** The whole number that a binary64 value is, when it is finite and has
    no fraction: the mantissa times two to the exponent. *)
Definition integer_of (x : spec_float) : option Z :=
  match x with
  | S754_zero _ => Some 0%Z
  | S754_finite s m e =>
      if (0 <=? e)%Z then Some (signed s (Z.pos m * 2 ^ e))
      else if (Z.pos m mod 2 ^ (- e) =? 0)%Z
           then Some (signed s (Z.pos m / 2 ^ (- e)))
           else None
  | S754_infinity _ | S754_nan => None
  end.

(** The sign that a binary64 value shows. *)
Definition sign_bit (x : spec_float) : option bool :=
  match x with
  | S754_zero s | S754_infinity s | S754_finite s _ _ => Some s
  | S754_nan => None
  end.

(** The id that a board token stands for in the batch [r] of the document
    [d], and the first board of the batch. *)
Definition board_of_token (d : value) (r : ParsedResult) (tok : value)
  : option string :=
  resolve tok (map token (doc_boards d)) (map Board.id (boards r)).

Definition first_board (r : ParsedResult) : option string :=
  match boards r with
  | b0 :: _ => Some (Board.id b0)
  | [] => None
  end.

(** The entries of the working list with where they come from: a top-level
    ticket, or a ticket of a board. *)
Definition working_entries (d : value) : list (option value * value) :=
  map (fun t => (None, t)) (top_tickets d)
  ++ flat_map (fun b => map (fun t => (Some b, t)) (board_tickets b))
              (doc_boards d).

(** The mark that the board stage attached: the token of the board for a
    nested ticket, nothing for a top-level one. *)
Definition entry_tag (e : option value * value) : value :=
  match fst e with
  | Some b => token b
  | None => VUndefined
  end.

(** The entry as it stands in the working list. *)
Definition entry_value (e : option value * value) : value :=
  match fst e with
  | Some b => tagged b (snd e)
  | None => snd e
  end.

(** The priority order in the words of the specification: (a) the mapped
    tag, (b) the mapped raw [board_id], (c) the fallback when supplied,
    (d) the first board of the import, (e) unset. *)
Definition board_by_priority (mapped_tag mapped_raw fallback first
    : option string) : value :=
  match mapped_tag with
  | Some i => VStr i
  | None =>
      match mapped_raw with
      | Some i => VStr i
      | None =>
          match fallback with
          | Some f => VStr f
          | None =>
              match first with
              | Some b => VStr b
              | None => VUndefined
              end
          end
      end
  end.

(** The same order with the fallback as the code tests it: it counts only
    when it is a non-empty string, and when nothing applies the ticket is
    left with the fallback as it was given. *)
Definition board_by_priority_truthy (mapped_tag mapped_raw fallback first
    : option string) : value :=
  match mapped_tag with
  | Some i => VStr i
  | None =>
      match mapped_raw with
      | Some i => VStr i
      | None =>
          if truthy (optional fallback) then optional fallback
          else match first with
               | Some b => VStr b
               | None => optional fallback
               end
      end
  end.

(** ** Documents on which the import runs through *)

Definition no_tickets (b : value) : bool :=
  match board_tickets b with [] => true | _ :: _ => false end.

(** A board entry that is not [null], whose sprint entries are not [null]
    and whose ticket entries are objects or arrays. *)
Definition board_shaped (b : value) : bool :=
  negb (nullish b)
  && forallb (fun s => negb (nullish s)) (board_sprints b)
  && forallb writable (board_tickets b).

(** The document is not [null]; every board is [board_shaped]; no ticket
    entry at top level is [null]; and when some board has tickets, the
    top-level [tickets] is falsy (or absent) or an array, so that the
    nested tickets can be pushed onto it. *)
Definition well_shaped (d : value) : bool :=
  negb (nullish d)
  && forallb board_shaped (doc_boards d)
  && (forallb no_tickets (doc_boards d)
      || negb (truthy (field d "tickets"))
      || isArray (field d "tickets"))
  && forallb (fun t => negb (nullish t)) (top_tickets d).

(** [data.tickets] can take a pushed ticket. *)
Definition can_push (st : State) : bool :=
  writable (data st)
  && (negb (truthy (field (data st) "tickets"))
      || isArray (field (data st) "tickets")).

(** ** Two batches of the same shape *)

(** [rho a b]: the generated id [a] of one batch stands where the generated
    id [b] stands in the other. *)
Definition one_to_one (rho : string -> string -> Prop) : Prop :=
  (forall a b b', rho a b -> rho a b' -> b = b')
  /\ (forall a a' b, rho a b -> rho a' b -> a = a').

(** A reference of a ticket: corresponding generated ids, or on both sides
    the same value that was not generated ([null], unset, or the caller's
    fallback). *)
Definition ref_equiv (rho : string -> string -> Prop)
    (fallback : option string) (v1 v2 : value) : Prop :=
  (exists a b, v1 = VStr a /\ v2 = VStr b /\ rho a b)
  \/ (v1 = v2
      /\ (v1 = VNull \/ v1 = VUndefined \/ v1 = optional fallback)).

Definition board_equiv (rho : string -> string -> Prop)
    (b1 b2 : Board.t) : Prop :=
  rho (Board.id b1) (Board.id b2)
  /\ Board.name b1 = Board.name b2
  /\ Board.key b1 = Board.key b2
  /\ Board.type b1 = Board.type b2
  /\ Board.columns b1 = Board.columns b2.

Definition sprint_equiv (rho : string -> string -> Prop)
    (s1 s2 : Sprint.t) : Prop :=
  rho (Sprint.id s1) (Sprint.id s2)
  /\ rho (Sprint.board_id s1) (Sprint.board_id s2)
  /\ Sprint.name s1 = Sprint.name s2
  /\ Sprint.status s1 = Sprint.status s2
  /\ Sprint.goal s1 = Sprint.goal s2
  /\ Sprint.start_date s1 = Sprint.start_date s2
  /\ Sprint.end_date s1 = Sprint.end_date s2.

(** The fields of a ticket that are not references. The time stamp is the
    time of the run and is not compared. *)
Definition ticket_content_equal (t1 t2 : Ticket.t) : Prop :=
  Ticket.title t1 = Ticket.title t2
  /\ Ticket.description t1 = Ticket.description t2
  /\ Ticket.status t1 = Ticket.status t2
  /\ Ticket.type t1 = Ticket.type t2
  /\ Ticket.priority t1 = Ticket.priority t2
  /\ Ticket.story_points t1 = Ticket.story_points t2
  /\ Ticket.labels t1 = Ticket.labels t2
  /\ Ticket.is_flagged t1 = Ticket.is_flagged t2
  /\ Ticket.assignee_id t1 = Ticket.assignee_id t2.

Definition ticket_equiv (rho : string -> string -> Prop)
    (fallback : option string) (t1 t2 : Ticket.t) : Prop :=
  rho (Ticket.id t1) (Ticket.id t2)
  /\ ref_equiv rho fallback (Ticket.board_id t1) (Ticket.board_id t2)
  /\ ref_equiv rho fallback (Ticket.sprint_id t1) (Ticket.sprint_id t2)
  /\ ref_equiv rho fallback (Ticket.parent_id t1) (Ticket.parent_id t2)
  /\ ticket_content_equal t1 t2.

(** Structural equivalence of two batches up to the renaming [rho] of the
    generated ids. *)
Definition equivalent_upto (rho : string -> string -> Prop)
    (fallback : option string) (r1 r2 : ParsedResult) : Prop :=
  Forall2 (board_equiv rho) (boards r1) (boards r2)
  /\ Forall2 (sprint_equiv rho) (sprints r1) (sprints r2)
  /\ Forall2 (ticket_equiv rho fallback) (tickets r1) (tickets r2)
  /\ stats r1 = stats r2.

(** The n-th identifier drawn after [w1] stands for the n-th drawn after
    [w2]. *)
Definition same_draw (w1 w2 : World) (a b : string) : Prop :=
  exists n, a = uuid_at w1 (uuid_next w1 + n)
            /\ b = uuid_at w2 (uuid_next w2 + n).

(** Between the two passes a ticket still holds its raw parent token. *)
Definition ticket_equiv_raw (rho : string -> string -> Prop)
    (fallback : option string) (t1 t2 : Ticket.t) : Prop :=
  rho (Ticket.id t1) (Ticket.id t2)
  /\ ref_equiv rho fallback (Ticket.board_id t1) (Ticket.board_id t2)
  /\ ref_equiv rho fallback (Ticket.sprint_id t1) (Ticket.sprint_id t2)
  /\ Ticket.parent_id t1 = Ticket.parent_id t2
  /\ ticket_content_equal t1 t2.

Definition map_equiv (rho : string -> string -> Prop) (m1 m2 : Map) : Prop :=
  Forall2 (fun p1 p2 => fst p1 = fst p2 /\ rho (snd p1) (snd p2)) m1 m2.

(** Two runs on the same document, in step: the state of the one started
    in [w1] and the state of the one started in [w2]. *)
Definition in_step (w1 w2 : World) (fallback : option string)
    (st1 st2 : State) : Prop :=
  data st1 = data st2
  /\ uuid_at (world st1) = uuid_at w1
  /\ uuid_at (world st2) = uuid_at w2
  /\ (exists n, uuid_next (world st1) = uuid_next w1 + n
                /\ uuid_next (world st2) = uuid_next w2 + n)
  /\ Forall2 (board_equiv (same_draw w1 w2))
             (boards (result st1)) (boards (result st2))
  /\ Forall2 (sprint_equiv (same_draw w1 w2))
             (sprints (result st1)) (sprints (result st2))
  /\ Forall2 (ticket_equiv_raw (same_draw w1 w2) fallback)
             (tickets (result st1)) (tickets (result st2))
  /\ map_equiv (same_draw w1 w2) (boardMap st1) (boardMap st2)
  /\ map_equiv (same_draw w1 w2) (sprintMap st1) (sprintMap st2)
  /\ map_equiv (same_draw w1 w2) (ticketMap st1) (ticketMap st2).

(* ================================================================== *)
(** * More vocabulary: boards, sprints and counts of a batch *)
(* ================================================================== *)

(** All sprint entries of the document, board after board. *)
Definition doc_sprints (d : value) : list value :=
  flat_map board_sprints (doc_boards d).

(** The fields of an emitted board that its entry determines. *)
Definition board_made_from (b : value) (bd : Board.t) : Prop :=
  Board.name bd = or_else (field b "name") (VStr "Imported Project")
  /\ Board.key bd = or_else (field b "key") (VStr "IMP")
  /\ Board.type bd = or_else (field b "type") (VStr "kanban")
  /\ Board.columns bd = or_else (field b "columns") (VArr Literal [] []).

(** The sprint entries of the boards [bs], each with the board of the
    batch that was made from its board entry. *)
Definition sprint_entries (bs : list value) (bds : list Board.t)
  : list (Board.t * value) :=
  flat_map (fun p => map (fun s => (snd p, s)) (board_sprints (fst p)))
           (combine bs bds).

(** The emitted sprint [sp] is made from the entry [s] of the board that
    became [bd]: it is on that board, and the entry determines the rest. *)
Definition sprint_made_from (e : Board.t * value) (sp : Sprint.t) : Prop :=
  Sprint.board_id sp = Board.id (fst e)
  /\ Sprint.name sp = or_else (field (snd e) "name") (VStr "Imported Sprint")
  /\ Sprint.status sp = or_else (field (snd e) "status") (VStr "future")
  /\ Sprint.goal sp = field (snd e) "goal"
  /\ Sprint.start_date sp = field (snd e) "start_date"
  /\ Sprint.end_date sp = field (snd e) "end_date".

(** The id that a sprint token stands for in the batch [r] of the document
    [d]: sprints of all boards count, the last one that carries the token
    wins. *)
Definition sprint_of_token (d : value) (r : ParsedResult) (tok : value)
  : option string :=
  resolve tok (map token (doc_sprints d)) (map Sprint.id (sprints r)).

(** The numbers of entries of a document. *)
Definition doc_counts (d : value) : Stats :=
  mkStats (length (doc_boards d)) (length (doc_sprints d))
          (length (top_tickets d) + length (nested_tickets d)).

(* ================================================================== *)
(** * The import dialog ([components/ImportModal.tsx]) *)
(* ================================================================== *)

Inductive Tab : Type := TabImport | TabGuide.

(** The state of the component: its four [useState] cells. *)
Module ImportModal.
Record t : Type := mk {
  activeTab : Tab;
  jsonInput : string;
  error : option string;         (* null, or the message shown *)
  stats : option Stats           (* null, or the preview *)
}.
End ImportModal.

(** The state when the component mounts. *)
Definition modal_initial : ImportModal.t :=
  ImportModal.mk TabImport "" None None.

(** What a handler calls on the properties of the component. *)
Inductive call : Type :=
| OnImport (bs : list Board.t) (ss : list Sprint.t) (ts : list Ticket.t)
| OnClose.

(** [!val.trim()]: trimming leaves nothing exactly when skipping the
    leading white space leaves nothing. *)
Definition blank (val : string) : bool := String.eqb (skip_white val) "".

(** [e.message].  The text of a [TypeError] is the runtime's; it is an
    argument of the handler that reads it. *)
Definition message (typeErrorText : string) (e : exn) : string :=
  match e with
  | InvalidJSONFormat => "Invalid JSON format"
  | TypeError => typeErrorText
  end.

(** [handleJsonChange(val)]: every change of the text area.  The call of
    [parseJsonImport] is in a [try] whose [catch] is empty. *)
Definition handleJsonChange (JSON_parse : string -> option value)
    (activeBoardId : string) (val : string) (m : ImportModal.t) (w : World)
  : ImportModal.t :=
  let cleared := ImportModal.mk (ImportModal.activeTab m) val None None in
  if blank val then cleared
  else
    match parseJsonImport JSON_parse val (Some activeBoardId) w with
    | Return (r, _) =>
        ImportModal.mk (ImportModal.activeTab m) val None (Some (stats r))
    | Throw _ => cleared
    end.

(** [handleImport()]: the click on "Import Data".  [onImport] is the
    application's asynchronous handler, which does not throw into the
    [try]. *)
Definition handleImport (JSON_parse : string -> option value)
    (activeBoardId : string) (typeErrorText : string)
    (m : ImportModal.t) (w : World) : ImportModal.t * list call :=
  match parseJsonImport JSON_parse (ImportModal.jsonInput m)
                        (Some activeBoardId) w with
  | Return (r, _) =>
      (ImportModal.mk (ImportModal.activeTab m) "" (ImportModal.error m) None,
       [OnImport (boards r) (sprints r) (tickets r); OnClose])
  | Throw e =>
      (ImportModal.mk (ImportModal.activeTab m) (ImportModal.jsonInput m)
                      (Some (String.append "Invalid JSON: "
                                           (message typeErrorText e)))
                      (ImportModal.stats m),
       [])
  end.

(** [disabled={!jsonInput.trim() || !!error}] on the import button. *)
Definition import_disabled (m : ImportModal.t) : bool :=
  blank (ImportModal.jsonInput m)
  || match ImportModal.error m with
     | Some e => negb (String.eqb e "")
     | None => false
     end.

(** What the user does to the dialog: edits the text, or clicks the import
    button (which does nothing while it is disabled).  Each event happens
    in some world. *)
Inductive event : Type :=
| Change (val : string)
| ClickImport.

Definition modal_step (JSON_parse : string -> option value)
    (activeBoardId typeErrorText : string)
    (m : ImportModal.t) (ev : event * World) : ImportModal.t * list call :=
  match fst ev with
  | Change val =>
      (handleJsonChange JSON_parse activeBoardId val m (snd ev), [])
  | ClickImport =>
      if import_disabled m then (m, [])
      else handleImport JSON_parse activeBoardId typeErrorText m (snd ev)
  end.

(** The dialog after a sequence of events, and the calls it made. *)
Fixpoint modal_run (JSON_parse : string -> option value)
    (activeBoardId typeErrorText : string)
    (m : ImportModal.t) (evs : list (event * World))
  : ImportModal.t * list call :=
  match evs with
  | [] => (m, [])
  | ev :: evs' =>
      let '(m1, calls1) :=
        modal_step JSON_parse activeBoardId typeErrorText m ev in
      let '(m2, calls2) :=
        modal_run JSON_parse activeBoardId typeErrorText m1 evs' in
      (m2, calls1 ++ calls2)
  end.

(** The text imports: it is JSON for a document on which the import runs
    through. *)
Definition importable (JSON_parse : string -> option value) (text : string)
  : bool :=
  match JSON_parse text with
  | Some d => well_shaped d
  | None => false
  end.

(** The counts that importing the text gives. *)
Definition counts_of (JSON_parse : string -> option value) (text : string)
  : Stats :=
  match JSON_parse text with
  | Some d => doc_counts d
  | None => mkStats 0 0 0
  end.

(** The dialog shows nothing stale: a preview belongs to the current text,
    which imports, and is shown without an error; an error belongs to a
    current text that does not import. *)
Definition modal_consistent (JSON_parse : string -> option value)
    (m : ImportModal.t) : Prop :=
  (forall st, ImportModal.stats m = Some st ->
              ImportModal.error m = None
              /\ blank (ImportModal.jsonInput m) = false
              /\ importable JSON_parse (ImportModal.jsonInput m) = true
              /\ st = counts_of JSON_parse (ImportModal.jsonInput m))
  /\ (forall e, ImportModal.error m = Some e ->
                importable JSON_parse (ImportModal.jsonInput m) = false
                /\ exists msg, e = String.append "Invalid JSON: " msg).

(* ================================================================== *)
(** * The application's side of an import ([App.tsx]) *)
(* ================================================================== *)

(** The state of the application that an import touches.  Profiles are
    not looked into here. *)
Module App.
Record t : Type := mk {
  tickets : list Ticket.t;
  sprints : list Sprint.t;
  profiles : list value;
  boards : list Board.t;
  activeBoardId : string
}.
End App.

(** What reaches the outside: the snapshot written to local storage
    (the object given to [JSON.stringify] has the five fields of the
    state), and the bulk inserts. *)
Inductive effect : Type :=
| LocalStorageSetItem (key : string) (snapshot : App.t)
| InsertBoards (rows : list Board.t)
| InsertSprints (rows : list Sprint.t)
| InsertTickets (rows : list Ticket.t).

(** [syncData(newTickets, newSprints, newProfiles, newBoards)]: sets the
    four lists and, without Supabase, writes them with the [activeBoardId]
    of the current render. *)
Definition syncData (configured : bool)
    (newTickets : list Ticket.t) (newSprints : list Sprint.t)
    (newProfiles : list value) (newBoards : list Board.t) (a : App.t)
  : App.t * list effect :=
  let a' := App.mk newTickets newSprints newProfiles newBoards
                   (App.activeBoardId a) in
  (a', if configured then []
       else [LocalStorageSetItem "jira_clone_data" a']).

(** [handleBulkImport(importData)].  [configured] is
    [isSupabaseConfigured()]. *)
Definition handleBulkImport (configured : bool)
    (importBoards : list Board.t) (importSprints : list Sprint.t)
    (importTickets : list Ticket.t) (a : App.t) : App.t * list effect :=
  let mergedBoards := App.boards a ++ importBoards in
  let mergedSprints := App.sprints a ++ importSprints in
  let mergedTickets := App.tickets a ++ importTickets in
  let '(a1, fx1) :=
    syncData configured mergedTickets mergedSprints (App.profiles a)
             mergedBoards a in
  let a2 :=
    match importBoards with
    | b0 :: _ =>
        App.mk (App.tickets a1) (App.sprints a1) (App.profiles a1)
               (App.boards a1) (Board.id b0)
    | [] => a1
    end in
  let fx2 :=
    if configured
    then (match importBoards with [] => [] | _ => [InsertBoards importBoards]
          end)
         ++ (match importSprints with [] => []
             | _ => [InsertSprints importSprints] end)
         ++ (match importTickets with [] => []
             | _ => [InsertTickets importTickets] end)
    else [] in
  (a2, fx1 ++ fx2).

(** The application receiving the calls of the dialog: [onImport] is
    [handleBulkImport]; [onClose] only closes the dialog. *)
Fixpoint receive (configured : bool) (calls : list call) (a : App.t)
  : App.t * list effect :=
  match calls with
  | [] => (a, [])
  | OnImport bs ss ts :: calls' =>
      let '(a1, fx1) := handleBulkImport configured bs ss ts a in
      let '(a2, fx2) := receive configured calls' a1 in
      (a2, fx1 ++ fx2)
  | OnClose :: calls' => receive configured calls' a
  end.

(** The ids in the three tables of the application are pairwise
    distinct. *)
Definition unique_ids (a : App.t) : Prop :=
  NoDup (map Board.id (App.boards a))
  /\ NoDup (map Sprint.id (App.sprints a))
  /\ NoDup (map Ticket.id (App.tickets a)).

(** No id of the application is an identifier that the generator still
    has to hand out. *)
Definition ids_not_pending (w : World) (a : App.t) : Prop :=
  forall n, uuid_next w <= n ->
    ~ In (uuid_at w n)
         (map Board.id (App.boards a) ++ map Sprint.id (App.sprints a)
          ++ map Ticket.id (App.tickets a)).

(** The application as [fetchData] sets it up without Supabase and without
    a saved state: the default board with its four columns, one sprint,
    two demo profiles and no ticket.  The dialog holds the text of the
    scenario. *)
Definition example_column (id title : string) (limit : Z) : value :=
  VObj Literal
    [("id", VStr id); ("title", VStr title);
     ("limit", VNum (number_of_Z false limit))].

Definition example_profile (id name email role : string) : value :=
  VObj Literal
    [("id", VStr id); ("name", VStr name); ("email", VStr email);
     ("role", VStr role)].

Definition example_app : App.t :=
  App.mk []
         [Sprint.mk "sp-1" "default-board" (VStr "Sprint 1") (VStr "active")
                    VUndefined VUndefined VUndefined]
         [example_profile "demo-1" "Demo User" "demo@example.com" "Admin";
          example_profile "demo-2" "Team Member" "team@example.com" "Member"]
         [Board.mk "default-board" (VStr "Main Board") (VStr "MAIN")
                   (VStr "kanban")
                   (VArr Literal
                      [example_column "Todo" "To Do" 0;
                       example_column "In Progress" "In Progress" 4;
                       example_column "Review" "Review" 3;
                       example_column "Done" "Done" 0] [])]
         "default-board".

Definition example_modal : ImportModal.t :=
  ImportModal.mk TabImport text_scenario None None.

(* ================================================================== *)
(** * The program does what the state transformer says *)
(* ================================================================== *)

Lemma get_prop_field v k :
  get_prop v k = if nullish v then Throw TypeError else Return (field v k).
Proof. destruct v; reflexivity. Qed.

Lemma set_prop_with_field v k x :
  set_prop v k x = if writable v then Return (with_field v k x)
                   else Throw TypeError.
Proof. destruct v; reflexivity. Qed.

Lemma array_push_pushed a x :
  array_push a x = if isArray a then Return (pushed a x) else Throw TypeError.
Proof. destruct a; reflexivity. Qed.

Lemma lookup_assign_same k x ps : lookup k (assign k x ps) = x.
Proof.
  induction ps as [|[k' v] ps IH]; simpl.
  - now rewrite String.eqb_refl.
  - destruct (String.eqb k k') eqn:E; simpl; rewrite E; auto.
Qed.

Lemma lookup_assign_other k k' x ps :
  String.eqb k' k = false -> lookup k' (assign k x ps) = lookup k' ps.
Proof.
  intros Hk. induction ps as [|[k0 v] ps IH]; simpl.
  - now rewrite Hk.
  - destruct (String.eqb k k0) eqn:E; simpl.
    + apply String.eqb_eq in E. subst k0. now rewrite Hk.
    + now rewrite IH.
Qed.

Lemma field_with_field_same v k x :
  writable v = true -> field (with_field v k x) k = x.
Proof. destruct v; try discriminate; intros _; apply lookup_assign_same. Qed.

Lemma field_with_field_other v k k' x :
  String.eqb k' k = false -> field (with_field v k x) k' = field v k'.
Proof.
  intros Hk. destruct v; try reflexivity; simpl;
    now apply lookup_assign_other.
Qed.

Lemma writable_with_field v k x : writable (with_field v k x) = writable v.
Proof. destruct v; reflexivity. Qed.

Lemma writable_not_nullish v : writable v = true -> nullish v = false.
Proof. destruct v; simpl; congruence. Qed.

Lemma processSprint_exact newId s st :
  processSprint newId s st =
  if sprint_ok s st then Return (tt, after_sprint newId s st)
  else Throw TypeError.
Proof.
  unfold sprint_ok.
  destruct s; try reflexivity;
    unfold processSprint, after_sprint, record_token, bind, prop, lift;
    simpl; destruct (truthy (lookup "id" props)); reflexivity.
Qed.

Lemma tagTicket_exact b t st :
  tagTicket b t st =
  if tag_ok b t st then Return (tt, after_tag b t st) else Throw TypeError.
Proof.
  unfold tagTicket, tag_ok, after_tag, tagged, bind, prop, lift, when,
    get_data, set_data.
  rewrite (get_prop_field b).
  destruct (nullish b); [reflexivity|]. cbn [negb andb].
  rewrite set_prop_with_field.
  destruct (writable t); [|reflexivity]. cbn [andb].
  rewrite (get_prop_field (data st)).
  destruct (writable (data st)) eqn:Hw.
  2:{ destruct (data st); try discriminate; reflexivity. }
  rewrite (writable_not_nullish _ Hw). cbn [andb].
  destruct (truthy (field (data st) "tickets")) eqn:Ht; cbn [negb orb].
  - unfold ret. cbn [data]. rewrite (get_prop_field (data st)).
    rewrite (writable_not_nullish _ Hw).
    rewrite array_push_pushed.
    destruct (isArray (field (data st) "tickets")); [|reflexivity].
    rewrite set_prop_with_field, Hw. reflexivity.
  - rewrite set_prop_with_field, Hw. cbn [data].
    rewrite get_prop_field.
    rewrite (writable_not_nullish (with_field (data st) "tickets" _))
      by now rewrite writable_with_field.
    rewrite field_with_field_same by assumption.
    cbn [array_push].
    rewrite set_prop_with_field, writable_with_field, Hw.
    reflexivity.
Qed.

Lemma forEach_exact {A} (f : A -> M unit)
    (ok : A -> State -> bool) (after : A -> State -> State) :
  (forall a st, f a st = if ok a st then Return (tt, after a st)
                         else Throw TypeError) ->
  forall l st,
    forEach f l st =
    if all_ok ok after l st then Return (tt, after_all after l st)
    else Throw TypeError.
Proof.
  intros Hf l. induction l as [|a l IH]; intros st; simpl.
  - reflexivity.
  - unfold bind. rewrite Hf. destruct (ok a st); simpl; auto.
Qed.

Lemma when_entries (f : value -> M unit) x st :
  when (truthy x && isArray x) (forEach f (elements x)) st
  = forEach f (entries x) st.
Proof. unfold when, entries. destruct (truthy x && isArray x); reflexivity. Qed.

Lemma processBoard_exact b st :
  processBoard b st =
  if board_ok b st then Return (tt, after_board b st) else Throw TypeError.
Proof.
  unfold board_ok. destruct (nullish b) eqn:Hn.
  - destruct b; try discriminate; reflexivity.
  - cbn [negb andb].
    assert (Hhead : processBoard b st =
      (when (truthy (field b "sprints") && isArray (field b "sprints"))
            (forEach (processSprint (drawn (world st)))
                     (elements (field b "sprints"))) ;;
       when (truthy (field b "tickets") && isArray (field b "tickets"))
            (forEach (tagTicket b) (elements (field b "tickets"))))
      (after_board_head b st)).
    { destruct b; try discriminate; try reflexivity;
        unfold processBoard, after_board_head, record_token, bind, prop,
          lift; simpl;
        destruct (truthy (lookup "id" props)); reflexivity. }
    rewrite Hhead. unfold bind at 1.
    rewrite when_entries.
    rewrite (forEach_exact _ sprint_ok (after_sprint (drawn (world st)))
               (processSprint_exact (drawn (world st)))).
    destruct (all_ok sprint_ok _ _ _); [|reflexivity]. cbn [andb].
    rewrite when_entries.
    rewrite (forEach_exact _ (tag_ok b) (after_tag b) (tagTicket_exact b)).
    reflexivity.
Qed.

Lemma processTicket_exact fb t st :
  processTicket fb t st =
  if ticket_ok t st then Return (tt, after_ticket fb t st)
  else Throw TypeError.
Proof.
  unfold ticket_ok.
  destruct t; try reflexivity;
    unfold processTicket, after_ticket, ticket_for, record_token, bind, prop,
      lift; simpl; destruct (truthy (lookup "id" props)); reflexivity.
Qed.

Lemma after_all_inv {A} (P : State -> Prop) (after : A -> State -> State) l :
  (forall a st, In a l -> P st -> P (after a st)) ->
  forall st, P st -> P (after_all after l st).
Proof.
  induction l as [|a l IH]; intros Hstep st HP; simpl; auto.
  apply IH.
  - intros a' st' Hin. apply Hstep. now right.
  - apply Hstep; [now left | assumption].
Qed.

Lemma nullish_with_field v k x : nullish (with_field v k x) = nullish v.
Proof. destruct v; reflexivity. Qed.

Lemma after_tag_nullish b t st :
  nullish (data (after_tag b t st)) = nullish (data st).
Proof.
  unfold after_tag. cbn [data]. rewrite nullish_with_field.
  destruct (truthy _); [reflexivity | apply nullish_with_field].
Qed.

Lemma after_board_nullish b st :
  nullish (data (after_board b st)) = nullish (data st).
Proof.
  unfold after_board.
  apply (after_all_inv (fun s => nullish (data s) = nullish (data st))).
  - intros t s _ Hs. now rewrite after_tag_nullish.
  - unfold after_sprints.
    apply (after_all_inv (fun s => nullish (data s) = nullish (data st)));
      [intros ? ? _ Hs; exact Hs | reflexivity].
Qed.

Lemma after_boards_nullish st :
  nullish (data (after_boards st)) = nullish (data st).
Proof.
  unfold after_boards.
  apply (after_all_inv (fun s => nullish (data s) = nullish (data st)));
    [|reflexivity].
  intros b s _ Hs. now rewrite after_board_nullish.
Qed.

Lemma importBody_exact fb st :
  importBody fb st =
  if body_ok fb st
  then Return (body_result fb st,
               let st' := after_tickets fb st in
               mkState (world st') (data st') (body_result fb st)
                       (boardMap st') (sprintMap st') (ticketMap st'))
  else Throw TypeError.
Proof.
  unfold importBody, body_ok, body_result, after_tickets, working_list.
  unfold bind at 1. unfold get_data at 1.
  unfold bind at 1. unfold prop at 1. rewrite get_prop_field.
  destruct (nullish (data st)) eqn:Hn; [reflexivity|]. cbn [lift negb andb].
  unfold bind at 1. rewrite when_entries.
  rewrite (forEach_exact _ board_ok after_board processBoard_exact).
  fold (after_boards st).
  destruct (all_ok board_ok _ _ _); [|reflexivity]. cbn [andb].
  pose proof (after_boards_nullish st) as Hn1. rewrite Hn in Hn1.
  set (st1 := after_boards st) in *.
  unfold bind at 1. unfold get_data at 1.
  unfold bind at 1. unfold prop at 1. rewrite get_prop_field, Hn1.
  cbn [lift].
  unfold entries.
  destruct (truthy (field (data st1) "tickets")
            && isArray (field (data st1) "tickets")).
  - unfold when. unfold bind at 1. unfold bind at 1.
    rewrite (forEach_exact _ ticket_ok (after_ticket fb)
               (processTicket_exact fb)).
    destruct (all_ok ticket_ok _ _ _); reflexivity.
  - reflexivity.
Qed.

(* ================================================================== *)
(** * Token maps *)
(* ================================================================== *)

Lemma Map_find_record_token k tok i m :
  Map_find k (record_token tok i m) =
  if truthy tok && same_value_zero k tok then Some i else Map_find k m.
Proof.
  unfold record_token. destruct (truthy tok); simpl; reflexivity.
Qed.

Lemma Map_find_record_all k toks : forall ids m,
  Map_find k (record_all toks ids m) =
  match resolve k toks ids with
  | Some i => Some i
  | None => Map_find k m
  end.
Proof.
  induction toks as [|tok toks IH]; intros [|i ids] m; simpl; auto.
  rewrite IH. destruct (resolve k toks ids); auto.
  rewrite Map_find_record_token.
  destruct (truthy tok && same_value_zero k tok); reflexivity.
Qed.

Lemma record_all_snoc toks tok ids i m :
  length toks = length ids ->
  record_all (toks ++ [tok]) (ids ++ [i]) m
  = record_token tok i (record_all toks ids m).
Proof.
  revert ids m. induction toks as [|t toks IH]; intros [|j ids] m Hlen;
    simpl in *; try discriminate; auto.
Qed.

Lemma resolve_In k toks : forall ids i,
  resolve k toks ids = Some i -> In i ids.
Proof.
  induction toks as [|tok toks IH]; intros [|j ids] i; simpl;
    try discriminate.
  destruct (resolve k toks ids) eqn:E.
  - intros [= <-]. right. eauto.
  - destruct (truthy tok && same_value_zero k tok); [|discriminate].
    intros [= <-]. now left.
Qed.

Lemma same_value_zero_truthy a b :
  same_value_zero a b = true -> truthy a = truthy b.
Proof.
  destruct a, b; simpl; try discriminate; auto.
  - intros H. apply Bool.eqb_prop in H. now subst.
  - destruct x, x0; simpl; try discriminate; auto.
  - intros H. apply String.eqb_eq in H. now subst.
Qed.

Lemma resolve_truthy k toks : forall ids i,
  resolve k toks ids = Some i -> truthy k = true.
Proof.
  induction toks as [|tok toks IH]; intros [|j ids] i; simpl;
    try discriminate.
  destruct (resolve k toks ids) eqn:E; [eauto|].
  destruct (truthy tok) eqn:Ht; simpl; [|discriminate].
  destruct (same_value_zero k tok) eqn:Hs; [|discriminate].
  intros _. rewrite (same_value_zero_truthy _ _ Hs). exact Ht.
Qed.

(* ================================================================== *)
(** * Reasoning about the loops *)
(* ================================================================== *)

(** An invariant indexed by the entries visited so far. *)
Lemma after_all_ok_ind {A} (ok : A -> State -> bool)
    (after : A -> State -> State) (P : list A -> State -> Prop) l st0 :
  P [] st0 ->
  (forall pre a st, In a l -> ok a st = true -> P pre st ->
                    P (pre ++ [a]) (after a st)) ->
  all_ok ok after l st0 = true ->
  P l (after_all after l st0).
Proof.
  intros H0 Hstep.
  assert (G : forall suf pre st,
             (forall a, In a suf -> In a l) ->
             P pre st -> all_ok ok after suf st = true ->
             P (pre ++ suf) (after_all after suf st)).
  { induction suf as [|a suf IH]; intros pre st Hin HP Hok; simpl in *.
    - now rewrite app_nil_r.
    - apply andb_true_iff in Hok as [Ha Hsuf].
      replace (pre ++ a :: suf) with ((pre ++ [a]) ++ suf)
        by now rewrite <- app_assoc.
      apply IH; auto. }
  intros Hok. apply (G l [] st0); auto.
Qed.

Lemma after_all_ind {A} (after : A -> State -> State)
    (P : list A -> State -> Prop) l st0 :
  P [] st0 ->
  (forall pre a st, In a l -> P pre st -> P (pre ++ [a]) (after a st)) ->
  P l (after_all after l st0).
Proof.
  intros H0 Hstep.
  apply (after_all_ok_ind (fun _ _ => true) after P); auto.
  clear. revert st0. induction l; simpl; auto.
Qed.

(** ** What a step leaves alone *)

Lemma after_tags_frame b ts st :
  world (after_all (after_tag b) ts st) = world st
  /\ result (after_all (after_tag b) ts st) = result st
  /\ boardMap (after_all (after_tag b) ts st) = boardMap st
  /\ sprintMap (after_all (after_tag b) ts st) = sprintMap st
  /\ ticketMap (after_all (after_tag b) ts st) = ticketMap st.
Proof.
  apply (after_all_inv (fun s =>
           world s = world st /\ result s = result st
           /\ boardMap s = boardMap st /\ sprintMap s = sprintMap st
           /\ ticketMap s = ticketMap st)); [|repeat split].
  intros t s _ H. exact H.
Qed.

Lemma after_sprints_frame newId ss st :
  let st' := after_all (after_sprint newId) ss st in
  data st' = data st
  /\ boards (result st') = boards (result st)
  /\ tickets (result st') = tickets (result st)
  /\ stats (result st') = stats (result st)
  /\ boardMap st' = boardMap st
  /\ ticketMap st' = ticketMap st
  /\ same_world_but_uuid (world st) (world st')
  /\ uuid_next (world st') = length ss + uuid_next (world st).
Proof.
  revert st. induction ss as [|s ss IH]; intros st; simpl.
  - unfold same_world_but_uuid. repeat split.
  - specialize (IH (after_sprint newId s st)). simpl in IH.
    destruct IH as (H1 & H2 & H3 & H4 & H5 & H6 & (H7 & H8 & H9) & H10).
    unfold same_world_but_uuid.
    rewrite H1, H2, H3, H4, H5, H6, H7, H8, H9, H10. simpl.
    repeat split. lia.
Qed.

(** ** The tickets that stage 1 moves to [data.tickets] *)

Lemma entries_pushed a x :
  isArray a = true -> entries (pushed a x) = entries a ++ [x].
Proof. destruct a; try discriminate. reflexivity. Qed.

Lemma entries_falsy a : truthy a = false -> entries a = [].
Proof. unfold entries. now intros ->. Qed.

Lemma after_tag_entries b t st :
  tag_ok b t st = true ->
  let d' := data (after_tag b t st) in
  writable d' = true
  /\ isArray (field d' "tickets") = true
  /\ entries (field d' "tickets")
     = entries (field (data st) "tickets") ++ [tagged b t]
  /\ field d' "boards" = field (data st) "boards".
Proof.
  unfold tag_ok, after_tag. cbn [data]. intros H.
  apply andb_true_iff in H as [H Harr].
  apply andb_true_iff in H as [H Hw].
  destruct (truthy (field (data st) "tickets")) eqn:Ht;
    cbn [negb orb] in Harr.
  - rewrite writable_with_field, field_with_field_same by assumption.
    rewrite field_with_field_other by reflexivity.
    repeat split; auto.
    + destruct (field (data st) "tickets"); try discriminate; reflexivity.
    + now apply entries_pushed.
  - rewrite !writable_with_field.
    rewrite !field_with_field_same
      by (rewrite ?writable_with_field; assumption).
    rewrite !field_with_field_other by reflexivity.
    repeat split; auto.
    now rewrite (entries_falsy _ Ht).
Qed.

(** ** One board *)

Lemma after_board_result b st :
  let st' := after_board b st in
  boards (result st') = boards (result st) ++ [board_for (drawn (world st)) b]
  /\ boardMap st' = record_token (token b) (drawn (world st)) (boardMap st)
  /\ tickets (result st') = tickets (result st)
  /\ ticketMap st' = ticketMap st
  /\ same_world_but_uuid (world st) (world st')
  /\ uuid_next (world st')
     = length (board_sprints b) + S (uuid_next (world st)).
Proof.
  unfold after_board.
  destruct (after_tags_frame b (entries (field b "tickets"))
              (after_sprints b st)) as (Hw & Hr & Hb & _ & Ht).
  rewrite Hw, Hr, Hb, Ht. unfold after_sprints.
  destruct (after_sprints_frame (drawn (world st))
              (entries (field b "sprints")) (after_board_head b st))
    as (_ & H2 & H3 & _ & H5 & H6 & H7 & H8).
  rewrite H2, H3, H5, H6, H8. repeat split; apply H7.
Qed.

Lemma after_board_entries b st :
  board_ok b st = true ->
  let d' := data (after_board b st) in
  entries (field d' "tickets")
  = entries (field (data st) "tickets") ++ map (tagged b) (board_tickets b)
  /\ field d' "boards" = field (data st) "boards".
Proof.
  unfold board_ok, after_board. intros H.
  apply andb_true_iff in H as [_ H].
  assert (Hd : data (after_sprints b st) = data st).
  { unfold after_sprints.
    now destruct (after_sprints_frame (drawn (world st))
                    (entries (field b "sprints")) (after_board_head b st))
      as (-> & _). }
  rewrite <- Hd.
  apply (after_all_ok_ind (tag_ok b) (after_tag b)
           (fun pre s =>
              entries (field (data s) "tickets")
              = entries (field (data (after_sprints b st)) "tickets")
                ++ map (tagged b) pre
              /\ field (data s) "boards"
                 = field (data (after_sprints b st)) "boards")).
  - now rewrite app_nil_r.
  - intros pre t s _ Hok [He Hb].
    destruct (after_tag_entries b t s Hok) as (_ & _ & He' & Hb').
    rewrite He', Hb', He, Hb, map_app, app_assoc. now split.
  - exact H.
Qed.

(** ** The board stage *)

Lemma after_boards_entries st :
  all_ok board_ok after_board (doc_boards (data st)) st = true ->
  working_list st = top_tickets (data st) ++ nested_tickets (data st).
Proof.
  intros H. unfold working_list, after_boards, nested_tickets, top_tickets.
  fold (doc_boards (data st)).
  refine (proj1 (after_all_ok_ind board_ok after_board
           (fun pre s =>
              entries (field (data s) "tickets")
              = entries (field (data st) "tickets")
                ++ flat_map (fun b => map (tagged b) (board_tickets b)) pre
              /\ field (data s) "boards" = field (data st) "boards")
           (doc_boards (data st)) st _ _ H)).
  - now rewrite app_nil_r.
  - intros pre b s _ Hok [He Hb].
    destruct (after_board_entries b s Hok) as [He' Hb'].
    rewrite He', Hb', He, Hb, flat_map_app. simpl.
    now rewrite app_nil_r, app_assoc.
Qed.

Lemma after_boards_maps st :
  let st1 := after_boards st in
  length (boards (result st1))
  = length (doc_boards (data st)) + length (boards (result st))
  /\ (boards (result st) = [] -> boardMap st = [] ->
      boardMap st1 = record_all (map token (doc_boards (data st)))
                                (map Board.id (boards (result st1))) [])
  /\ tickets (result st1) = tickets (result st)
  /\ ticketMap st1 = ticketMap st
  /\ same_world_but_uuid (world st) (world st1).
Proof.
  unfold after_boards. fold (doc_boards (data st)).
  set (P := fun (pre : list value) (s : State) =>
    (exists bs, boards (result s) = boards (result st) ++ bs
                /\ length bs = length pre
                /\ boardMap s = record_all (map token pre) (map Board.id bs)
                                           (boardMap st))
    /\ tickets (result s) = tickets (result st)
    /\ ticketMap s = ticketMap st
    /\ same_world_but_uuid (world st) (world s)).
  assert (HP : P (doc_boards (data st))
                 (after_all after_board (doc_boards (data st)) st)).
  { apply after_all_ind; unfold P.
    - split; [exists []; now rewrite app_nil_r|].
      unfold same_world_but_uuid. repeat split.
    - intros pre b s _ ((bs & Hbs & Hlen & Hm) & Ht & Htm & Hw1 & Hw2 & Hw3).
      destruct (after_board_result b s)
        as (Hb & Hbm & Ht' & Htm' & (Hu1 & Hu2 & Hu3) & _).
      split; [|unfold same_world_but_uuid; repeat split; congruence].
      exists (bs ++ [board_for (drawn (world s)) b]).
      rewrite Hb, Hbs, Hbm, Hm, !map_app, !length_app, Hlen, app_assoc.
      repeat split. simpl.
      symmetry. apply record_all_snoc. now rewrite !length_map. }
  destruct HP as ((bs & Hbs & Hlen & Hm) & Ht & Htm & Hw).
  repeat split; try assumption; try apply Hw.
  - rewrite Hbs, length_app, Hlen. lia.
  - intros Hnil Hmnil. rewrite Hbs, Hnil, Hm, Hmnil. reflexivity.
Qed.

(** An invariant of the three kinds of steps of the board stage holds
    when the stage ends. *)
Lemma after_boards_inv (Q : State -> Prop) st0 :
  (forall b st, Q st -> Q (after_board_head b st)) ->
  (forall newId s st,
      In newId (map Board.id (boards (result st))) -> Q st ->
      Q (after_sprint newId s st)) ->
  (forall b t st, Q st -> Q (after_tag b t st)) ->
  Q st0 -> Q (after_boards st0).
Proof.
  intros Hhead Hsprint Htag. unfold after_boards.
  apply after_all_inv. intros b st _ HQ.
  unfold after_board.
  apply after_all_inv; [intros t s _; apply Htag|].
  unfold after_sprints.
  set (newId := drawn (world st)).
  refine (proj1 (after_all_inv
            (fun s => Q s /\ In newId (map Board.id (boards (result s))))
            (after_sprint newId) _ _ (after_board_head b st) _)).
  - intros s s0 _ [HQs Hin]. split; [now apply Hsprint|exact Hin].
  - split; [now apply Hhead|].
    simpl. rewrite map_app. apply in_or_app. right. now left.
Qed.

Lemma closed_maps_after_boards st :
  closed_maps st -> closed_maps (after_boards st).
Proof.
  apply after_boards_inv; unfold closed_maps.
  - intros b s (Hb & Hs & Hsb). simpl. repeat split.
    + intros k i. rewrite Map_find_record_token, map_app.
      destruct (truthy _ && same_value_zero _ _).
      * intros [= <-]. apply in_or_app. right. now left.
      * intros H. apply in_or_app. left. eauto.
    + exact Hs.
    + intros s0 Hin. rewrite map_app. apply in_or_app. left. auto.
  - intros newId s0 s Hnew (Hb & Hs & Hsb). simpl. repeat split.
    + exact Hb.
    + intros k i. rewrite Map_find_record_token, map_app.
      destruct (truthy _ && same_value_zero _ _).
      * intros [= <-]. apply in_or_app. right. now left.
      * intros H. apply in_or_app. left. eauto.
    + intros s1 Hin. apply in_app_or in Hin as [Hin|[<-|[]]]; auto.
  - intros b t s H. exact H.
Qed.

Lemma seq_snoc_draw (g : nat -> string) k0 n :
  k0 <= n ->
  map g (seq k0 (S n - k0)) = map g (seq k0 (n - k0)) ++ [g n].
Proof.
  intros H. replace (S n - k0) with (S (n - k0)) by lia.
  rewrite seq_S, map_app. simpl. do 3 f_equal. lia.
Qed.

Lemma ids_drawn_step w0 st st' :
  ids_drawn_since w0 st ->
  uuid_at (world st') = uuid_at (world st) ->
  uuid_next (world st') = S (uuid_next (world st)) ->
  Permutation (batch_ids (result st'))
              (drawn (world st) :: batch_ids (result st)) ->
  ids_drawn_since w0 st'.
Proof.
  intros (Hu & Hle & Hperm) Hu' Hnext Hp. unfold ids_drawn_since.
  rewrite Hnext, Hu', Hu. repeat split; auto.
  rewrite seq_snoc_draw by assumption.
  rewrite Hp. unfold drawn. rewrite Hu.
  rewrite <- Permutation_cons_append. now constructor.
Qed.

Lemma perm_push_first {A} (x : A) a b c :
  Permutation ((a ++ [x]) ++ b ++ c) (x :: a ++ b ++ c).
Proof.
  rewrite <- app_assoc. simpl. symmetry. apply Permutation_middle.
Qed.

Lemma perm_push_second {A} (x : A) a b c :
  Permutation (a ++ (b ++ [x]) ++ c) (x :: a ++ b ++ c).
Proof.
  rewrite <- app_assoc. simpl. rewrite app_assoc.
  rewrite <- Permutation_middle. now rewrite <- app_assoc.
Qed.

Lemma perm_push_third {A} (x : A) a b c :
  Permutation (a ++ b ++ c ++ [x]) (x :: a ++ b ++ c).
Proof.
  rewrite !app_assoc. rewrite <- Permutation_cons_append.
  now rewrite <- !app_assoc.
Qed.

Lemma ids_drawn_after_boards w0 st :
  ids_drawn_since w0 st -> ids_drawn_since w0 (after_boards st).
Proof.
  apply after_boards_inv.
  - intros b s H.
    apply (ids_drawn_step w0 s); auto.
    unfold batch_ids. simpl. rewrite map_app. apply perm_push_first.
  - intros newId s0 s _ H.
    apply (ids_drawn_step w0 s); auto.
    unfold batch_ids. simpl. rewrite map_app. apply perm_push_second.
  - intros b t s H. exact H.
Qed.

(** ** The first pass over the tickets *)

Lemma emitted_ticket_for fb s st1 t :
  boardMap s = boardMap st1 -> sprintMap s = sprintMap st1 ->
  boards (result s) = boards (result st1) ->
  emitted fb st1 t (ticket_for fb s t).
Proof.
  intros Hb Hs Hbs. unfold emitted, ticket_for, reissue. simpl.
  now rewrite Hb, Hs, Hbs.
Qed.

Lemma after_tickets_pass1 fb W st1 :
  let st2 := after_all (after_ticket fb) W st1 in
  boards (result st2) = boards (result st1)
  /\ sprints (result st2) = sprints (result st1)
  /\ boardMap st2 = boardMap st1
  /\ sprintMap st2 = sprintMap st1
  /\ uuid_at (world st2) = uuid_at (world st1)
  /\ exists tks,
       tickets (result st2) = tickets (result st1) ++ tks
       /\ Forall2 (emitted fb st1) W tks
       /\ ticketMap st2
          = record_all (map token W) (map Ticket.id tks) (ticketMap st1).
Proof.
  apply (after_all_ind (after_ticket fb)
    (fun pre s =>
       boards (result s) = boards (result st1)
       /\ sprints (result s) = sprints (result st1)
       /\ boardMap s = boardMap st1
       /\ sprintMap s = sprintMap st1
       /\ uuid_at (world s) = uuid_at (world st1)
       /\ exists tks,
            tickets (result s) = tickets (result st1) ++ tks
            /\ Forall2 (emitted fb st1) pre tks
            /\ ticketMap s
               = record_all (map token pre) (map Ticket.id tks)
                            (ticketMap st1))).
  - repeat split. exists []. rewrite app_nil_r. repeat split. constructor.
  - intros pre t s _ (Hb & Hs & Hbm & Hsm & Hu & tks & Ht & Hf & Htm).
    simpl. repeat split; auto.
    exists (tks ++ [ticket_for fb s t]).
    rewrite Ht, Htm, !map_app, app_assoc. repeat split.
    + apply Forall2_app; [exact Hf|].
      constructor; [|constructor]. now apply emitted_ticket_for.
    + simpl. symmetry. apply record_all_snoc.
      rewrite !length_map. eapply Forall2_length; eauto.
Qed.

Lemma ids_drawn_after_ticket fb w0 t st :
  ids_drawn_since w0 st -> ids_drawn_since w0 (after_ticket fb t st).
Proof.
  intros H. apply (ids_drawn_step w0 st); auto.
  unfold batch_ids. simpl. rewrite map_app. apply perm_push_third.
Qed.

(* ================================================================== *)
(** * The anatomy of a successful import *)
(* ================================================================== *)

Lemma parseJsonImport_Return JSON_parse s fb w r w' :
  parseJsonImport JSON_parse s fb w = Return (r, w') ->
  exists d,
    JSON_parse s = Some d
    /\ body_ok fb (initial w d) = true
    /\ r = body_result fb (initial w d)
    /\ w' = world (after_tickets fb (initial w d)).
Proof.
  unfold parseJsonImport. destruct (JSON_parse s) as [d|]; [|discriminate].
  rewrite importBody_exact.
  destruct (body_ok fb (initial w d)) eqn:Hok; [|discriminate].
  cbn [world]. intros [= Hr Hw]. exists d. subst. repeat split. exact Hok.
Qed.

Lemma body_ok_boards fb st :
  body_ok fb st = true ->
  all_ok board_ok after_board (doc_boards (data st)) st = true.
Proof.
  unfold body_ok. intros H.
  apply andb_true_iff in H as [H _].
  now apply andb_true_iff in H as [_ H].
Qed.

Lemma linkParent_id tm tk : Ticket.id (linkParent tm tk) = Ticket.id tk.
Proof. reflexivity. Qed.

Lemma map_linkParent_ids tm tks :
  map Ticket.id (map (linkParent tm) tks) = map Ticket.id tks.
Proof. rewrite map_map. now apply map_ext. Qed.

(** The batch of a successful call: the boards and sprints are those of the
    board stage; the tickets are, in the order of the working list, what
    pass 1 emits, with the parents linked through the map of all tokens. *)
Lemma body_anatomy fb w d :
  body_ok fb (initial w d) = true ->
  let st1 := after_boards (initial w d) in
  let W := top_tickets d ++ nested_tickets d in
  let r := body_result fb (initial w d) in
  boards r = boards (result st1)
  /\ sprints r = sprints (result st1)
  /\ stats r = mkStats (length (boards r)) (length (sprints r))
                       (length (tickets r))
  /\ exists tks,
       Forall2 (emitted fb st1) W tks
       /\ tickets r
          = map (linkParent (record_all (map token W) (map Ticket.id tks) []))
                tks.
Proof.
  intros Hok. cbn zeta.
  pose proof (after_boards_entries (initial w d) (body_ok_boards _ _ Hok))
    as HW. cbn [data initial] in HW.
  destruct (after_boards_maps (initial w d)) as (_ & _ & Ht & Htm & _).
  cbn [initial result tickets ticketMap empty_result] in Ht, Htm.
  unfold body_result, after_tickets.
  destruct (truthy (field (data (after_boards (initial w d))) "tickets")
            && isArray (field (data (after_boards (initial w d))) "tickets"))
    eqn:Harr.
  - destruct (after_tickets_pass1 fb (working_list (initial w d))
                (after_boards (initial w d)))
      as (Hb & Hs & _ & _ & _ & tks & Htk & Hf & Hm).
    rewrite Ht in Htk. rewrite Htm in Hm. simpl in Htk.
    unfold with_stats, after_link. cbn [boards sprints tickets stats result].
    rewrite Hb, Hs, Htk, Hm, <- HW. repeat split. eauto.
  - unfold with_stats. cbn [boards sprints tickets stats result].
    rewrite Ht. repeat split.
    exists []. rewrite <- HW. unfold working_list, entries. rewrite Harr.
    split; [constructor | reflexivity].
Qed.

Lemma Forall2_In_r {A B} (R : A -> B -> Prop) l1 l2 y :
  Forall2 R l1 l2 -> In y l2 -> exists x, In x l1 /\ R x y.
Proof.
  induction 1 as [|a b l1 l2 Hab _ IH]; simpl; [tauto|].
  intros [<-|Hin].
  - exists a. auto.
  - destruct (IH Hin) as (x & Hx & HR). exists x. auto.
Qed.

Lemma closed_maps_initial w d : closed_maps (initial w d).
Proof. unfold closed_maps. simpl. repeat split; try discriminate; tauto. Qed.

Lemma Map_has_get k m :
  Map_has k m = true -> exists i, Map_find k m = Some i /\ Map_get k m = VStr i.
Proof.
  unfold Map_has, Map_get. destruct (Map_find k m) as [i|]; [|discriminate].
  intros _. exists i. auto.
Qed.

Lemma resolveSprintId_closed sm v :
  resolveSprintId sm v = VNull
  \/ exists i, Map_find v sm = Some i /\ resolveSprintId sm v = VStr i.
Proof.
  unfold resolveSprintId.
  destruct (truthy v); simpl; auto.
  destruct (Map_has v sm) eqn:H; auto.
  right. destruct (Map_has_get _ _ H) as (i & Hf & Hg). exists i. auto.
Qed.

Lemma linkParent_closed W tks tk :
  let tm := record_all (map token W) (map Ticket.id tks) [] in
  Ticket.parent_id (linkParent tm tk) = VNull
  \/ exists i,
       resolve (Ticket.parent_id tk) (map token W) (map Ticket.id tks)
       = Some i
       /\ Ticket.parent_id (linkParent tm tk) = VStr i.
Proof.
  cbn zeta. unfold linkParent. cbn [Ticket.parent_id].
  destruct (truthy (Ticket.parent_id tk)); simpl; auto.
  destruct (Map_has _ _) eqn:H; auto.
  right. destruct (Map_has_get _ _ H) as (i & Hf & Hg). exists i.
  split; [|exact Hg].
  rewrite Map_find_record_all in Hf.
  destruct (resolve _ _ _); [exact Hf | discriminate].
Qed.

Lemma emitted_fields fb st t tk :
  emitted fb st t tk ->
  Ticket.board_id tk
  = resolveBoardId (boardMap st) (boards (result st)) (optional fb)
                   (field t "_temp_board_id") (field t "board_id")
  /\ Ticket.sprint_id tk = resolveSprintId (sprintMap st) (field t "sprint_id")
  /\ Ticket.story_points tk = parsePoints (field t "story_points")
  /\ Ticket.parent_id tk = or_else (field t "parent_id") VNull
  /\ Ticket.title tk = or_else (field t "title") (VStr "Untitled Ticket").
Proof. intros ->. repeat split. Qed.

(** C2. Referential closure: in the batch of a successful import, the
    [parent_id] of every ticket is null or the id of a ticket of the batch,
    and its [sprint_id] is null or the id of a sprint of the batch; a raw
    input token is never what is emitted. *)
Theorem referential_closure JSON_parse jsonString currentBoardId w r w' :
  parseJsonImport JSON_parse jsonString currentBoardId w = Return (r, w') ->
  forall t, In t (tickets r) ->
    (Ticket.parent_id t = VNull
     \/ exists p, In p (tickets r) /\ Ticket.parent_id t = VStr (Ticket.id p))
    /\ (Ticket.sprint_id t = VNull
        \/ exists s, In s (sprints r)
                     /\ Ticket.sprint_id t = VStr (Sprint.id s)).
Proof.
  intros Hrun t Hin.
  apply parseJsonImport_Return in Hrun as (d & _ & Hok & -> & _).
  destruct (body_anatomy _ _ _ Hok) as (_ & Hs & _ & tks & Hf & Ht).
  rewrite Ht in Hin |- *. rewrite Hs.
  apply in_map_iff in Hin as (tk & <- & Hin).
  split.
  - destruct (linkParent_closed (top_tickets d ++ nested_tickets d) tks tk)
      as [Hnull | (i & Hres & Hp)]; [now left | right].
    apply resolve_In, in_map_iff in Hres as (p & Hid & Hp').
    exists (linkParent
              (record_all (map token (top_tickets d ++ nested_tickets d))
                          (map Ticket.id tks) []) p).
    split; [now apply in_map|].
    rewrite Hp, linkParent_id. now rewrite Hid.
  - destruct (Forall2_In_r _ _ _ _ Hf Hin) as (e & _ & He).
    destruct (emitted_fields _ _ _ _ He) as (_ & Hsp & _).
    cbn [linkParent Ticket.sprint_id]. rewrite Hsp.
    destruct (resolveSprintId_closed
                (sprintMap (after_boards (initial w d)))
                (field e "sprint_id")) as [Hnull | (i & Hfind & Hv)];
      [now left | right].
    destruct (closed_maps_after_boards _ (closed_maps_initial w d))
      as (_ & Hclosed & _).
    apply Hclosed, in_map_iff in Hfind as (s & Hid & Hs').
    exists s. split; [exact Hs'|]. now rewrite Hv, Hid.
Qed.

Lemma referential_closure_witness :
  exists r w',
    parseJsonImport JSON_parse_examples text_scenario None example_world
    = Return (r, w')
    /\ forall t, In t (tickets r) ->
         (Ticket.parent_id t = VNull
          \/ exists p, In p (tickets r)
                       /\ Ticket.parent_id t = VStr (Ticket.id p))
         /\ (Ticket.sprint_id t = VNull
             \/ exists s, In s (sprints r)
                          /\ Ticket.sprint_id t = VStr (Sprint.id s)).
Proof.
  eexists. eexists. split.
  - vm_compute. reflexivity.
  - eapply (referential_closure JSON_parse_examples text_scenario None
              example_world).
    vm_compute. reflexivity.
Defined.

(* ================================================================== *)
(** * Numbers read by [parseInt] *)
(* ================================================================== *)

Lemma shr_1_nonneg mrs : (0 <= shr_m mrs)%Z -> (0 <= shr_m (shr_1 mrs))%Z.
Proof.
  destruct mrs as [m r s]. simpl.
  destruct m as [|p|p]; simpl; [lia| |lia].
  destruct p; simpl; lia.
Qed.

Lemma iter_pos_shr_1_nonneg p : forall mrs,
  (0 <= shr_m mrs)%Z -> (0 <= shr_m (iter_pos shr_1 p mrs))%Z.
Proof.
  induction p as [p IH|p IH|]; intros mrs H; simpl.
  - apply IH, IH, shr_1_nonneg, H.
  - apply IH, IH, H.
  - apply shr_1_nonneg, H.
Qed.

Lemma shr_fexp_nonneg prec emax m e l :
  (0 <= m)%Z -> (0 <= shr_m (fst (shr_fexp prec emax m e l)))%Z.
Proof.
  intros H. unfold shr_fexp, shr.
  assert (H0 : (0 <= shr_m (shr_record_of_loc m l))%Z)
    by (destruct l as [|[]]; exact H).
  destruct (_ - e)%Z; simpl; auto.
  now apply iter_pos_shr_1_nonneg.
Qed.

Lemma round_nearest_even_nonneg m l :
  (0 <= m)%Z -> (0 <= round_nearest_even m l)%Z.
Proof.
  intros H. unfold round_nearest_even.
  destruct l as [|[]]; try destruct (Z.even m); lia.
Qed.

Lemma binary_round_aux_not_nan prec emax sx mx ex lx :
  (0 <= mx)%Z -> isNaN (binary_round_aux prec emax sx mx ex lx) = false.
Proof.
  intros H. unfold binary_round_aux.
  pose proof (shr_fexp_nonneg prec emax mx ex lx H) as H1.
  destruct (shr_fexp prec emax mx ex lx) as [mrs' e']. simpl in H1.
  pose proof (shr_fexp_nonneg prec emax _ e' loc_Exact
                (round_nearest_even_nonneg _ (loc_of_shr_record mrs') H1))
    as H2.
  destruct (shr_fexp prec emax _ e' loc_Exact) as [mrs'' e'']. simpl in H2.
  destruct (shr_m mrs''); [reflexivity| |lia].
  destruct (_ <=? _)%Z; reflexivity.
Qed.

Lemma binary_round_aux_sign prec emax sx mx ex lx :
  match sign_bit (binary_round_aux prec emax sx mx ex lx) with
  | Some s => s = sx
  | None => True
  end.
Proof.
  unfold binary_round_aux.
  destruct (shr_fexp prec emax mx ex lx) as [mrs' e'].
  destruct (shr_fexp prec emax _ e' loc_Exact) as [mrs'' e''].
  destruct (shr_m mrs''); simpl; auto.
  destruct (_ <=? _)%Z; reflexivity.
Qed.

Lemma number_of_Z_not_nan neg z :
  (0 <= z)%Z -> isNaN (number_of_Z neg z) = false.
Proof.
  intros Hz. unfold number_of_Z, binary_normalize.
  destruct neg, z as [|p|p]; simpl; try reflexivity; try lia;
    unfold binary_round;
    destruct (shl_align _ _ _) as [mz ez];
    apply binary_round_aux_not_nan; lia.
Qed.

Lemma number_of_Z_sign neg z :
  (0 <= z)%Z -> sign_bit (number_of_Z neg z) = Some neg.
Proof.
  intros Hz.
  pose proof (number_of_Z_not_nan neg z Hz) as Hnan.
  unfold number_of_Z, binary_normalize in *.
  destruct neg, z as [|p|p]; simpl in *; try reflexivity; try lia;
    unfold binary_round in *;
    destruct (shl_align _ _ _) as [mz ez];
    match goal with
    | |- sign_bit (binary_round_aux ?a ?b ?c ?d ?e ?f) = _ =>
        pose proof (binary_round_aux_sign a b c d e f) as Hs;
        destruct (binary_round_aux a b c d e f); simpl in *;
        try discriminate; now subst
    end.
Qed.

(** ** The value of the number read *)

Lemma digits2_pos_size p : digits2_pos p = Pos.size p.
Proof. induction p; simpl; congruence. Qed.

Lemma digits2_pos_small p :
  (Z.pos p < 2 ^ 53)%Z -> (Z.pos (digits2_pos p) <= 53)%Z.
Proof.
  intros H. rewrite digits2_pos_size.
  destruct (Z.le_gt_cases (Z.pos (Pos.size p)) 53) as [L|G]; [exact L|].
  exfalso. pose proof (Pos.size_le p) as S.
  apply Pos2Z.pos_le_pos in S. rewrite Pos2Z.inj_pow in S.
  assert (2 ^ 54 <= 2 ^ Z.pos (Pos.size p))%Z
    by (apply Z.pow_le_mono_r; lia).
  change (2 ^ 54)%Z with (2 * 2 ^ 53)%Z in H0. 
  lia.
Qed.

Lemma digits2_pos_large p :
  (2 ^ 53 <= Z.pos p)%Z -> (54 <= Z.pos (digits2_pos p))%Z.
Proof.
  intros H. rewrite digits2_pos_size.
  destruct (Z.le_gt_cases 54 (Z.pos (Pos.size p))) as [L|G]; [exact L|].
  exfalso. pose proof (Pos.size_gt p) as S.
  apply Pos2Z.pos_lt_pos in S. rewrite Pos2Z.inj_pow in S.
  assert (2 ^ Z.pos (Pos.size p) <= 2 ^ 53)%Z
    by (apply Z.pow_le_mono_r; lia).
  lia.
Qed.

Lemma iter_xO_value p k : Z.pos (Pos.iter xO p k) = (Z.pos p * 2 ^ Z.pos k)%Z.
Proof.
  induction k using Pos.peano_ind.
  - simpl. lia.
  - rewrite Pos.iter_succ, Pos2Z.inj_xO, IHk, Pos2Z.inj_succ, Z.pow_succ_r; lia.
Qed.

Lemma iter_xO_digits p k :
  digits2_pos (Pos.iter xO p k) = (digits2_pos p + k)%positive.
Proof.
  induction k using Pos.peano_ind.
  - simpl. lia.
  - rewrite Pos.iter_succ. simpl. rewrite IHk. lia.
Qed.

(** A mantissa of 53 binary digits with an exponent in range is kept as it
    is. *)
Lemma binary_round_aux_canonical sx m e :
  Z.pos (digits2_pos m) = 53%Z -> (-1074 <= e <= 971)%Z ->
  binary_round_aux 53 1024 sx (Z.pos m) e loc_Exact = S754_finite sx m e.
Proof.
  intros Hd He. unfold binary_round_aux, shr_fexp, fexp, emin.
  cbn [shr_record_of_loc Zdigits2]. rewrite Hd.
  replace (Z.max (53 + e - 53) (3 - 1024 - 53) - e)%Z with 0%Z by lia.
  cbn [shr shr_m loc_of_shr_record shr_r shr_s round_nearest_even Zdigits2].
  rewrite Hd.
  replace (Z.max (53 + e - 53) (3 - 1024 - 53) - e)%Z with 0%Z by lia.
  cbn [shr shr_m].
  replace (e <=? 1024 - 53)%Z with true by (symmetry; apply Z.leb_le; lia).
  reflexivity.
Qed.

Lemma binary_round_small sx p :
  (Z.pos p < 2 ^ 53)%Z ->
  exists m e, binary_round 53 1024 sx p 0 = S754_finite sx m e
              /\ (-52 <= e <= 0)%Z
              /\ Z.pos m = (Z.pos p * 2 ^ (- e))%Z.
Proof.
  intros H. pose proof (digits2_pos_small p H) as Hd.
  unfold binary_round, fexp, emin, shl_align.
  replace (Z.max (Z.pos (digits2_pos p) + 0 - 53) (3 - 1024 - 53) - 0)%Z
    with (Z.pos (digits2_pos p) - 53)%Z by lia.
  destruct (Z.pos (digits2_pos p) - 53)%Z as [|k|k] eqn:E; [|lia|].
  - exists p, 0%Z. rewrite binary_round_aux_canonical; [|lia|lia].
    split; [reflexivity|]. split; [lia|]. simpl. lia.
  - exists (Pos.iter xO p k), (Z.max (Z.pos (digits2_pos p) + 0 - 53) (3 - 1024 - 53)).
    replace (Z.max (Z.pos (digits2_pos p) + 0 - 53) (3 - 1024 - 53))
      with (Z.neg k) by lia.
    rewrite binary_round_aux_canonical.
    + split; [reflexivity|]. split; [lia|].
      rewrite iter_xO_value. reflexivity.
    + rewrite iter_xO_digits. lia.
    + lia.
Qed.

Lemma shr_exponent mrs e n : (e <= snd (shr mrs e n))%Z /\ (e + n <= snd (shr mrs e n))%Z.
Proof. destruct n; simpl; lia. Qed.



Lemma shr_1_half mrs :
  (0 <= shr_m mrs)%Z -> shr_m (shr_1 mrs) = (shr_m mrs / 2)%Z.
Proof.
  destruct mrs as [m r s]. cbn [shr_m shr_1]. intros H.
  destruct m as [|[p|p|]|p]; cbn [shr_m]; try reflexivity; try lia.
  - rewrite Pos2Z.inj_xI. apply Z.div_unique with (r := 1%Z); lia.
  - rewrite Pos2Z.inj_xO. apply Z.div_unique with (r := 0%Z); lia.
Qed.

Lemma iter_shr_1 n : forall mrs,
  (0 <= shr_m mrs)%Z ->
  shr_m (iter_pos shr_1 n mrs) = (shr_m mrs / 2 ^ Z.pos n)%Z.
Proof.
  assert (P : forall m k, (0 <= m -> 0 < k -> 0 <= m / k)%Z)
    by (intros; apply Z.div_pos; lia).
  assert (Q : forall k, (0 < 2 ^ Z.pos k)%Z)
    by (intros; apply Z.pow_pos_nonneg; lia).
  induction n as [n IH|n IH|]; intros mrs H; cbn [iter_pos].
  - rewrite IH, IH, shr_1_half; try assumption.
    + rewrite !Z.div_div by (try apply Q; lia).
      f_equal. rewrite Pos2Z.inj_xI, <- !Z.pow_add_r, <- Z.pow_succ_r by lia.
      f_equal. lia.
    + rewrite shr_1_half by assumption. apply P; lia.
    + rewrite IH, shr_1_half; try assumption.
      * apply P; [apply P; lia | apply Q].
      * rewrite shr_1_half by assumption. apply P; lia.
  - rewrite IH, IH; try assumption.
    + rewrite Z.div_div by (try apply Q; lia).
      f_equal. rewrite Pos2Z.inj_xO, <- Z.pow_add_r by lia. f_equal. lia.
    + rewrite IH by assumption. apply P; [lia | apply Q].
  - rewrite shr_1_half by assumption. reflexivity.
Qed.

Lemma digits2_pos_lower p : (2 ^ (Z.pos (digits2_pos p) - 1) <= Z.pos p)%Z.
Proof.
  rewrite digits2_pos_size. pose proof (Pos.size_le p) as S.
  apply Pos2Z.pos_le_pos in S. rewrite Pos2Z.inj_pow in S.
  replace (Z.pos (Pos.size p)) with (Z.succ (Z.pos (Pos.size p) - 1)) in S
    by lia.
  rewrite Z.pow_succ_r in S by lia. lia.
Qed.

(** Shifting a mantissa to its 53 leading digits leaves some of it. *)
Lemma shr_fexp_positive m e l :
  (0 < m)%Z -> (-1074 <= e)%Z ->
  (0 < shr_m (fst (shr_fexp 53 1024 m e l)))%Z
  /\ (e <= snd (shr_fexp 53 1024 m e l))%Z
  /\ (fexp 53 1024 (Zdigits2 m + e) <= snd (shr_fexp 53 1024 m e l))%Z.
Proof.
  intros Hm He. unfold shr_fexp, fexp, emin.
  assert (M : shr_m (shr_record_of_loc m l) = m) by (now destruct l as [|[]]).
  destruct m as [|p|p]; [lia| |lia]. cbn [Zdigits2].
  destruct (Z.max (Z.pos (digits2_pos p) + e - 53) (3 - 1024 - 53) - e)%Z
    as [|k|k] eqn:E; cbn [shr fst snd]; rewrite ?M; try lia.
  rewrite iter_shr_1 by (rewrite M; lia). rewrite M.
  split; [|lia].
  pose proof (digits2_pos_lower p) as L.
  assert (K : (Z.pos k <= Z.pos (digits2_pos p) - 1)%Z) by lia.
  apply Z.div_str_pos. split; [apply Z.pow_pos_nonneg; lia|].
  eapply Z.le_trans; [|exact L]. apply Z.pow_le_mono_r; lia.
Qed.

Lemma round_nearest_even_ge m l : (m <= round_nearest_even m l)%Z.
Proof. destruct l as [|[]]; simpl; try destruct (Z.even m); lia. Qed.

(** What rounding gives: the sign is kept, and the exponent is not below
    the one that leaves 53 digits. *)
Lemma binary_round_aux_exponent sx mx ex lx :
  (0 < mx)%Z -> (-1074 <= ex)%Z ->
  let r := binary_round_aux 53 1024 sx mx ex lx in
  r = S754_infinity sx
  \/ exists m e, r = S754_finite sx m e
                 /\ (fexp 53 1024 (Zdigits2 mx + ex) <= e <= 971)%Z.
Proof.
  intros H Hex. cbn zeta. unfold binary_round_aux.
  destruct (shr_fexp_positive mx ex lx H Hex) as (H1 & X1 & E1).
  destruct (shr_fexp 53 1024 mx ex lx) as [mrs' e']. cbn [fst snd] in *.
  set (m1 := round_nearest_even (shr_m mrs') (loc_of_shr_record mrs')).
  assert (Hm1 : (0 < m1)%Z).
  { pose proof (round_nearest_even_ge (shr_m mrs') (loc_of_shr_record mrs')).
    unfold m1. lia. }
  destruct (shr_fexp_positive m1 e' loc_Exact Hm1 ltac:(lia))
    as (H2 & X2 & _).
  destruct (shr_fexp 53 1024 m1 e' loc_Exact) as [mrs'' e''].
  cbn [fst snd] in *.
  destruct (shr_m mrs'') as [|m|m]; [lia| |lia].
  destruct (Z.leb_spec e'' (1024 - 53)) as [L|L]; [|now left].
  right. exists m, e''. split; [reflexivity | lia].
Qed.

(** Below 2^53 the binary64 value of a whole number is that number. *)
Lemma number_of_Z_exact neg z :
  (0 <= z < 2 ^ 53)%Z -> integer_of (number_of_Z neg z) = Some (signed neg z).
Proof.
  intros [Hz Hlt]. unfold number_of_Z, binary_normalize.
  destruct z as [|p|p]; [now destruct neg| |lia].
  assert (G : forall sx, integer_of (binary_round 53 1024 sx p 0)
                         = Some (signed sx (Z.pos p))).
  { intros sx. destruct (binary_round_small sx p Hlt) as (m & e & -> & He & Hm).
    unfold integer_of. rewrite Hm.
    destruct (Z.leb_spec 0 e) as [L|L].
    - replace e with 0%Z by lia. simpl. f_equal. f_equal. lia.
    - assert (0 < 2 ^ (- e))%Z by (apply Z.pow_pos_nonneg; lia).
      rewrite Z.mod_mul by lia. rewrite Z.div_mul by lia. reflexivity. }
  destruct neg; cbn [Z.opp]; apply G.
Qed.

(** The binary64 value of a whole number is whole, or infinite. *)
Lemma number_of_Z_whole neg z :
  (0 <= z)%Z ->
  number_of_Z neg z = S754_infinity neg
  \/ exists k, integer_of (number_of_Z neg z) = Some k.
Proof.
  intros Hz. destruct (Z.lt_ge_cases z (2 ^ 53)) as [Hlt|Hge].
  - right. eexists. apply number_of_Z_exact. lia.
  - unfold number_of_Z, binary_normalize.
    destruct z as [|p|p]; [lia| |lia].
    assert (G : forall sx,
               binary_round 53 1024 sx p 0 = S754_infinity sx
               \/ exists k, integer_of (binary_round 53 1024 sx p 0) = Some k).
    { intros sx. pose proof (digits2_pos_large p Hge) as Hd.
      unfold binary_round, fexp, emin, shl_align.
      replace (Z.max (Z.pos (digits2_pos p) + 0 - 53) (3 - 1024 - 53) - 0)%Z
        with (Z.pos (digits2_pos p) - 53)%Z by lia.
      destruct (Z.pos (digits2_pos p) - 53)%Z as [|k|k] eqn:E; [lia| |lia].
      destruct (binary_round_aux_exponent sx (Z.pos p) 0 loc_Exact)
        as [-> | (m & e & -> & He)]; [lia|lia| |].
      - now left.
      - right. unfold fexp, emin in He. cbn [Zdigits2] in He.
        unfold integer_of.
        replace (0 <=? e)%Z with true by (symmetry; apply Z.leb_le; lia).
        eauto. }
    destruct neg; cbn [Z.opp]; apply G.
Qed.

(** From 2^1024 on the binary64 value of a whole number is infinite. *)
Lemma number_of_Z_overflow neg z :
  (2 ^ 1024 <= z)%Z -> number_of_Z neg z = S754_infinity neg.
Proof.
  intros Hge. unfold number_of_Z, binary_normalize.
  destruct z as [|p|p]; [lia| |lia].
  assert (G : forall sx, binary_round 53 1024 sx p 0 = S754_infinity sx).
  { intros sx.
    assert (Hd : (1025 <= Z.pos (digits2_pos p))%Z).
    { rewrite digits2_pos_size.
      destruct (Z.le_gt_cases 1025 (Z.pos (Pos.size p))) as [L|G]; [exact L|].
      exfalso. pose proof (Pos.size_gt p) as S.
      apply Pos2Z.pos_lt_pos in S. rewrite Pos2Z.inj_pow in S.
      assert (2 ^ Z.pos (Pos.size p) <= 2 ^ 1024)%Z
        by (apply Z.pow_le_mono_r; lia).
      lia. }
    unfold binary_round, fexp, emin, shl_align.
    replace (Z.max (Z.pos (digits2_pos p) + 0 - 53) (3 - 1024 - 53) - 0)%Z
      with (Z.pos (digits2_pos p) - 53)%Z by lia.
    destruct (Z.pos (digits2_pos p) - 53)%Z as [|k|k] eqn:E; [lia| |lia].
    destruct (binary_round_aux_exponent sx (Z.pos p) 0 loc_Exact)
      as [-> | (m & e & _ & He)]; [lia|lia|reflexivity|].
    unfold fexp, emin in He. cbn [Zdigits2] in He. lia. }
  destruct neg; cbn [Z.opp]; apply G.
Qed.

Lemma read_digits_nonneg s : forall acc z,
  (forall a, acc = Some a -> (0 <= a)%Z) ->
  read_digits s acc = Some z -> (0 <= z)%Z.
Proof.
  induction s as [|c s IH]; intros acc z Hacc; cbn [read_digits].
  - intros ->. now apply Hacc.
  - destruct (is_digit c).
    + apply IH. intros a Ha.
      assert (G : forall x, (0 <= x)%Z -> (0 <= 10 * x + digit_value c)%Z)
        by (intros; unfold digit_value; lia).
      injection Ha as <-. apply G.
      destruct acc; [now apply Hacc | lia].
    + intros ->. now apply Hacc.
Qed.

(** [parseInt] gives NaN, or the binary64 value of a whole number with the
    sign that was written. *)
Lemma parseInt_integer s :
  parseInt s = S754_nan
  \/ exists neg z, (0 <= z)%Z /\ parseInt s = number_of_Z neg z.
Proof.
  unfold parseInt.
  destruct (match skip_white s with
            | String "-"%char r => (true, r)
            | String "+"%char r => (false, r)
            | _ => (false, skip_white s)
            end) as [neg s2].
  destruct (read_digits s2 None) as [z|] eqn:E; [right | now left].
  exists neg, z. split; [|reflexivity].
  apply (read_digits_nonneg s2 None z); [discriminate | exact E].
Qed.

Lemma parsePoints_other v : isString v = false -> parsePoints v = v.
Proof. destruct v; simpl; congruence. Qed.

(* ================================================================== *)
(** * Properties of the emitted tickets, entry by entry *)
(* ================================================================== *)

Lemma Forall2_map_right {A B C} (R : A -> C -> Prop) (f : B -> C) l l' :
  Forall2 (fun a b => R a (f b)) l l' -> Forall2 R l (map f l').
Proof. induction 1; simpl; constructor; auto. Qed.

(** What holds of every ticket that pass 1 emits, and that linking the
    parent does not disturb, holds of the tickets of the batch, in the order
    of the working list. *)
Lemma tickets_by_entry fb w d (P : value -> Ticket.t -> Prop) :
  body_ok fb (initial w d) = true ->
  (forall t tk tm,
      emitted fb (after_boards (initial w d)) t tk -> P t (linkParent tm tk)) ->
  Forall2 P (top_tickets d ++ nested_tickets d)
          (tickets (body_result fb (initial w d))).
Proof.
  intros Hok HP.
  destruct (body_anatomy _ _ _ Hok) as (_ & _ & _ & tks & Hf & ->).
  apply Forall2_map_right.
  eapply Forall2_impl; [|exact Hf]. intros t tk. apply HP.
Qed.

Lemma emitted_made_from fb st t tk tm :
  emitted fb st t tk -> made_from t (linkParent tm tk).
Proof. intros ->. unfold made_from. repeat split. Qed.

(** C8, as the code has it. The tickets of the batch follow the working
    list, which is the top-level [tickets] entries followed by the tickets
    nested under the boards (board after board, each marked with its
    board's token): the nested ones are pushed behind the top-level ones. *)
Theorem working_list_order JSON_parse jsonString currentBoardId w d r w' :
  JSON_parse jsonString = Some d ->
  parseJsonImport JSON_parse jsonString currentBoardId w = Return (r, w') ->
  Forall2 made_from (top_tickets d ++ nested_tickets d) (tickets r).
Proof.
  intros Hd Hrun.
  apply parseJsonImport_Return in Hrun as (d' & Hd' & Hok & -> & _).
  rewrite Hd in Hd'. injection Hd' as <-.
  apply tickets_by_entry; [exact Hok|].
  intros t tk tm. apply emitted_made_from.
Qed.

Lemma working_list_order_witness :
  exists r w',
    parseJsonImport JSON_parse_examples text_order None example_world
    = Return (r, w')
    /\ Forall2 made_from (top_tickets doc_order ++ nested_tickets doc_order)
               (tickets r).
Proof.
  eexists. eexists. split.
  - vm_compute. reflexivity.
  - eapply (working_list_order JSON_parse_examples text_order None
              example_world doc_order).
    + reflexivity.
    + vm_compute. reflexivity.
Defined.

(** C8 as the claim words it (nested tickets first, top-level tickets
    after them) fails on a document that has one of each. *)
Lemma working_list_order_counterexample :
  exists r w',
    parseJsonImport JSON_parse_examples text_order None example_world
    = Return (r, w')
    /\ ~ Forall2 made_from
           (nested_tickets doc_order ++ top_tickets doc_order) (tickets r).
Proof.
  eexists. eexists. split.
  - vm_compute. reflexivity.
  - intros H.
    let l := eval vm_compute in
               (nested_tickets doc_order ++ top_tickets doc_order) in
    change (nested_tickets doc_order ++ top_tickets doc_order) with l in H.
    inversion H as [|t tk ts tks Hm _]; subst.
    destruct Hm as [Htitle _]. vm_compute in Htitle. discriminate Htitle.
Qed.

(** C9, as the code has it. A [story_points] given as a string is read by
    [parseInt]: when the string does not start with a whole number the field
    is left unset, otherwise it is the binary64 number of the whole number
    read, with the sign that was written. That number is the whole number
    itself when its magnitude is below 2^53, it is infinite when the
    magnitude is 2^1024 or more, and it is in every case whole or infinite.
    A [story_points] that is not a string is emitted as it is. *)
Theorem story_points_parsed JSON_parse jsonString currentBoardId w d r w' :
  JSON_parse jsonString = Some d ->
  parseJsonImport JSON_parse jsonString currentBoardId w = Return (r, w') ->
  Forall2
    (fun t tk =>
       (forall s, field t "story_points" = VStr s ->
          (parseInt s = S754_nan /\ Ticket.story_points tk = VUndefined)
          \/ exists neg z,
               (0 <= z)%Z /\ parseInt s = number_of_Z neg z
               /\ Ticket.story_points tk = VNum (number_of_Z neg z)
               /\ (z < 2 ^ 53 ->
                   integer_of (number_of_Z neg z) = Some (signed neg z))%Z
               /\ (2 ^ 1024 <= z ->
                   number_of_Z neg z = S754_infinity neg)%Z
               /\ (number_of_Z neg z = S754_infinity neg
                   \/ exists k, integer_of (number_of_Z neg z) = Some k))
       /\ (isString (field t "story_points") = false ->
           Ticket.story_points tk = field t "story_points"))
    (top_tickets d ++ nested_tickets d) (tickets r).
Proof.
  intros Hd Hrun.
  apply parseJsonImport_Return in Hrun as (d' & Hd' & Hok & -> & _).
  rewrite Hd in Hd'. injection Hd' as <-.
  apply tickets_by_entry; [exact Hok|].
  intros t tk tm He.
  destruct (emitted_fields _ _ _ _ He) as (_ & _ & Hsp & _).
  cbn [linkParent Ticket.story_points]. rewrite Hsp. split.
  - intros s ->. unfold parsePoints.
    destruct (parseInt_integer s) as [E | (neg & z & Hz & E)]; rewrite E.
    + now left.
    + right. exists neg, z. rewrite number_of_Z_not_nan by exact Hz.
      split; [exact Hz|]. split; [reflexivity|]. split; [reflexivity|].
      split; [|split].
      * intros Hlt. apply number_of_Z_exact. lia.
      * apply number_of_Z_overflow.
      * now apply number_of_Z_whole.
  - apply parsePoints_other.
Qed.

Lemma story_points_parsed_witness :
  exists r w',
    parseJsonImport JSON_parse_examples text_estimates None example_world
    = Return (r, w')
    /\ map Ticket.story_points (tickets r)
       = [VNum (number_of_Z false 12); VNum (number_of_Z true 4);
          VUndefined; VNum (S754_infinity false)]
    /\ Forall2
         (fun t tk =>
            (forall s, field t "story_points" = VStr s ->
               (parseInt s = S754_nan /\ Ticket.story_points tk = VUndefined)
               \/ exists neg z,
                    (0 <= z)%Z /\ parseInt s = number_of_Z neg z
                    /\ Ticket.story_points tk = VNum (number_of_Z neg z)
                    /\ (z < 2 ^ 53 ->
                        integer_of (number_of_Z neg z)
                        = Some (signed neg z))%Z
                    /\ (2 ^ 1024 <= z ->
                        number_of_Z neg z = S754_infinity neg)%Z
                    /\ (number_of_Z neg z = S754_infinity neg
                        \/ exists k,
                             integer_of (number_of_Z neg z) = Some k))
            /\ (isString (field t "story_points") = false ->
                Ticket.story_points tk = field t "story_points"))
         (top_tickets doc_estimates ++ nested_tickets doc_estimates)
         (tickets r).
Proof.
  eexists. eexists. split; [|split].
  - vm_compute. reflexivity.
  - vm_compute. reflexivity.
  - eapply (story_points_parsed JSON_parse_examples text_estimates None
              example_world doc_estimates).
    + vm_compute. reflexivity.
    + vm_compute. reflexivity.
Defined.

(** C9 as the claim words it fails: the number [-3] is emitted as it
    is. *)
Lemma story_points_counterexample :
  exists r w',
    parseJsonImport JSON_parse_examples text_points None example_world
    = Return (r, w')
    /\ ~ (forall tk, In tk (tickets r) ->
            Ticket.story_points tk = VUndefined
            \/ nonneg_integer (Ticket.story_points tk)).
Proof.
  eexists. eexists. split.
  - vm_compute. reflexivity.
  - intros H.
    match type of H with
    | forall tk, In tk (tickets ?r) -> _ =>
        destruct (H (hd (ticket_for None (initial example_world VNull) VNull)
                        (tickets r)) (or_introl eq_refl))
          as [Hu | (z & Hz & Hn)]
    end.
    + discriminate Hu.
    + cbn [tickets hd Ticket.story_points] in Hn.
      injection Hn as Hn.
      apply (f_equal sign_bit) in Hn.
      rewrite (number_of_Z_sign false z Hz) in Hn.
      vm_compute in Hn. discriminate Hn.
Qed.

(* ================================================================== *)
(** * The board of a ticket *)
(* ================================================================== *)

Lemma all_ok_In {A} (ok : A -> State -> bool) after l a : forall st,
  all_ok ok after l st = true -> In a l -> exists st', ok a st' = true.
Proof.
  induction l as [|x l IH]; intros st H Hin; simpl in *; [tauto|].
  apply andb_true_iff in H as [Hx Hl].
  destruct Hin as [<-|Hin]; eauto.
Qed.

Lemma nested_writable fb w d b t :
  body_ok fb (initial w d) = true ->
  In b (doc_boards d) -> In t (board_tickets b) -> writable t = true.
Proof.
  intros Hok Hb Ht.
  apply body_ok_boards in Hok. cbn [initial data] in Hok.
  destruct (all_ok_In _ _ _ _ _ Hok Hb) as (st & Hbo).
  unfold board_ok in Hbo. apply andb_true_iff in Hbo as [_ Htags].
  destruct (all_ok_In _ _ _ _ _ Htags Ht) as (st' & Hto).
  unfold tag_ok in Hto.
  apply andb_true_iff in Hto as [Hto _].
  apply andb_true_iff in Hto as [Hto _].
  now apply andb_true_iff in Hto as [_ Hto].
Qed.

Lemma working_entries_values d :
  map entry_value (working_entries d) = top_tickets d ++ nested_tickets d.
Proof.
  unfold working_entries, nested_tickets. rewrite map_app. f_equal.
  - rewrite map_map. simpl. apply map_id.
  - induction (doc_boards d) as [|b bs IH]; simpl; [reflexivity|].
    rewrite map_app, IH. f_equal. now rewrite map_map.
Qed.

Lemma Forall2_map_left {A B C} (R : B -> C -> Prop) (f : A -> B) l l' :
  Forall2 R (map f l) l' -> Forall2 (fun a c => R (f a) c) l l'.
Proof.
  revert l'. induction l as [|a l IH]; intros l' H; inversion H; subst;
    constructor; auto.
Qed.

Lemma Forall2_Forall_left {A B} (Q : A -> Prop) (R : A -> B -> Prop) l l' :
  Forall Q l -> Forall2 R l l' -> Forall2 (fun a b => Q a /\ R a b) l l'.
Proof.
  intros HQ HR. induction HR; inversion HQ; subst; constructor; auto.
Qed.

Lemma resolve_falsy tok toks ids :
  truthy tok = false -> resolve tok toks ids = None.
Proof.
  intros H. destruct (resolve tok toks ids) eqn:E; [|reflexivity].
  apply resolve_truthy in E. congruence.
Qed.

Lemma Map_has_record_all k toks ids :
  truthy k && Map_has k (record_all toks ids [])
  = match resolve k toks ids with Some _ => true | None => false end.
Proof.
  unfold Map_has. rewrite Map_find_record_all.
  destruct (resolve k toks ids) eqn:E; simpl.
  - now rewrite (resolve_truthy _ _ _ _ E).
  - apply andb_false_r.
Qed.

Lemma Map_get_record_all k toks ids i :
  resolve k toks ids = Some i ->
  Map_get k (record_all toks ids []) = VStr i.
Proof.
  intros E. unfold Map_get. now rewrite Map_find_record_all, E.
Qed.

Lemma resolveBoardId_priority toks bds fb tag raw :
  resolveBoardId (record_all toks (map Board.id bds) []) bds (optional fb)
                 tag raw
  = board_by_priority_truthy
      (resolve tag toks (map Board.id bds))
      (resolve raw toks (map Board.id bds))
      fb
      (match bds with b0 :: _ => Some (Board.id b0) | [] => None end).
Proof.
  unfold resolveBoardId, board_by_priority_truthy.
  rewrite !Map_has_record_all.
  destruct (resolve tag toks _) eqn:Etag;
    [now apply Map_get_record_all|].
  destruct (resolve raw toks _) eqn:Eraw;
    [now apply Map_get_record_all|].
  destruct (truthy (optional fb)); simpl; [reflexivity|].
  destruct bds; reflexivity.
Qed.

Lemma field_tagged_tag b t :
  writable t = true -> field (tagged b t) "_temp_board_id" = token b.
Proof. intros H. unfold tagged. now apply field_with_field_same. Qed.

Lemma field_tagged_other b t k :
  String.eqb k "_temp_board_id" = false -> field (tagged b t) k = field t k.
Proof. intros H. unfold tagged. now apply field_with_field_other. Qed.

Lemma boardMap_after_boards w d :
  let st1 := after_boards (initial w d) in
  boardMap st1 = record_all (map token (doc_boards d))
                            (map Board.id (boards (result st1))) [].
Proof.
  destruct (after_boards_maps (initial w d)) as (_ & H & _).
  now apply H.
Qed.

(** C3, as the code has it. For every entry of the working list of a
    document whose top-level tickets carry no [_temp_board_id] of their own,
    the emitted [board_id] follows the priority order: the tag of the board
    stage mapped through the board map; else the raw [board_id] mapped
    through it; else the fallback when it is a non-empty string; else the
    id of the first board of the batch; else the fallback as it was given
    (unset, or the empty string). *)
Theorem board_priority JSON_parse jsonString currentBoardId w d r w' :
  JSON_parse jsonString = Some d ->
  parseJsonImport JSON_parse jsonString currentBoardId w = Return (r, w') ->
  Forall (fun t => truthy (field t "_temp_board_id") = false)
         (top_tickets d) ->
  Forall2
    (fun e tk =>
       Ticket.board_id tk
       = board_by_priority_truthy
           (board_of_token d r (entry_tag e))
           (board_of_token d r (field (snd e) "board_id"))
           currentBoardId (first_board r))
    (working_entries d) (tickets r).
Proof.
  intros Hd Hrun Htop.
  apply parseJsonImport_Return in Hrun as (d' & Hd' & Hok & -> & _).
  rewrite Hd in Hd'. injection Hd' as <-.
  assert (Hent : Forall
            (fun e =>
               resolve (field (entry_value e) "_temp_board_id")
                       (map token (doc_boards d))
                       (map Board.id
                          (boards (result (after_boards (initial w d)))))
               = resolve (entry_tag e) (map token (doc_boards d))
                         (map Board.id
                            (boards (result (after_boards (initial w d)))))
               /\ field (entry_value e) "board_id" = field (snd e) "board_id")
            (working_entries d)).
  { unfold working_entries. apply Forall_app. split.
    - apply Forall_forall. intros e He.
      apply in_map_iff in He as (t & <- & Ht).
      rewrite Forall_forall in Htop. specialize (Htop t Ht).
      unfold entry_value, entry_tag. cbn [fst snd]. split; [|reflexivity].
      now rewrite !resolve_falsy.
    - apply Forall_forall. intros e He.
      apply in_flat_map in He as (b & Hb & He).
      apply in_map_iff in He as (t & <- & Ht).
      unfold entry_value, entry_tag. cbn [fst snd].
      rewrite field_tagged_tag by (eapply nested_writable; eauto).
      now rewrite field_tagged_other. }
  assert (Hall := tickets_by_entry currentBoardId w d
    (fun t tk =>
       Ticket.board_id tk
       = resolveBoardId (boardMap (after_boards (initial w d)))
                        (boards (result (after_boards (initial w d))))
                        (optional currentBoardId)
                        (field t "_temp_board_id") (field t "board_id"))
    Hok).
  rewrite <- working_entries_values in Hall.
  apply Forall2_map_left in Hall.
  2:{ intros t tk tm He.
      destruct (emitted_fields _ _ _ _ He) as (Hb & _). exact Hb. }
  eapply Forall2_impl; [|exact (Forall2_Forall_left _ _ _ _ Hent Hall)].
  intros e tk [[Htag Hraw] Hb]. cbn beta in *.
  destruct (body_anatomy _ _ _ Hok) as (Hbs & _).
  rewrite Hb, boardMap_after_boards, resolveBoardId_priority.
  unfold board_of_token, first_board. rewrite Hbs, Htag, Hraw. reflexivity.
Qed.

Lemma board_priority_witness :
  exists r w',
    parseJsonImport JSON_parse_examples text_loose (Some "") example_world
    = Return (r, w')
    /\ Forall2
         (fun e tk =>
            Ticket.board_id tk
            = board_by_priority_truthy
                (board_of_token doc_loose r (entry_tag e))
                (board_of_token doc_loose r (field (snd e) "board_id"))
                (Some "") (first_board r))
         (working_entries doc_loose) (tickets r).
Proof.
  eexists. eexists. split.
  - vm_compute. reflexivity.
  - eapply (board_priority JSON_parse_examples text_loose (Some "")
              example_world doc_loose).
    + reflexivity.
    + vm_compute. reflexivity.
    + repeat constructor.
Defined.

(** C3 as the claim words it fails when the caller's fallback is the empty
    string (the application starts with [activeBoardId = '']): the first
    board of the import is taken, not the fallback that was supplied. *)
Lemma board_priority_counterexample :
  exists r w',
    parseJsonImport JSON_parse_examples text_loose (Some "") example_world
    = Return (r, w')
    /\ ~ Forall2
           (fun e tk =>
              Ticket.board_id tk
              = board_by_priority
                  (board_of_token doc_loose r (entry_tag e))
                  (board_of_token doc_loose r (field (snd e) "board_id"))
                  (Some "") (first_board r))
           (working_entries doc_loose) (tickets r).
Proof.
  eexists. eexists. split.
  - vm_compute. reflexivity.
  - intros H.
    let l := eval vm_compute in (working_entries doc_loose) in
    change (working_entries doc_loose) with l in H.
    inversion H as [|e tk es tks Hb _]; subst.
    vm_compute in Hb. discriminate Hb.
Qed.

(* ================================================================== *)
(** * Boards of the batch *)
(* ================================================================== *)

Lemma resolveBoardId_cases bm bds fb tag raw :
  (exists k i, Map_find k bm = Some i
               /\ resolveBoardId bm bds (optional fb) tag raw = VStr i)
  \/ (exists b0 rest, bds = b0 :: rest
                      /\ resolveBoardId bm bds (optional fb) tag raw
                         = VStr (Board.id b0))
  \/ (truthy (optional fb) = true
      /\ resolveBoardId bm bds (optional fb) tag raw = optional fb)
  \/ (bds = [] /\ resolveBoardId bm bds (optional fb) tag raw = optional fb).
Proof.
  unfold resolveBoardId.
  destruct (truthy tag && Map_has tag bm) eqn:Et.
  { apply andb_true_iff in Et as [_ Et].
    destruct (Map_has_get _ _ Et) as (i & Hf & Hg). left. eauto. }
  destruct (truthy raw && Map_has raw bm) eqn:Er.
  { apply andb_true_iff in Er as [_ Er].
    destruct (Map_has_get _ _ Er) as (i & Hf & Hg). left. eauto. }
  destruct (truthy (optional fb)) eqn:Ef; simpl.
  { right. right. left. auto. }
  destruct bds as [|b0 rest]; simpl.
  - right. right. right. auto.
  - right. left. eauto.
Qed.

(** C5, as the code has it. When a successful import produces at least one
    board, the [board_id] of every emitted ticket is the id of a board of the
    batch, or else it is the caller's non-empty fallback, which the code
    prefers to the first imported board. Without such a fallback every
    ticket references a board of the batch. *)
Theorem board_in_batch JSON_parse jsonString currentBoardId w r w' :
  parseJsonImport JSON_parse jsonString currentBoardId w = Return (r, w') ->
  boards r <> [] ->
  forall tk, In tk (tickets r) ->
    (exists b, In b (boards r) /\ Ticket.board_id tk = VStr (Board.id b))
    \/ (exists f, currentBoardId = Some f /\ f <> ""
                  /\ Ticket.board_id tk = VStr f).
Proof.
  intros Hrun Hne tk Hin.
  apply parseJsonImport_Return in Hrun as (d & _ & Hok & -> & _).
  destruct (body_anatomy _ _ _ Hok) as (Hbs & _ & _ & tks & Hf & Ht).
  rewrite Ht in Hin. apply in_map_iff in Hin as (tk0 & <- & Hin).
  destruct (Forall2_In_r _ _ _ _ Hf Hin) as (e & _ & He).
  destruct (emitted_fields _ _ _ _ He) as (Hb & _).
  cbn [linkParent Ticket.board_id]. rewrite Hb. rewrite Hbs in *.
  destruct (resolveBoardId_cases
              (boardMap (after_boards (initial w d)))
              (boards (result (after_boards (initial w d))))
              currentBoardId
              (field e "_temp_board_id") (field e "board_id"))
    as [(k & i & Hfind & ->) | [(b0 & rest & Hbds & ->)
       | [(Htr & ->) | (Hnil & _)]]].
  - left.
    destruct (closed_maps_after_boards _ (closed_maps_initial w d))
      as (Hclosed & _).
    apply Hclosed, in_map_iff in Hfind as (b & Hid & Hb').
    exists b. now rewrite Hid.
  - left. exists b0. rewrite Hbds. split; [now left | reflexivity].
  - right. destruct currentBoardId as [f|]; [|discriminate].
    exists f. repeat split. intros ->. discriminate.
  - contradiction.
Qed.

Lemma board_in_batch_witness :
  exists r w',
    parseJsonImport JSON_parse_examples text_scenario None example_world
    = Return (r, w')
    /\ boards r <> []
    /\ forall tk, In tk (tickets r) ->
         (exists b, In b (boards r)
                    /\ Ticket.board_id tk = VStr (Board.id b))
         \/ (exists f, @None string = Some f /\ f <> ""
                       /\ Ticket.board_id tk = VStr f).
Proof.
  eexists. eexists. split; [|split].
  - vm_compute. reflexivity.
  - discriminate.
  - eapply (board_in_batch JSON_parse_examples text_scenario None
              example_world).
    + vm_compute. reflexivity.
    + discriminate.
Defined.

(** C5 as the claim words it fails: with the fallback ["B1"], a loose
    ticket of an import that creates a board is put on ["B1"], which is not
    a board of the batch. *)
Lemma board_in_batch_counterexample :
  exists r w',
    parseJsonImport JSON_parse_examples text_loose (Some "B1") example_world
    = Return (r, w')
    /\ boards r <> []
    /\ ~ (forall tk, In tk (tickets r) ->
            exists b, In b (boards r)
                      /\ Ticket.board_id tk = VStr (Board.id b)).
Proof.
  eexists. eexists. split; [|split].
  - vm_compute. reflexivity.
  - discriminate.
  - intros H.
    match type of H with
    | forall tk, In tk (tickets ?r) -> _ =>
        destruct (H (hd (ticket_for None (initial example_world VNull) VNull)
                        (tickets r)) (or_introl eq_refl))
          as (b & [<- | []] & Hb)
    end.
    discriminate Hb.
Qed.

(* ================================================================== *)
(** * Parents *)
(* ================================================================== *)

Lemma resolve_none k toks : forall ids,
  (forall j tok, nth_error toks j = Some tok ->
                 truthy tok && same_value_zero k tok = false) ->
  resolve k toks ids = None.
Proof.
  induction toks as [|tok toks IH]; intros [|i ids] H; simpl; auto.
  rewrite IH by (intros j t Hj; apply (H (S j) t Hj)).
  now rewrite (H 0 tok eq_refl).
Qed.

Lemma resolve_last k toks : forall ids j tok i,
  nth_error toks j = Some tok -> nth_error ids j = Some i ->
  truthy tok && same_value_zero k tok = true ->
  (forall j' tok', j < j' -> nth_error toks j' = Some tok' ->
                   truthy tok' && same_value_zero k tok' = false) ->
  resolve k toks ids = Some i.
Proof.
  induction toks as [|t toks IH]; intros ids j tok i Htok Hid Hm Hlast.
  - destruct j; discriminate.
  - destruct ids as [|i0 ids]; [destruct j; discriminate|].
    destruct j as [|j]; simpl in *.
    + injection Htok as ->. injection Hid as ->.
      rewrite resolve_none.
      * now rewrite Hm.
      * intros j' tok' Hj'. apply (Hlast (S j') tok'); [lia | exact Hj'].
    + rewrite (IH ids j tok i Htok Hid Hm); [reflexivity|].
      intros j' tok' Hlt Hj'. apply (Hlast (S j') tok'); [lia | exact Hj'].
Qed.

Lemma linkParent_parent tm tk :
  Ticket.parent_id (linkParent tm tk)
  = if truthy (Ticket.parent_id tk) && Map_has (Ticket.parent_id tk) tm
    then Map_get (Ticket.parent_id tk) tm else VNull.
Proof. reflexivity. Qed.

Lemma linkParent_raw tm tk raw :
  Ticket.parent_id tk = or_else raw VNull ->
  Ticket.parent_id (linkParent tm tk)
  = if truthy raw && Map_has raw tm then Map_get raw tm else VNull.
Proof.
  intros H. rewrite linkParent_parent, H. unfold or_else.
  destruct (truthy raw) eqn:E; [now rewrite E | reflexivity].
Qed.

(** C4. Parents are linked in a second pass over all tickets. A ticket
    whose raw [parent_id] is the token of a ticket of the working list,
    listed before or after it, gets the new id of that ticket (of the last
    one, when several carry the token); a ticket whose raw [parent_id] is
    the token of no ticket gets [null]. *)
Theorem parent_linking JSON_parse jsonString currentBoardId w d r w' :
  JSON_parse jsonString = Some d ->
  parseJsonImport JSON_parse jsonString currentBoardId w = Return (r, w') ->
  let W := top_tickets d ++ nested_tickets d in
  length (tickets r) = length W
  /\ forall i child tc,
       nth_error W i = Some child -> nth_error (tickets r) i = Some tc ->
       (forall j parent tp,
           nth_error W j = Some parent ->
           nth_error (tickets r) j = Some tp ->
           truthy (token parent) = true ->
           same_value_zero (field child "parent_id") (token parent) = true ->
           (forall j' later,
               j < j' -> nth_error W j' = Some later ->
               truthy (token later)
               && same_value_zero (field child "parent_id") (token later)
               = false) ->
           Ticket.parent_id tc = VStr (Ticket.id tp))
       /\ ((forall j other,
               nth_error W j = Some other ->
               truthy (token other)
               && same_value_zero (field child "parent_id") (token other)
               = false) ->
           Ticket.parent_id tc = VNull).
Proof.
  intros Hd Hrun W.
  apply parseJsonImport_Return in Hrun as (d' & Hd' & Hok & -> & _).
  rewrite Hd in Hd'. injection Hd' as <-.
  destruct (body_anatomy _ _ _ Hok) as (_ & _ & _ & tks & Hf & Ht).
  fold W in Hf, Ht. rewrite Ht.
  split; [rewrite length_map; symmetry; eapply Forall2_length; eauto|].
  intros i child tc Hchild Htc.
  rewrite nth_error_map in Htc.
  destruct (nth_error tks i) as [tk|] eqn:Htk; [|discriminate].
  injection Htc as <-.
  assert (Hem : emitted currentBoardId (after_boards (initial w d)) child tk).
  { clear - Hf Hchild Htk. revert i Hchild Htk.
    induction Hf as [|a b l l' Hab _ IH]; intros [|i] Ha Hb;
      simpl in *; try discriminate.
    - now injection Ha as <-; injection Hb as <-.
    - eauto. }
  destruct (emitted_fields _ _ _ _ Hem) as (_ & _ & _ & Hraw & _).
  rewrite (linkParent_raw _ _ _ Hraw).
  unfold Map_has, Map_get. rewrite Map_find_record_all.
  split.
  - intros j parent tp Hparent Htp Htruthy Hsame Hlast.
    rewrite nth_error_map in Htp.
    destruct (nth_error tks j) as [tkj|] eqn:Htkj; [|discriminate].
    injection Htp as <-. rewrite linkParent_id.
    assert (Hres : resolve (field child "parent_id") (map token W)
                           (map Ticket.id tks) = Some (Ticket.id tkj)).
    { apply (resolve_last _ _ _ j (token parent)).
      - now rewrite nth_error_map, Hparent.
      - now rewrite nth_error_map, Htkj.
      - now rewrite Htruthy, Hsame.
      - intros j' tok' Hlt Hj'. rewrite nth_error_map in Hj'.
        destruct (nth_error W j') as [later|] eqn:Hl; [|discriminate].
        injection Hj' as <-. eapply Hlast; eauto. }
    rewrite Hres.
    now rewrite (same_value_zero_truthy _ _ Hsame), Htruthy.
  - intros Hnone.
    assert (Hres : resolve (field child "parent_id") (map token W)
                           (map Ticket.id tks) = None).
    { apply resolve_none. intros j tok' Hj. rewrite nth_error_map in Hj.
      destruct (nth_error W j) as [other|] eqn:Ho; [|discriminate].
      injection Hj as <-. eapply Hnone; eauto. }
    rewrite Hres. simpl. now rewrite andb_false_r.
Qed.

Lemma parent_linking_witness :
  exists r w',
    parseJsonImport JSON_parse_examples text_forward None example_world
    = Return (r, w')
    /\ let W := top_tickets doc_forward ++ nested_tickets doc_forward in
       length (tickets r) = length W
       /\ forall i child tc,
            nth_error W i = Some child -> nth_error (tickets r) i = Some tc ->
            (forall j parent tp,
                nth_error W j = Some parent ->
                nth_error (tickets r) j = Some tp ->
                truthy (token parent) = true ->
                same_value_zero (field child "parent_id") (token parent)
                = true ->
                (forall j' later,
                    j < j' -> nth_error W j' = Some later ->
                    truthy (token later)
                    && same_value_zero (field child "parent_id")
                                       (token later)
                    = false) ->
                Ticket.parent_id tc = VStr (Ticket.id tp))
            /\ ((forall j other,
                    nth_error W j = Some other ->
                    truthy (token other)
                    && same_value_zero (field child "parent_id")
                                       (token other)
                    = false) ->
                Ticket.parent_id tc = VNull).
Proof.
  eexists. eexists. split.
  - vm_compute. reflexivity.
  - eapply (parent_linking JSON_parse_examples text_forward None
              example_world doc_forward).
    + reflexivity.
    + vm_compute. reflexivity.
Defined.

(* ================================================================== *)
(** * Scenarios *)
(* ================================================================== *)

Lemma example_uuid_injective i : forall j,
  example_uuid i = example_uuid j -> i = j.
Proof.
  induction i as [|i IH]; intros [|j]; simpl; intros H;
    try reflexivity; try (destruct j; discriminate H).
  - destruct i; discriminate H.
  - injection H as H. f_equal. now apply IH.
Qed.

(** C7. The document with the board [b1], its sprint [s1], an Epic [e1]
    and a Story with [parent_id] [e1] and [sprint_id] [s1] gives one board,
    one sprint and two tickets; the sprint is on the new id of the board,
    and the Story has the new id of the Epic for parent and the new id of
    the sprint for sprint. The new ids are the identifiers drawn, not the
    tokens. *)
Theorem scenario_nested_board JSON_parse jsonString currentBoardId w :
  JSON_parse jsonString = Some doc_scenario ->
  exists b s epic story w',
    parseJsonImport JSON_parse jsonString currentBoardId w
    = Return (mkResult [b] [s] [epic; story] (mkStats 1 1 2), w')
    /\ Board.id b = uuid_at w (uuid_next w)
    /\ Sprint.id s = uuid_at w (1 + uuid_next w)
    /\ Ticket.id epic = uuid_at w (2 + uuid_next w)
    /\ Ticket.id story = uuid_at w (3 + uuid_next w)
    /\ Sprint.board_id s = Board.id b
    /\ Ticket.type epic = VStr "Epic"
    /\ Ticket.type story = VStr "Story"
    /\ Ticket.parent_id story = VStr (Ticket.id epic)
    /\ Ticket.sprint_id story = VStr (Sprint.id s)
    /\ Ticket.board_id epic = VStr (Board.id b)
    /\ Ticket.board_id story = VStr (Board.id b).
Proof.
  intros Hd. unfold parseJsonImport. rewrite Hd.
  destruct w as [g k c n]. destruct currentBoardId; vm_compute;
    do 5 eexists; (split; [reflexivity|]); repeat split.
Qed.

Lemma scenario_nested_board_witness :
  exists b s epic story w',
    parseJsonImport JSON_parse_examples text_scenario None example_world
    = Return (mkResult [b] [s] [epic; story] (mkStats 1 1 2), w')
    /\ Board.id b = uuid_at example_world (uuid_next example_world)
    /\ Sprint.id s = uuid_at example_world (1 + uuid_next example_world)
    /\ Ticket.id epic = uuid_at example_world (2 + uuid_next example_world)
    /\ Ticket.id story = uuid_at example_world (3 + uuid_next example_world)
    /\ Sprint.board_id s = Board.id b
    /\ Ticket.type epic = VStr "Epic"
    /\ Ticket.type story = VStr "Story"
    /\ Ticket.parent_id story = VStr (Ticket.id epic)
    /\ Ticket.sprint_id story = VStr (Sprint.id s)
    /\ Ticket.board_id epic = VStr (Board.id b)
    /\ Ticket.board_id story = VStr (Board.id b).
Proof.
  apply (scenario_nested_board JSON_parse_examples text_scenario None
           example_world).
  reflexivity.
Defined.

(** C10. The sprint map is one for the whole import, and a ticket's sprint
    is not checked against its board: in the document with the boards [b1]
    (sprint [s1]) and [b2] (sprint [s2]), the ticket under [b1] that names
    [s2] is emitted on the new id of [b1] with the new id of [s2] for
    sprint, a sprint that is on the other board. *)
Theorem sprint_of_other_board JSON_parse jsonString currentBoardId w :
  JSON_parse jsonString = Some doc_cross ->
  (forall i j, uuid_at w i = uuid_at w j -> i = j) ->
  exists b1 b2 s1 s2 t w',
    parseJsonImport JSON_parse jsonString currentBoardId w
    = Return (mkResult [b1; b2] [s1; s2] [t] (mkStats 2 2 1), w')
    /\ Sprint.board_id s1 = Board.id b1
    /\ Sprint.board_id s2 = Board.id b2
    /\ Ticket.board_id t = VStr (Board.id b1)
    /\ Ticket.sprint_id t = VStr (Sprint.id s2)
    /\ Sprint.board_id s2 <> Board.id b1.
Proof.
  intros Hd Hinj. unfold parseJsonImport. rewrite Hd.
  destruct w as [g k c n]. cbn [uuid_at] in Hinj.
  destruct currentBoardId; vm_compute;
    do 6 eexists; (split; [reflexivity|]); repeat split;
    cbn [Sprint.board_id Board.id]; intros H; apply Hinj in H; lia.
Qed.

Lemma sprint_of_other_board_witness :
  exists b1 b2 s1 s2 t w',
    parseJsonImport JSON_parse_examples text_cross None example_world
    = Return (mkResult [b1; b2] [s1; s2] [t] (mkStats 2 2 1), w')
    /\ Sprint.board_id s1 = Board.id b1
    /\ Sprint.board_id s2 = Board.id b2
    /\ Ticket.board_id t = VStr (Board.id b1)
    /\ Ticket.sprint_id t = VStr (Sprint.id s2)
    /\ Sprint.board_id s2 <> Board.id b1.
Proof.
  apply (sprint_of_other_board JSON_parse_examples text_cross None
           example_world).
  - reflexivity.
  - apply example_uuid_injective.
Defined.

(* ================================================================== *)
(** * When the import runs through *)
(* ================================================================== *)

Lemma all_ok_static {A} (p : A -> bool) (after : A -> State -> State) l :
  forall st, all_ok (fun a _ => p a) after l st = forallb p l.
Proof.
  induction l as [|a l IH]; intros st; simpl; [reflexivity|].
  now rewrite IH.
Qed.

Lemma entries_writable v k : entries (field v k) <> [] -> writable v = true.
Proof. destruct v; simpl; auto; intros H; now contradiction H. Qed.

Lemma after_sprints_data b st : data (after_sprints b st) = data st.
Proof.
  unfold after_sprints.
  now destruct (after_sprints_frame (drawn (world st))
                  (entries (field b "sprints")) (after_board_head b st))
    as (-> & _).
Qed.

Lemma after_board_no_tickets b st :
  no_tickets b = true -> data (after_board b st) = data st.
Proof.
  unfold no_tickets, board_tickets, after_board.
  destruct (entries (field b "tickets")); [|discriminate].
  intros _. simpl. apply after_sprints_data.
Qed.

Lemma can_push_after_tag b t st :
  tag_ok b t st = true -> can_push (after_tag b t st) = true.
Proof.
  intros H. destruct (after_tag_entries b t st H) as (Hw & Harr & _).
  unfold can_push. rewrite Hw, Harr. now rewrite orb_true_r.
Qed.

Lemma tags_ok b ts : forall st,
  nullish b = false -> forallb writable ts = true -> can_push st = true ->
  all_ok (tag_ok b) (after_tag b) ts st = true
  /\ can_push (after_all (after_tag b) ts st) = true.
Proof.
  induction ts as [|t ts IH]; intros st Hb Hts Hp; simpl; [auto|].
  apply andb_true_iff in Hts as [Ht Hts].
  assert (Hok : tag_ok b t st = true).
  { unfold tag_ok, can_push in *. rewrite Hb, Ht.
    apply andb_true_iff in Hp as [-> ->]. reflexivity. }
  rewrite Hok. apply IH; auto. now apply can_push_after_tag.
Qed.

Lemma board_shaped_ok b st :
  board_shaped b = true ->
  can_push st = true \/ no_tickets b = true ->
  board_ok b st = true
  /\ (can_push st = true -> can_push (after_board b st) = true).
Proof.
  unfold board_shaped, board_ok. intros H Hp.
  apply andb_true_iff in H as [H Hts].
  apply andb_true_iff in H as [Hb Hss].
  rewrite Hb. cbn [andb].
  change sprint_ok with (fun (s : value) (_ : State) => negb (nullish s)).
  rewrite all_ok_static. fold (board_sprints b). rewrite Hss. cbn [andb].
  fold (board_tickets b). unfold after_board. fold (board_tickets b).
  assert (Hd : can_push (after_sprints b st) = can_push st)
    by (unfold can_push; now rewrite after_sprints_data).
  destruct (can_push st) eqn:Hcp.
  - destruct (tags_ok b (board_tickets b) (after_sprints b st)) as [H1 H2];
      auto.
    now apply negb_true_iff.
  - destruct Hp as [Hp|Hp]; [discriminate|].
    unfold no_tickets in Hp.
    destruct (board_tickets b); [|discriminate]. simpl.
    split; [reflexivity | discriminate].
Qed.

Lemma boards_shaped_ok bs : forall st,
  forallb board_shaped bs = true ->
  can_push st = true \/ forallb no_tickets bs = true ->
  all_ok board_ok after_board bs st = true.
Proof.
  induction bs as [|b bs IH]; intros st Hbs Hp; simpl; [reflexivity|].
  simpl in Hbs. apply andb_true_iff in Hbs as [Hb Hbs].
  destruct (board_shaped_ok b st Hb) as [Hok Hkeep].
  { destruct Hp as [Hp|Hp]; [now left|].
    simpl in Hp. apply andb_true_iff in Hp as [Hp _]. now right. }
  rewrite Hok. apply IH; auto.
  destruct Hp as [Hp|Hp]; [left; auto|].
  right. simpl in Hp. now apply andb_true_iff in Hp as [_ Hp].
Qed.

Lemma forallb_no_tickets_false bs :
  forallb no_tickets bs = false -> bs <> [].
Proof. destruct bs; [discriminate | discriminate]. Qed.

Lemma boards_need_push bs : forall st,
  all_ok board_ok after_board bs st = true ->
  forallb no_tickets bs = false ->
  negb (truthy (field (data st) "tickets"))
  || isArray (field (data st) "tickets") = true.
Proof.
  induction bs as [|b bs IH]; intros st Hok Hnt; simpl in *; [discriminate|].
  apply andb_true_iff in Hok as [Hb Hbs].
  destruct (no_tickets b) eqn:Hn; simpl in Hnt.
  - rewrite <- (after_board_no_tickets b st Hn). now apply IH.
  - unfold board_ok in Hb. apply andb_true_iff in Hb as [_ Htags].
    unfold no_tickets, board_tickets in Hn.
    destruct (entries (field b "tickets")) as [|t ts]; [discriminate|].
    simpl in Htags. apply andb_true_iff in Htags as [Ht _].
    unfold tag_ok in Ht. apply andb_true_iff in Ht as [_ Ht].
    now rewrite after_sprints_data in Ht.
Qed.

Lemma boards_ok_shaped bs : forall st,
  all_ok board_ok after_board bs st = true ->
  forallb board_shaped bs = true.
Proof.
  induction bs as [|b bs IH]; intros st Hok; simpl in *; [reflexivity|].
  apply andb_true_iff in Hok as [Hb Hbs].
  rewrite (IH _ Hbs), andb_true_r.
  unfold board_ok in Hb. unfold board_shaped.
  apply andb_true_iff in Hb as [Hb Htags].
  apply andb_true_iff in Hb as [Hb Hss].
  rewrite Hb. cbn [andb].
  change sprint_ok with (fun (s : value) (_ : State) => negb (nullish s))
    in Hss.
  rewrite all_ok_static in Hss. fold (board_sprints b) in Hss.
  rewrite Hss. cbn [andb].
  fold (board_tickets b) in Htags.
  apply forallb_forall. intros t Ht.
  destruct (all_ok_In _ _ _ _ _ Htags Ht) as (st' & Hto).
  unfold tag_ok in Hto.
  apply andb_true_iff in Hto as [Hto _].
  apply andb_true_iff in Hto as [Hto _].
  now apply andb_true_iff in Hto as [_ Hto].
Qed.

Lemma nested_not_nullish d :
  forallb board_shaped (doc_boards d) = true ->
  forallb (fun t => negb (nullish t)) (nested_tickets d) = true.
Proof.
  intros H. apply forallb_forall. intros x Hx.
  unfold nested_tickets in Hx.
  apply in_flat_map in Hx as (b & Hb & Hx).
  apply in_map_iff in Hx as (t & <- & Ht).
  rewrite forallb_forall in H. specialize (H b Hb).
  unfold board_shaped in H. apply andb_true_iff in H as [_ H].
  rewrite forallb_forall in H. specialize (H t Ht).
  unfold tagged. rewrite nullish_with_field.
  now rewrite (writable_not_nullish _ H).
Qed.

(** The dynamic condition of the run is the static shape of the
    document. *)
Lemma body_ok_well_shaped fb w d :
  body_ok fb (initial w d) = well_shaped d.
Proof.
  unfold body_ok, well_shaped. cbn [initial data].
  destruct (nullish d) eqn:Hn; [reflexivity|]. cbn [negb andb].
  fold (doc_boards d).
  destruct (all_ok board_ok after_board (doc_boards d) (initial w d))
    eqn:Hok; cbn [andb].
  - rewrite (boards_ok_shaped _ _ Hok). cbn [andb].
    pose proof (after_boards_entries (initial w d) Hok) as HW.
    cbn [initial data] in HW. rewrite HW.
    change ticket_ok with (fun (t : value) (_ : State) => negb (nullish t)).
    rewrite all_ok_static, forallb_app.
    rewrite (nested_not_nullish d (boards_ok_shaped _ _ Hok)), andb_true_r.
    destruct (forallb no_tickets (doc_boards d)) eqn:Hnt; cbn [orb andb];
      [reflexivity|].
    pose proof (boards_need_push _ _ Hok Hnt) as Hp.
    cbn [initial data] in Hp. now rewrite Hp.
  - destruct (forallb board_shaped (doc_boards d)) eqn:Hsh;
      cbn [andb]; [|reflexivity].
    destruct (forallb no_tickets (doc_boards d)
              || negb (truthy (field d "tickets"))
              || isArray (field d "tickets")) eqn:Hslot;
      cbn [andb]; [|reflexivity].
    exfalso.
    rewrite boards_shaped_ok in Hok; [discriminate | exact Hsh |].
    destruct (forallb no_tickets (doc_boards d)) eqn:Hnt; [now right|].
    left. unfold can_push. cbn [initial data].
    cbn [orb] in Hslot. rewrite Hslot, andb_true_r.
    apply (entries_writable d "boards").
    now apply forallb_no_tickets_false.
Qed.

(** The error of the call is "Invalid JSON format" exactly when the text
    is not JSON. *)
Lemma invalid_json_iff JSON_parse jsonString currentBoardId w :
  parseJsonImport JSON_parse jsonString currentBoardId w
  = Throw InvalidJSONFormat
  <-> JSON_parse jsonString = None.
Proof.
  unfold parseJsonImport.
  destruct (JSON_parse jsonString) as [d|]; [|tauto].
  rewrite importBody_exact.
  destruct (body_ok currentBoardId (initial w d)); split; discriminate.
Qed.

Example not_valid_text :
  parseJsonImport JSON_parse_examples "{not valid" None example_world
  = Throw InvalidJSONFormat.
Proof. reflexivity. Qed.

(** A flat import with the active board as target. *)
Example flat_import_on_active_board :
  exists tk w',
    parseJsonImport JSON_parse_examples text_flat (Some "B1") example_world
    = Return (mkResult [] [] [tk] (mkStats 0 0 1), w')
    /\ Ticket.title tk = VStr "A"
    /\ Ticket.board_id tk = VStr "B1".
Proof. do 2 eexists. split; [vm_compute; reflexivity|]. split; reflexivity. Qed.

(** The defaults of a ticket that has no field at all. *)
Example defaults_of_empty_ticket :
  exists b tk w',
    parseJsonImport JSON_parse_examples text_loose None example_world
    = Return (mkResult [b] [] [tk] (mkStats 1 0 1), w')
    /\ Ticket.title tk = VStr "Untitled Ticket"
    /\ Ticket.status tk = VStr "Todo"
    /\ Ticket.type tk = VStr "Story"
    /\ Ticket.priority tk = VStr "Medium"
    /\ Ticket.labels tk = VArr Literal [] []
    /\ Ticket.is_flagged tk = false
    /\ Ticket.story_points tk = VUndefined
    /\ Ticket.parent_id tk = VNull
    /\ Ticket.board_id tk = VStr (Board.id b).
Proof.
  do 3 eexists. split; [vm_compute; reflexivity|]. repeat split.
Qed.

Example points_five : parsePoints (VStr "5") = VNum (number_of_Z false 5).
Proof. reflexivity. Qed.

Example points_abc : parsePoints (VStr "abc") = VUndefined.
Proof. reflexivity. Qed.

Example points_minus_five :
  parsePoints (VStr " -5 points") = VNum (number_of_Z true 5).
Proof. reflexivity. Qed.

(** C1, as the code has it. The outcome of a call is decided by the text
    alone: a text that [JSON.parse] rejects gives the error
    "Invalid JSON format" and nothing else; a text that parses to a
    [well_shaped] document gives a result, whatever the types of its
    fields; a text that parses to any other document ([null], a [null]
    entry, a nested ticket that is not an object, a top-level [tickets]
    that cannot take the nested ones) gives a [TypeError], not the parse
    error, and no result. *)
Theorem import_outcome JSON_parse jsonString currentBoardId w :
  match JSON_parse jsonString with
  | None =>
      parseJsonImport JSON_parse jsonString currentBoardId w
      = Throw InvalidJSONFormat
  | Some d =>
      if well_shaped d
      then exists r w',
          parseJsonImport JSON_parse jsonString currentBoardId w
          = Return (r, w')
      else parseJsonImport JSON_parse jsonString currentBoardId w
           = Throw TypeError
  end.
Proof.
  unfold parseJsonImport.
  destruct (JSON_parse jsonString) as [d|]; [|reflexivity].
  rewrite importBody_exact, body_ok_well_shaped.
  destruct (well_shaped d); [|reflexivity].
  eexists. eexists. reflexivity.
Qed.

(** C1 as the claim words it fails: the text [null] is JSON, and the
    call throws on it instead of returning a result. *)
Lemma import_outcome_counterexample :
  JSON_parse_examples text_null = Some VNull
  /\ parseJsonImport JSON_parse_examples text_null None example_world
     = Throw TypeError
  /\ ~ (exists r w',
          parseJsonImport JSON_parse_examples text_null None example_world
          = Return (r, w')).
Proof.
  repeat split. intros (r & w' & H). discriminate H.
Qed.

(* ================================================================== *)
(** * Two runs in step *)
(* ================================================================== *)

Section InStep.

Variables (w1 w2 : World) (fallback : option string).

Local Notation "'rho'" := (same_draw w1 w2).

Lemma map_equiv_find m1 m2 k :
  map_equiv rho m1 m2 ->
  match Map_find k m1, Map_find k m2 with
  | Some a, Some b => rho a b
  | None, None => True
  | _, _ => False
  end.
Proof.
  induction 1 as [|[k1 a] [k2 b] m1 m2 [Hk Hab] _ IH]; simpl; auto.
  simpl in Hk, Hab. subst k2.
  destruct (same_value_zero k k1); auto.
Qed.

Lemma map_equiv_has m1 m2 k :
  map_equiv rho m1 m2 -> Map_has k m1 = Map_has k m2.
Proof.
  intros H. pose proof (map_equiv_find m1 m2 k H) as Hf. unfold Map_has.
  destruct (Map_find k m1), (Map_find k m2); tauto.
Qed.

Lemma map_equiv_get m1 m2 k :
  map_equiv rho m1 m2 -> Map_has k m1 = true ->
  exists a b, Map_get k m1 = VStr a /\ Map_get k m2 = VStr b /\ rho a b.
Proof.
  intros H. pose proof (map_equiv_find m1 m2 k H) as Hf.
  unfold Map_has, Map_get.
  destruct (Map_find k m1) as [a|], (Map_find k m2) as [b|];
    try tauto; try discriminate.
  intros _. exists a, b. auto.
Qed.

Lemma map_equiv_record m1 m2 tok a b :
  map_equiv rho m1 m2 -> rho a b ->
  map_equiv rho (record_token tok a m1) (record_token tok b m2).
Proof.
  intros Hm Hab. unfold record_token, Map_set.
  destruct (truthy tok); [constructor; auto | exact Hm].
Qed.

Lemma in_step_drawn st1 st2 :
  in_step w1 w2 fallback st1 st2 ->
  rho (drawn (world st1)) (drawn (world st2)).
Proof.
  intros (_ & Hu1 & Hu2 & (n & Hn1 & Hn2) & _).
  exists n. unfold drawn. now rewrite Hu1, Hu2, Hn1, Hn2.
Qed.

Lemma in_step_head b st1 st2 :
  in_step w1 w2 fallback st1 st2 ->
  in_step w1 w2 fallback (after_board_head b st1) (after_board_head b st2).
Proof.
  intros H. pose proof (in_step_drawn _ _ H) as Hd.
  destruct H as (Hdata & Hu1 & Hu2 & (n & Hn1 & Hn2) & Hb & Hs & Ht
                 & Hbm & Hsm & Htm).
  unfold in_step. simpl. repeat split; auto.
  - exists (S n). lia.
  - apply Forall2_app; [exact Hb|]. constructor; [|constructor].
    unfold board_equiv. simpl. repeat split; auto.
  - now apply map_equiv_record.
Qed.

Lemma in_step_sprint a b s st1 st2 :
  rho a b ->
  in_step w1 w2 fallback st1 st2 ->
  in_step w1 w2 fallback (after_sprint a s st1) (after_sprint b s st2).
Proof.
  intros Hab H. pose proof (in_step_drawn _ _ H) as Hd.
  destruct H as (Hdata & Hu1 & Hu2 & (n & Hn1 & Hn2) & Hb & Hs & Ht
                 & Hbm & Hsm & Htm).
  unfold in_step. simpl. repeat split; auto.
  - exists (S n). lia.
  - apply Forall2_app; [exact Hs|]. constructor; [|constructor].
    unfold sprint_equiv. simpl. repeat split; auto.
  - now apply map_equiv_record.
Qed.

Lemma in_step_tag b t st1 st2 :
  in_step w1 w2 fallback st1 st2 ->
  in_step w1 w2 fallback (after_tag b t st1) (after_tag b t st2).
Proof.
  intros (Hdata & Hu1 & Hu2 & Hn & Hb & Hs & Ht & Hbm & Hsm & Htm).
  unfold in_step, after_tag. cbn [data world result boardMap sprintMap
                                  ticketMap].
  rewrite Hdata. repeat split; auto.
Qed.

Lemma after_all_in_step {A} (f1 f2 : A -> State -> State) l :
  (forall a st1 st2,
      in_step w1 w2 fallback st1 st2 ->
      in_step w1 w2 fallback (f1 a st1) (f2 a st2)) ->
  forall st1 st2,
    in_step w1 w2 fallback st1 st2 ->
    in_step w1 w2 fallback (after_all f1 l st1) (after_all f2 l st2).
Proof.
  intros Hstep. induction l as [|a l IH]; intros st1 st2 H; simpl; auto.
Qed.

Lemma in_step_board b st1 st2 :
  in_step w1 w2 fallback st1 st2 ->
  in_step w1 w2 fallback (after_board b st1) (after_board b st2).
Proof.
  intros H. unfold after_board.
  apply after_all_in_step; [intros; now apply in_step_tag|].
  unfold after_sprints.
  apply after_all_in_step.
  - intros s s1 s2. apply in_step_sprint. now apply in_step_drawn.
  - now apply in_step_head.
Qed.

Lemma in_step_boards st1 st2 :
  in_step w1 w2 fallback st1 st2 ->
  in_step w1 w2 fallback (after_boards st1) (after_boards st2).
Proof.
  intros H. unfold after_boards.
  replace (data st2) with (data st1) by apply H.
  apply after_all_in_step; [|exact H].
  intros b s1 s2. apply in_step_board.
Qed.

Lemma resolveBoardId_equiv bm1 bm2 bds1 bds2 tag raw :
  map_equiv rho bm1 bm2 ->
  Forall2 (board_equiv rho) bds1 bds2 ->
  ref_equiv rho fallback
    (resolveBoardId bm1 bds1 (optional fallback) tag raw)
    (resolveBoardId bm2 bds2 (optional fallback) tag raw).
Proof.
  intros Hm Hb. unfold resolveBoardId.
  rewrite <- (map_equiv_has _ _ tag Hm), <- (map_equiv_has _ _ raw Hm).
  destruct (truthy tag && Map_has tag bm1) eqn:Et.
  { apply andb_true_iff in Et as [_ Et].
    destruct (map_equiv_get _ _ _ Hm Et) as (a & b & -> & -> & Hab).
    left. eauto. }
  destruct (truthy raw && Map_has raw bm1) eqn:Er.
  { apply andb_true_iff in Er as [_ Er].
    destruct (map_equiv_get _ _ _ Hm Er) as (a & b & -> & -> & Hab).
    left. eauto. }
  rewrite <- (Forall2_length Hb).
  destruct (negb (truthy (optional fallback)) && (0 <? length bds1)%nat).
  - destruct Hb as [|b1 b2 l1 l2 Hb12 _].
    + right. auto.
    + left. exists (Board.id b1), (Board.id b2). repeat split. apply Hb12.
  - right. auto.
Qed.

Lemma resolveSprintId_equiv sm1 sm2 v :
  map_equiv rho sm1 sm2 ->
  ref_equiv rho fallback (resolveSprintId sm1 v) (resolveSprintId sm2 v).
Proof.
  intros Hm. unfold resolveSprintId.
  rewrite <- (map_equiv_has _ _ v Hm).
  destruct (truthy v && Map_has v sm1) eqn:E.
  - apply andb_true_iff in E as [_ E].
    destruct (map_equiv_get _ _ _ Hm E) as (a & b & -> & -> & Hab).
    left. eauto.
  - right. auto.
Qed.

Lemma in_step_ticket t st1 st2 :
  in_step w1 w2 fallback st1 st2 ->
  in_step w1 w2 fallback (after_ticket fallback t st1)
                         (after_ticket fallback t st2).
Proof.
  intros H. pose proof (in_step_drawn _ _ H) as Hd.
  destruct H as (Hdata & Hu1 & Hu2 & (n & Hn1 & Hn2) & Hb & Hs & Ht
                 & Hbm & Hsm & Htm).
  unfold in_step. simpl. repeat split; auto.
  - exists (S n). lia.
  - apply Forall2_app; [exact Ht|]. constructor; [|constructor].
    unfold ticket_equiv_raw, ticket_content_equal. simpl.
    repeat split; auto.
    + now apply resolveBoardId_equiv.
    + now apply resolveSprintId_equiv.
  - now apply map_equiv_record.
Qed.

Lemma linkParent_equiv tm1 tm2 t1 t2 :
  map_equiv rho tm1 tm2 ->
  ticket_equiv_raw rho fallback t1 t2 ->
  ticket_equiv rho fallback (linkParent tm1 t1) (linkParent tm2 t2).
Proof.
  intros Hm (Hid & Hb & Hs & Hp & Hc).
  unfold ticket_equiv. repeat split; try assumption; try apply Hc.
  rewrite !linkParent_parent, <- Hp.
  rewrite <- (map_equiv_has _ _ (Ticket.parent_id t1) Hm).
  destruct (truthy (Ticket.parent_id t1)
            && Map_has (Ticket.parent_id t1) tm1) eqn:E.
  - apply andb_true_iff in E as [_ E].
    destruct (map_equiv_get _ _ _ Hm E) as (a & b & -> & -> & Hab).
    left. eauto.
  - right. auto.
Qed.

Lemma in_step_initial d :
  in_step w1 w2 fallback (initial w1 d) (initial w2 d).
Proof.
  unfold in_step. simpl. repeat split; try constructor.
  exists 0. lia.
Qed.

Lemma in_step_result d :
  equivalent_upto rho fallback
    (body_result fallback (initial w1 d)) (body_result fallback (initial w2 d)).
Proof.
  pose proof (in_step_boards _ _ (in_step_initial d)) as H1.
  destruct (after_boards_maps (initial w1 d)) as (_ & _ & Ht1 & _).
  destruct (after_boards_maps (initial w2 d)) as (_ & _ & Ht2 & _).
  cbn [initial result tickets empty_result] in Ht1, Ht2.
  set (st1 := initial w1 d) in *. set (st2 := initial w2 d) in *.
  unfold body_result, after_tickets, working_list.
  replace (data (after_boards st2)) with (data (after_boards st1))
    by apply H1.
  destruct (truthy (field (data (after_boards st1)) "tickets")
            && isArray (field (data (after_boards st1)) "tickets")).
  - pose proof (after_all_in_step (after_ticket fallback)
                  (after_ticket fallback)
                  (entries (field (data (after_boards st1)) "tickets"))
                  in_step_ticket _ _ H1)
      as (_ & _ & _ & _ & Hb & Hs & Ht & _ & _ & Htm).
    unfold equivalent_upto, with_stats, after_link.
    cbn [boards sprints tickets stats result].
    assert (Hlink : Forall2 (ticket_equiv rho fallback)
              (map (linkParent (ticketMap (after_all (after_ticket fallback)
                       (entries (field (data (after_boards st1)) "tickets"))
                       (after_boards st1))))
                   (tickets (result (after_all (after_ticket fallback)
                       (entries (field (data (after_boards st1)) "tickets"))
                       (after_boards st1)))))
              (map (linkParent (ticketMap (after_all (after_ticket fallback)
                       (entries (field (data (after_boards st1)) "tickets"))
                       (after_boards st2))))
                   (tickets (result (after_all (after_ticket fallback)
                       (entries (field (data (after_boards st1)) "tickets"))
                       (after_boards st2)))))).
    { clear - Ht Htm. induction Ht; simpl; constructor; auto.
      now apply linkParent_equiv. }
    repeat split; auto.
    rewrite !length_map.
    now rewrite (Forall2_length Hb), (Forall2_length Hs),
      (Forall2_length Ht).
  - destruct H1 as (_ & _ & _ & _ & Hb & Hs & _).
    unfold equivalent_upto, with_stats.
    cbn [boards sprints tickets stats result].
    rewrite Ht1, Ht2.
    repeat split; auto.
    now rewrite (Forall2_length Hb), (Forall2_length Hs).
Qed.

End InStep.

(* ================================================================== *)
(** * Fresh identifiers *)
(* ================================================================== *)

Lemma ids_drawn_initial w d : ids_drawn_since w (initial w d).
Proof.
  unfold ids_drawn_since. simpl. repeat split; auto.
  rewrite Nat.sub_diag. constructor.
Qed.

Lemma ids_drawn_after_link w0 st :
  ids_drawn_since w0 st -> ids_drawn_since w0 (after_link st).
Proof.
  intros (Hu & Hle & Hp). unfold ids_drawn_since, after_link.
  cbn [world result]. repeat split; auto.
  unfold batch_ids in *. cbn [boards sprints tickets].
  now rewrite map_linkParent_ids.
Qed.

Lemma ids_drawn_after_tickets fb w d :
  ids_drawn_since w (after_tickets fb (initial w d)).
Proof.
  unfold after_tickets.
  pose proof (ids_drawn_after_boards w _ (ids_drawn_initial w d)) as H.
  destruct (_ && _); [|exact H].
  apply ids_drawn_after_link.
  apply after_all_inv; [|exact H].
  intros t st _. apply ids_drawn_after_ticket.
Qed.

Lemma NoDup_draws (g : nat -> string) k n :
  (forall i j, g i = g j -> i = j) -> NoDup (map g (seq k n)).
Proof.
  intros Hinj. revert k. induction n as [|n IH]; intros k; simpl.
  - constructor.
  - constructor; [|apply IH].
    intros Hin. apply in_map_iff in Hin as (x & Hx & Hin).
    apply Hinj in Hx. apply in_seq in Hin. lia.
Qed.

Lemma same_draw_one_to_one w1 w2 :
  (forall i j, uuid_at w1 i = uuid_at w1 j -> i = j) ->
  (forall i j, uuid_at w2 i = uuid_at w2 j -> i = j) ->
  one_to_one (same_draw w1 w2).
Proof.
  intros H1 H2. split.
  - intros a b b' (n & -> & ->) (m & Hm & ->).
    apply H1 in Hm. f_equal. lia.
  - intros a a' b (n & -> & ->) (m & -> & Hm).
    apply H2 in Hm. f_equal. lia.
Qed.

(** C6. Under a generator that never repeats an identifier, importing the
    same document twice, the second time in the world the first run left,
    gives two batches: in each the ids are pairwise distinct, and each id
    of the first is one of the identifiers drawn during that run; no id of
    the first batch is an id of the second; and the batches are
    structurally equivalent up to a one-to-one renaming of the generated
    ids. *)
Theorem import_twice JSON_parse jsonString currentBoardId w r1 w1 :
  (forall i j, uuid_at w i = uuid_at w j -> i = j) ->
  parseJsonImport JSON_parse jsonString currentBoardId w = Return (r1, w1) ->
  exists r2 w2,
    parseJsonImport JSON_parse jsonString currentBoardId w1 = Return (r2, w2)
    /\ NoDup (batch_ids r1)
    /\ NoDup (batch_ids r2)
    /\ (forall x, In x (batch_ids r1) ->
          exists n, uuid_next w <= n < uuid_next w1 /\ x = uuid_at w n)
    /\ (forall x, In x (batch_ids r1) -> ~ In x (batch_ids r2))
    /\ exists rho,
         one_to_one rho /\ equivalent_upto rho currentBoardId r1 r2.
Proof.
  intros Hinj Hrun.
  apply parseJsonImport_Return in Hrun as (d & Hd & Hok & -> & ->).
  pose proof (ids_drawn_after_tickets currentBoardId w d) as (Hu1 & Hle1 & Hp1).
  set (w1 := world (after_tickets currentBoardId (initial w d))) in *.
  pose proof (ids_drawn_after_tickets currentBoardId w1 d)
    as (Hu2 & Hle2 & Hp2).
  set (w2 := world (after_tickets currentBoardId (initial w1 d))) in *.
  assert (Hinj1 : forall i j, uuid_at w1 i = uuid_at w1 j -> i = j)
    by (rewrite Hu1; exact Hinj).
  exists (body_result currentBoardId (initial w1 d)), w2.
  assert (Hb1 : batch_ids (body_result currentBoardId (initial w d))
                = batch_ids (result (after_tickets currentBoardId
                                       (initial w d))))
    by reflexivity.
  assert (Hb2 : batch_ids (body_result currentBoardId (initial w1 d))
                = batch_ids (result (after_tickets currentBoardId
                                       (initial w1 d))))
    by reflexivity.
  rewrite Hb1, Hb2.
  split; [|split; [|split; [|split; [|split]]]].
  - unfold parseJsonImport. rewrite Hd, importBody_exact.
    rewrite body_ok_well_shaped in *. rewrite Hok. reflexivity.
  - eapply Permutation_NoDup; [symmetry; exact Hp1|].
    now apply NoDup_draws.
  - eapply Permutation_NoDup; [symmetry; exact Hp2|].
    now apply NoDup_draws.
  - intros x Hx.
    apply (Permutation_in _ Hp1), in_map_iff in Hx as (n & <- & Hn).
    apply in_seq in Hn. exists n. split; [lia | reflexivity].
  - intros x Hx1 Hx2.
    apply (Permutation_in _ Hp1), in_map_iff in Hx1 as (n & <- & Hn).
    apply (Permutation_in _ Hp2), in_map_iff in Hx2 as (m & Hm & Hm').
    apply in_seq in Hn, Hm'. rewrite Hu1 in Hm. apply Hinj in Hm. lia.
  - exists (same_draw w w1). split.
    + now apply same_draw_one_to_one.
    + apply in_step_result.
Qed.

Lemma import_twice_witness :
  exists r1 w1 r2 w2,
    parseJsonImport JSON_parse_examples text_scenario None example_world
    = Return (r1, w1)
    /\ parseJsonImport JSON_parse_examples text_scenario None w1
       = Return (r2, w2)
    /\ NoDup (batch_ids r1)
    /\ NoDup (batch_ids r2)
    /\ (forall x, In x (batch_ids r1) ->
          exists n, uuid_next example_world <= n < uuid_next w1
                    /\ x = uuid_at example_world n)
    /\ (forall x, In x (batch_ids r1) -> ~ In x (batch_ids r2))
    /\ exists rho, one_to_one rho /\ equivalent_upto rho None r1 r2.
Proof.
  destruct (import_twice JSON_parse_examples text_scenario None example_world
              (body_result None (initial example_world doc_scenario))
              (world (after_tickets None
                        (initial example_world doc_scenario))))
    as (r2 & w2 & H).
  - apply example_uuid_injective.
  - vm_compute. reflexivity.
  - do 4 eexists. split; [vm_compute; reflexivity|]. exact H.
Defined.

(* ================================================================== *)
(** * Boards and sprints of the batch, entry by entry *)
(* ================================================================== *)

Lemma record_all_app t1 : forall i1 t2 i2 m,
  length t1 = length i1 ->
  record_all (t1 ++ t2) (i1 ++ i2) m = record_all t2 i2 (record_all t1 i1 m).
Proof.
  induction t1 as [|t t1 IH]; intros [|i i1] t2 i2 m Hlen; simpl in *;
    try discriminate; auto.
Qed.

Lemma combine_snoc {A B} (l1 : list A) (l2 : list B) a b :
  length l1 = length l2 ->
  combine (l1 ++ [a]) (l2 ++ [b]) = combine l1 l2 ++ [(a, b)].
Proof.
  revert l2. induction l1 as [|x l1 IH]; intros [|y l2] Hlen; simpl in *;
    try discriminate; auto.
  f_equal. apply IH. lia.
Qed.

Lemma after_sprints_result newId ss st :
  let st' := after_all (after_sprint newId) ss st in
  exists sps,
    sprints (result st') = sprints (result st) ++ sps
    /\ Forall2 (fun s sp => sp = sprint_for newId (Sprint.id sp) s) ss sps
    /\ sprintMap st'
       = record_all (map token ss) (map Sprint.id sps) (sprintMap st).
Proof.
  apply (after_all_ind (after_sprint newId)
    (fun pre s =>
       exists sps,
         sprints (result s) = sprints (result st) ++ sps
         /\ Forall2 (fun x sp => sp = sprint_for newId (Sprint.id sp) x)
                    pre sps
         /\ sprintMap s
            = record_all (map token pre) (map Sprint.id sps) (sprintMap st))).
  - exists []. rewrite app_nil_r. repeat split. constructor.
  - intros pre s s0 _ (sps & Hs & Hf & Hm).
    exists (sps ++ [sprint_for newId (drawn (world s0)) s]).
    simpl. rewrite Hs, Hm, !map_app, app_assoc. repeat split.
    + apply Forall2_app; [exact Hf|]. constructor; [reflexivity|constructor].
    + simpl. symmetry. apply record_all_snoc.
      rewrite !length_map. eapply Forall2_length; eauto.
Qed.

Lemma after_board_sprints b st :
  let st' := after_board b st in
  exists sps,
    sprints (result st') = sprints (result st) ++ sps
    /\ Forall2 (fun s sp =>
                  sp = sprint_for (drawn (world st)) (Sprint.id sp) s)
               (board_sprints b) sps
    /\ sprintMap st'
       = record_all (map token (board_sprints b)) (map Sprint.id sps)
                    (sprintMap st).
Proof.
  unfold after_board.
  destruct (after_tags_frame b (entries (field b "tickets"))
              (after_sprints b st)) as (_ & Hr & _ & Hsm & _).
  rewrite Hr, Hsm. unfold after_sprints.
  exact (after_sprints_result (drawn (world st)) (board_sprints b)
           (after_board_head b st)).
Qed.

(** What the board stage leaves behind, in terms of the document. *)
Lemma board_stage_anatomy w d :
  let st1 := after_boards (initial w d) in
  Forall2 (fun b bd => bd = board_for (Board.id bd) b)
          (doc_boards d) (boards (result st1))
  /\ Forall2 (fun e sp =>
                sp = sprint_for (Board.id (fst e)) (Sprint.id sp) (snd e))
             (sprint_entries (doc_boards d) (boards (result st1)))
             (sprints (result st1))
  /\ sprintMap st1
     = record_all (map token (doc_sprints d))
                  (map Sprint.id (sprints (result st1))) [].
Proof.
  unfold after_boards. cbn [initial data]. fold (doc_boards d).
  apply (after_all_ind after_board
    (fun pre s =>
       Forall2 (fun b bd => bd = board_for (Board.id bd) b)
               pre (boards (result s))
       /\ Forall2 (fun e sp =>
                     sp = sprint_for (Board.id (fst e)) (Sprint.id sp)
                                     (snd e))
                  (sprint_entries pre (boards (result s)))
                  (sprints (result s))
       /\ sprintMap s
          = record_all (map token (flat_map board_sprints pre))
                       (map Sprint.id (sprints (result s))) [])).
  - simpl. repeat split; constructor.
  - intros pre b s _ (Hb & Hs & Hm).
    destruct (after_board_result b s) as (Hbs & _).
    destruct (after_board_sprints b s) as (sps & Hsp & Hf & Hsm).
    rewrite Hbs, Hsp, Hsm, Hm. repeat split.
    + apply Forall2_app; [exact Hb|]. constructor; [reflexivity|constructor].
    + unfold sprint_entries.
      rewrite combine_snoc by (eapply Forall2_length; eauto).
      rewrite flat_map_app. apply Forall2_app; [exact Hs|].
      simpl. rewrite app_nil_r.
      clear - Hf. induction Hf; simpl; constructor; auto.
    + rewrite flat_map_app, !map_app. simpl. rewrite app_nil_r.
      symmetry. apply record_all_app.
      rewrite !length_map.
      rewrite <- (Forall2_length Hs). unfold sprint_entries.
      clear - Hb. induction Hb as [|x y l l' _ _ IH]; simpl; [reflexivity|].
      rewrite !length_app, length_map. now rewrite IH.
Qed.

Lemma run_anatomy JSON_parse s fb w d r w' :
  JSON_parse s = Some d ->
  parseJsonImport JSON_parse s fb w = Return (r, w') ->
  body_ok fb (initial w d) = true
  /\ r = body_result fb (initial w d)
  /\ w' = world (after_tickets fb (initial w d))
  /\ boards r = boards (result (after_boards (initial w d)))
  /\ sprints r = sprints (result (after_boards (initial w d))).
Proof.
  intros Hd Hrun.
  apply parseJsonImport_Return in Hrun as (d' & Hd' & Hok & -> & ->).
  rewrite Hd in Hd'. injection Hd' as <-.
  destruct (body_anatomy _ _ _ Hok) as (Hb & Hs & _).
  repeat split; assumption.
Qed.

Lemma body_counts fb w d :
  body_ok fb (initial w d) = true ->
  let r := body_result fb (initial w d) in
  length (boards r) = length (doc_boards d)
  /\ length (sprints r) = length (doc_sprints d)
  /\ length (tickets r)
     = length (top_tickets d) + length (nested_tickets d)
  /\ stats r = doc_counts d.
Proof.
  intros Hok. cbn zeta.
  destruct (body_anatomy _ _ _ Hok) as (Hb & Hs & Hst & tks & Hf & Ht).
  destruct (board_stage_anatomy w d) as (Hfb & Hfs & _).
  assert (Hlb : length (boards (body_result fb (initial w d)))
                = length (doc_boards d))
    by (rewrite Hb; symmetry; eapply Forall2_length; eauto).
  assert (Hlt : length (tickets (body_result fb (initial w d)))
                = length (top_tickets d) + length (nested_tickets d)).
  { rewrite Ht, length_map, <- (Forall2_length Hf). apply length_app. }
  assert (Hls : length (sprints (body_result fb (initial w d)))
                = length (doc_sprints d)).
  { rewrite Hs, <- (Forall2_length Hfs). unfold sprint_entries, doc_sprints.
    clear - Hfb. induction Hfb as [|x y l l' _ _ IH]; simpl; [reflexivity|].
    now rewrite !length_app, length_map, IH. }
  split; [exact Hlb|]. split; [exact Hls|]. split; [exact Hlt|].
  rewrite Hst. unfold doc_counts. now rewrite Hlb, Hls, Hlt.
Qed.

(** X1. Every entry of the document gives exactly one entity: the batch
    has as many boards as [boards] has entries, as many sprints as the
    boards list sprint entries, and as many tickets as there are top-level
    and nested ticket entries; [stats] reports these numbers. *)
Theorem batch_counts JSON_parse jsonString currentBoardId w d r w' :
  JSON_parse jsonString = Some d ->
  parseJsonImport JSON_parse jsonString currentBoardId w = Return (r, w') ->
  length (boards r) = length (doc_boards d)
  /\ length (sprints r) = length (doc_sprints d)
  /\ length (tickets r)
     = length (top_tickets d) + length (nested_tickets d)
  /\ stats r = mkStats (length (doc_boards d)) (length (doc_sprints d))
                       (length (top_tickets d) + length (nested_tickets d)).
Proof.
  intros Hd Hrun.
  destruct (run_anatomy _ _ _ _ _ _ _ Hd Hrun) as (Hok & -> & _).
  exact (body_counts _ _ _ Hok).
Qed.

Lemma batch_counts_witness :
  exists r w',
    parseJsonImport JSON_parse_examples text_cross None example_world
    = Return (r, w')
    /\ length (boards r) = length (doc_boards doc_cross)
    /\ length (sprints r) = length (doc_sprints doc_cross)
    /\ length (tickets r)
       = length (top_tickets doc_cross) + length (nested_tickets doc_cross)
    /\ stats r = mkStats (length (doc_boards doc_cross))
                         (length (doc_sprints doc_cross))
                         (length (top_tickets doc_cross)
                          + length (nested_tickets doc_cross)).
Proof.
  eexists. eexists. split.
  - vm_compute. reflexivity.
  - eapply (batch_counts JSON_parse_examples text_cross None example_world
              doc_cross).
    + reflexivity.
    + vm_compute. reflexivity.
Defined.

(** X2. The boards of the batch are, in order, made from the entries of
    [boards]: a truthy [name], [key], [type] or [columns] is kept as it is,
    a missing or falsy one becomes "Imported Project", "IMP", "kanban" or
    the empty list. *)
Theorem boards_by_entry JSON_parse jsonString currentBoardId w d r w' :
  JSON_parse jsonString = Some d ->
  parseJsonImport JSON_parse jsonString currentBoardId w = Return (r, w') ->
  Forall2 board_made_from (doc_boards d) (boards r).
Proof.
  intros Hd Hrun.
  destruct (run_anatomy _ _ _ _ _ _ _ Hd Hrun) as (_ & _ & _ & -> & _).
  destruct (board_stage_anatomy w d) as (Hfb & _).
  eapply Forall2_impl; [|exact Hfb].
  intros b bd ->. unfold board_made_from. repeat split.
Qed.

Lemma boards_by_entry_witness :
  exists r w',
    parseJsonImport JSON_parse_examples text_cross None example_world
    = Return (r, w')
    /\ Forall2 board_made_from (doc_boards doc_cross) (boards r).
Proof.
  eexists. eexists. split.
  - vm_compute. reflexivity.
  - eapply (boards_by_entry JSON_parse_examples text_cross None example_world
              doc_cross).
    + reflexivity.
    + vm_compute. reflexivity.
Defined.

(** X3. The sprints of the batch are, in order, made from the sprint
    entries of the boards, board after board; each is on the new id of the
    board under which it was listed, never on a raw token, and its [name]
    and [status] default to "Imported Sprint" and "future". *)
Theorem sprints_by_entry JSON_parse jsonString currentBoardId w d r w' :
  JSON_parse jsonString = Some d ->
  parseJsonImport JSON_parse jsonString currentBoardId w = Return (r, w') ->
  Forall2 sprint_made_from (sprint_entries (doc_boards d) (boards r))
          (sprints r).
Proof.
  intros Hd Hrun.
  destruct (run_anatomy _ _ _ _ _ _ _ Hd Hrun) as (_ & _ & _ & -> & ->).
  destruct (board_stage_anatomy w d) as (_ & Hfs & _).
  eapply Forall2_impl; [|exact Hfs].
  intros e sp ->. unfold sprint_made_from. repeat split.
Qed.

Lemma sprints_by_entry_witness :
  exists r w',
    parseJsonImport JSON_parse_examples text_cross None example_world
    = Return (r, w')
    /\ Forall2 sprint_made_from
               (sprint_entries (doc_boards doc_cross) (boards r)) (sprints r).
Proof.
  eexists. eexists. split.
  - vm_compute. reflexivity.
  - eapply (sprints_by_entry JSON_parse_examples text_cross None
              example_world doc_cross).
    + reflexivity.
    + vm_compute. reflexivity.
Defined.

(* ================================================================== *)
(** * Where tickets land *)
(* ================================================================== *)

Lemma board_id_by_entry fb w d :
  body_ok fb (initial w d) = true ->
  Forall2
    (fun e tk =>
       In e (working_entries d)
       /\ Ticket.board_id tk
          = resolveBoardId (boardMap (after_boards (initial w d)))
                           (boards (result (after_boards (initial w d))))
                           (optional fb)
                           (field (entry_value e) "_temp_board_id")
                           (field (entry_value e) "board_id"))
    (working_entries d) (tickets (body_result fb (initial w d))).
Proof.
  intros Hok.
  assert (Hall := tickets_by_entry fb w d
    (fun t tk =>
       Ticket.board_id tk
       = resolveBoardId (boardMap (after_boards (initial w d)))
                        (boards (result (after_boards (initial w d))))
                        (optional fb)
                        (field t "_temp_board_id") (field t "board_id"))
    Hok).
  rewrite <- working_entries_values in Hall.
  apply Forall2_map_left in Hall.
  2:{ intros t tk tm He.
      destruct (emitted_fields _ _ _ _ He) as (Hb & _). exact Hb. }
  apply Forall2_Forall_left; [|exact Hall].
  apply Forall_forall. auto.
Qed.

Lemma working_entries_nested d e b :
  In e (working_entries d) -> fst e = Some b ->
  In b (doc_boards d) /\ In (snd e) (board_tickets b).
Proof.
  unfold working_entries. intros Hin Hb.
  apply in_app_or in Hin as [Hin|Hin].
  - apply in_map_iff in Hin as (t & <- & _). discriminate.
  - apply in_flat_map in Hin as (b' & Hb' & Hin).
    apply in_map_iff in Hin as (t & <- & Ht).
    simpl in Hb. injection Hb as <-. auto.
Qed.

(** X4. A ticket listed under a board lands on that board when the board
    carries a non-empty string token that no later board repeats: its
    [board_id] is the new id of the board, whatever the ticket's own
    [board_id] field and the caller's fallback are. *)
Theorem nested_ticket_on_its_board
    JSON_parse jsonString currentBoardId w d r w' :
  JSON_parse jsonString = Some d ->
  parseJsonImport JSON_parse jsonString currentBoardId w = Return (r, w') ->
  Forall2
    (fun e tk =>
       forall b j bd s,
         fst e = Some b ->
         nth_error (doc_boards d) j = Some b ->
         nth_error (boards r) j = Some bd ->
         token b = VStr s -> s <> "" ->
         (forall j' b', j < j' -> nth_error (doc_boards d) j' = Some b' ->
                        token b' <> VStr s) ->
         Ticket.board_id tk = VStr (Board.id bd))
    (working_entries d) (tickets r).
Proof.
  intros Hd Hrun.
  destruct (run_anatomy _ _ _ _ _ _ _ Hd Hrun) as (Hok & -> & _ & Hbs & _).
  eapply Forall2_impl; [|exact (board_id_by_entry _ _ _ Hok)].
  intros e tk [Hin Hb] b j bd s He Hj Hbd Htok Hs Hlast.
  rewrite Hbs in Hbd.
  destruct (working_entries_nested _ _ _ Hin He) as (Hbin & Htin).
  rewrite Hb, boardMap_after_boards, resolveBoardId_priority.
  unfold entry_value. rewrite He.
  rewrite field_tagged_tag by (eapply nested_writable; eauto).
  rewrite (resolve_last (token b) (map token (doc_boards d))
             (map Board.id (boards (result (after_boards (initial w d)))))
             j (token b) (Board.id bd)).
  - reflexivity.
  - now rewrite nth_error_map, Hj.
  - now rewrite nth_error_map, Hbd.
  - rewrite Htok. simpl. rewrite String.eqb_refl, andb_true_r.
    apply negb_true_iff. now apply String.eqb_neq.
  - intros j' tok' Hlt Hj'. rewrite nth_error_map in Hj'.
    destruct (nth_error (doc_boards d) j') as [b'|] eqn:Hb'; [|discriminate].
    injection Hj' as <-. specialize (Hlast j' b' Hlt Hb').
    rewrite Htok. destruct (token b') as [| | | |s'| |];
      simpl; try reflexivity; try apply andb_false_r.
    destruct (String.eqb s s') eqn:E; [|apply andb_false_r].
    apply String.eqb_eq in E. subst. now contradiction Hlast.
Qed.

Lemma nested_ticket_on_its_board_witness :
  exists r w',
    parseJsonImport JSON_parse_examples text_cross (Some "B1") example_world
    = Return (r, w')
    /\ Forall2
         (fun e tk =>
            forall b j bd s,
              fst e = Some b ->
              nth_error (doc_boards doc_cross) j = Some b ->
              nth_error (boards r) j = Some bd ->
              token b = VStr s -> s <> "" ->
              (forall j' b', j < j' ->
                             nth_error (doc_boards doc_cross) j' = Some b' ->
                             token b' <> VStr s) ->
              Ticket.board_id tk = VStr (Board.id bd))
         (working_entries doc_cross) (tickets r).
Proof.
  eexists. eexists. split.
  - vm_compute. reflexivity.
  - eapply (nested_ticket_on_its_board JSON_parse_examples text_cross
              (Some "B1") example_world doc_cross).
    + reflexivity.
    + vm_compute. reflexivity.
Defined.

(** X5. The [sprint_id] of every emitted ticket is its raw [sprint_id]
    looked up among the sprint tokens of the whole document, of whichever
    board: the new id of the last sprint that carries the token, or [null]
    when no sprint carries it. *)
Theorem sprint_resolution JSON_parse jsonString currentBoardId w d r w' :
  JSON_parse jsonString = Some d ->
  parseJsonImport JSON_parse jsonString currentBoardId w = Return (r, w') ->
  Forall2
    (fun t tk =>
       Ticket.sprint_id tk
       = match sprint_of_token d r (field t "sprint_id") with
         | Some i => VStr i
         | None => VNull
         end)
    (top_tickets d ++ nested_tickets d) (tickets r).
Proof.
  intros Hd Hrun.
  destruct (run_anatomy _ _ _ _ _ _ _ Hd Hrun) as (Hok & -> & _ & _ & Hs).
  apply tickets_by_entry; [exact Hok|].
  intros t tk tm He.
  destruct (emitted_fields _ _ _ _ He) as (_ & Hsp & _).
  cbn [linkParent Ticket.sprint_id]. rewrite Hsp.
  destruct (board_stage_anatomy w d) as (_ & _ & Hsm).
  unfold sprint_of_token. rewrite Hs, Hsm. unfold resolveSprintId.
  rewrite Map_has_record_all.
  destruct (resolve _ _ _) eqn:E; [|reflexivity].
  now apply Map_get_record_all.
Qed.

Lemma sprint_resolution_witness :
  exists r w',
    parseJsonImport JSON_parse_examples text_cross None example_world
    = Return (r, w')
    /\ Forall2
         (fun t tk =>
            Ticket.sprint_id tk
            = match sprint_of_token doc_cross r (field t "sprint_id") with
              | Some i => VStr i
              | None => VNull
              end)
         (top_tickets doc_cross ++ nested_tickets doc_cross) (tickets r).
Proof.
  eexists. eexists. split.
  - vm_compute. reflexivity.
  - eapply (sprint_resolution JSON_parse_examples text_cross None
              example_world doc_cross).
    + reflexivity.
    + vm_compute. reflexivity.
Defined.

(** X6. When the import creates no board, every ticket is left with the
    caller's fallback as it was given: the fallback string, or unset when
    there was none. No token of the document can stand for a board. *)
Theorem boardless_import JSON_parse jsonString currentBoardId w r w' :
  parseJsonImport JSON_parse jsonString currentBoardId w = Return (r, w') ->
  boards r = [] ->
  forall tk, In tk (tickets r) ->
    Ticket.board_id tk = optional currentBoardId.
Proof.
  intros Hrun Hnil tk Hin.
  apply parseJsonImport_Return in Hrun as (d & _ & Hok & -> & _).
  destruct (body_anatomy _ _ _ Hok) as (Hbs & _ & _ & tks & Hf & Ht).
  rewrite Ht in Hin. apply in_map_iff in Hin as (tk0 & <- & Hin).
  destruct (Forall2_In_r _ _ _ _ Hf Hin) as (e & _ & He).
  destruct (emitted_fields _ _ _ _ He) as (Hb & _).
  cbn [linkParent Ticket.board_id]. rewrite Hb. rewrite Hbs in Hnil.
  destruct (resolveBoardId_cases
              (boardMap (after_boards (initial w d)))
              (boards (result (after_boards (initial w d))))
              currentBoardId
              (field e "_temp_board_id") (field e "board_id"))
    as [(k & i & Hfind & _) | [(b0 & rest & Hbds & _)
       | [(_ & ->) | (_ & ->)]]]; try reflexivity.
  - destruct (closed_maps_after_boards _ (closed_maps_initial w d))
      as (Hclosed & _).
    apply Hclosed in Hfind. rewrite Hnil in Hfind. contradiction.
  - rewrite Hnil in Hbds. discriminate.
Qed.

Lemma boardless_import_witness :
  exists r w',
    parseJsonImport JSON_parse_examples text_flat (Some "B1") example_world
    = Return (r, w')
    /\ boards r = []
    /\ forall tk, In tk (tickets r) ->
         Ticket.board_id tk = optional (Some "B1").
Proof.
  eexists. eexists. split; [|split].
  - vm_compute. reflexivity.
  - reflexivity.
  - eapply (boardless_import JSON_parse_examples text_flat (Some "B1")
              example_world).
    + vm_compute. reflexivity.
    + reflexivity.
Defined.

(* ================================================================== *)
(** * Identifiers consumed *)
(* ================================================================== *)

(** X7. A successful call draws exactly one identifier for each entity of
    the batch and none besides, and leaves the generator as it was: the
    world it returns is ahead by the number of boards, sprints and
    tickets. *)
Theorem identifiers_consumed JSON_parse jsonString currentBoardId w r w' :
  parseJsonImport JSON_parse jsonString currentBoardId w = Return (r, w') ->
  uuid_at w' = uuid_at w
  /\ uuid_next w'
     = uuid_next w + length (boards r) + length (sprints r)
       + length (tickets r).
Proof.
  intros Hrun.
  apply parseJsonImport_Return in Hrun as (d & _ & _ & -> & ->).
  destruct (ids_drawn_after_tickets currentBoardId w d) as (Hu & Hle & Hp).
  split; [exact Hu|].
  apply Permutation_length in Hp.
  rewrite length_map, length_seq in Hp.
  change (batch_ids (result (after_tickets currentBoardId (initial w d))))
    with (batch_ids (body_result currentBoardId (initial w d))) in Hp.
  unfold batch_ids in Hp. rewrite !length_app, !length_map in Hp. lia.
Qed.

Lemma identifiers_consumed_witness :
  exists r w',
    parseJsonImport JSON_parse_examples text_scenario None example_world
    = Return (r, w')
    /\ uuid_at w' = uuid_at example_world
    /\ uuid_next w'
       = uuid_next example_world + length (boards r) + length (sprints r)
         + length (tickets r).
Proof.
  eexists. eexists. split.
  - vm_compute. reflexivity.
  - eapply (identifiers_consumed JSON_parse_examples text_scenario None
              example_world).
    vm_compute. reflexivity.
Defined.

(* ================================================================== *)
(** * The import dialog *)
(* ================================================================== *)

(** The outcome of a call, from the text alone. *)
Lemma run_outcome JSON_parse s fb w :
  parseJsonImport JSON_parse s fb w
  = match JSON_parse s with
    | None => Throw InvalidJSONFormat
    | Some d =>
        if well_shaped d
        then Return (body_result fb (initial w d),
                     world (after_tickets fb (initial w d)))
        else Throw TypeError
    end.
Proof.
  unfold parseJsonImport. destruct (JSON_parse s) as [d|]; [|reflexivity].
  rewrite importBody_exact, body_ok_well_shaped.
  destruct (well_shaped d); reflexivity.
Qed.

Lemma run_importable JSON_parse s fb w :
  importable JSON_parse s = true ->
  exists r w',
    parseJsonImport JSON_parse s fb w = Return (r, w')
    /\ stats r = counts_of JSON_parse s
    /\ stats r = mkStats (length (boards r)) (length (sprints r))
                         (length (tickets r)).
Proof.
  unfold importable, counts_of. rewrite run_outcome.
  destruct (JSON_parse s) as [d|]; [|discriminate]. intros Hw. rewrite Hw.
  do 2 eexists. split; [reflexivity|].
  assert (Hok : body_ok fb (initial w d) = true)
    by now rewrite body_ok_well_shaped.
  destruct (body_counts _ _ _ Hok) as (_ & _ & _ & Hst).
  destruct (body_anatomy _ _ _ Hok) as (_ & _ & Hst' & _).
  split; assumption.
Qed.

Lemma run_not_importable JSON_parse s fb w :
  importable JSON_parse s = false ->
  parseJsonImport JSON_parse s fb w
  = Throw (match JSON_parse s with
           | None => InvalidJSONFormat
           | Some _ => TypeError
           end).
Proof.
  unfold importable. rewrite run_outcome.
  destruct (JSON_parse s) as [d|]; [|reflexivity]. now intros ->.
Qed.

(** X8. The preview is what the import delivers. After the text of the
    dialog is changed to a text that is not blank: if a preview is shown,
    a click on import, in whatever world, delivers a batch whose numbers
    of boards, sprints and tickets are the numbers previewed, closes the
    dialog and empties the text; if no preview is shown, the click
    delivers nothing, keeps the text and shows "Invalid JSON: " followed by
    "Invalid JSON format" when the text is not JSON, and by the runtime's
    text of the [TypeError] when it is JSON of the wrong shape. *)
Theorem preview_matches_import JSON_parse activeBoardId typeErrorText
    val m w1 w2 :
  blank val = false ->
  let m1 := handleJsonChange JSON_parse activeBoardId val m w1 in
  match ImportModal.stats m1 with
  | Some st =>
      exists bs ss ts,
        handleImport JSON_parse activeBoardId typeErrorText m1 w2
        = (ImportModal.mk (ImportModal.activeTab m) "" None None,
           [OnImport bs ss ts; OnClose])
        /\ st = mkStats (length bs) (length ss) (length ts)
  | None =>
      handleImport JSON_parse activeBoardId typeErrorText m1 w2
      = (ImportModal.mk (ImportModal.activeTab m) val
           (Some (String.append "Invalid JSON: "
                    (match JSON_parse val with
                     | None => "Invalid JSON format"
                     | Some _ => typeErrorText
                     end)))
           None,
         [])
  end.
Proof.
  intros Hb. cbn zeta. unfold handleJsonChange. rewrite Hb.
  destruct (importable JSON_parse val) eqn:Himp.
  - destruct (run_importable JSON_parse val (Some activeBoardId) w1 Himp)
      as (r1 & w1' & Hrun1 & Hc1 & _).
    destruct (run_importable JSON_parse val (Some activeBoardId) w2 Himp)
      as (r2 & w2' & Hrun2 & Hc2 & Hl2).
    rewrite Hrun1. cbn [ImportModal.stats].
    unfold handleImport. cbn [ImportModal.jsonInput]. rewrite Hrun2.
    cbn [ImportModal.activeTab ImportModal.error].
    do 3 eexists. split; [reflexivity|]. congruence.
  - rewrite (run_not_importable _ _ _ w1 Himp). cbn [ImportModal.stats].
    unfold handleImport. cbn [ImportModal.jsonInput].
    rewrite (run_not_importable _ _ _ w2 Himp).
    cbn [ImportModal.activeTab ImportModal.stats].
    destruct (JSON_parse val); reflexivity.
Qed.

Lemma preview_matches_import_witness :
  let m1 := handleJsonChange JSON_parse_examples "" text_cross
              modal_initial example_world in
  match ImportModal.stats m1 with
  | Some st =>
      exists bs ss ts,
        handleImport JSON_parse_examples "" "boom" m1 example_world
        = (ImportModal.mk (ImportModal.activeTab modal_initial) "" None None,
           [OnImport bs ss ts; OnClose])
        /\ st = mkStats (length bs) (length ss) (length ts)
  | None =>
      handleImport JSON_parse_examples "" "boom" m1 example_world
      = (ImportModal.mk (ImportModal.activeTab modal_initial) text_cross
           (Some (String.append "Invalid JSON: "
                    (match JSON_parse_examples text_cross with
                     | None => "Invalid JSON format"
                     | Some _ => "boom"
                     end)))
           None,
         [])
  end.
Proof.
  apply (preview_matches_import JSON_parse_examples "" "boom" text_cross
           modal_initial example_world example_world).
  reflexivity.
Defined.

Lemma append_not_empty a b : a <> "" -> String.append a b <> "".
Proof. destruct a; [congruence | discriminate]. Qed.

Lemma modal_step_consistent JSON_parse activeBoardId typeErrorText m ev :
  modal_consistent JSON_parse m ->
  modal_consistent JSON_parse
    (fst (modal_step JSON_parse activeBoardId typeErrorText m ev)).
Proof.
  intros [Hstats Herr]. destruct ev as [[val|] w]; unfold modal_step;
    cbn [fst snd].
  - unfold handleJsonChange.
    destruct (blank val) eqn:Hb.
    { split; cbn; intros ? H; discriminate H. }
    destruct (importable JSON_parse val) eqn:Himp.
    + destruct (run_importable JSON_parse val (Some activeBoardId) w Himp)
        as (r & w' & Hrun & Hc & _).
      rewrite Hrun. split; cbn.
      * intros st [= <-]. auto.
      * intros e H. discriminate H.
    + rewrite (run_not_importable _ _ _ w Himp).
      split; cbn; intros ? H; discriminate H.
  - destruct (import_disabled m) eqn:Hdis; [split; assumption|].
    unfold import_disabled in Hdis. apply orb_false_iff in Hdis as [Hb He].
    assert (Hnone : ImportModal.error m = None).
    { destruct (ImportModal.error m) as [e|] eqn:E; [|reflexivity].
      destruct (Herr e eq_refl) as (_ & msg & ->).
      apply negb_false_iff, String.eqb_eq in He.
      now apply append_not_empty in He. }
    unfold handleImport.
    destruct (importable JSON_parse (ImportModal.jsonInput m)) eqn:Himp.
    + destruct (run_importable JSON_parse (ImportModal.jsonInput m)
                  (Some activeBoardId) w Himp) as (r & w' & Hrun & _).
      rewrite Hrun. split; cbn.
      * intros st H. discriminate H.
      * rewrite Hnone. intros e H. discriminate H.
    + rewrite (run_not_importable _ _ _ w Himp). split; cbn.
      * intros st Hst. destruct (Hstats st Hst) as (_ & _ & Hi & _).
        congruence.
      * intros e [= <-]. split; [exact Himp|]. eauto.
Qed.

(** X9. Whatever the user types and however often the import button is
    clicked, the dialog shows nothing stale: a preview is only shown for
    the text that is in the text area, without an error beside it, and
    that text imports with exactly the numbers previewed; an error is only
    shown while the text area still holds a text that does not import. *)
Theorem dialog_never_stale JSON_parse activeBoardId typeErrorText evs :
  modal_consistent JSON_parse
    (fst (modal_run JSON_parse activeBoardId typeErrorText modal_initial
                    evs)).
Proof.
  assert (G : forall m,
             modal_consistent JSON_parse m ->
             modal_consistent JSON_parse
               (fst (modal_run JSON_parse activeBoardId typeErrorText m
                               evs))).
  { induction evs as [|ev evs IH]; intros m Hm; simpl; [exact Hm|].
    pose proof (modal_step_consistent JSON_parse activeBoardId
                  typeErrorText m ev Hm) as Hstep.
    destruct (modal_step JSON_parse activeBoardId typeErrorText m ev)
      as [m1 c1]. cbn [fst] in Hstep.
    specialize (IH m1 Hstep).
    destruct (modal_run JSON_parse activeBoardId typeErrorText m1 evs)
      as [m2 c2]. exact IH. }
  apply G. split; cbn; intros ? H; discriminate H.
Qed.

(* ================================================================== *)
(** * The application receives the batch *)
(* ================================================================== *)

Lemma batch_ids_fresh fb w d :
  (forall i j, uuid_at w i = uuid_at w j -> i = j) ->
  let r := body_result fb (initial w d) in
  NoDup (batch_ids r)
  /\ forall x, In x (batch_ids r) ->
       exists n, uuid_next w <= n /\ x = uuid_at w n.
Proof.
  intros Hinj. cbn zeta.
  destruct (ids_drawn_after_tickets fb w d) as (Hu & Hle & Hp).
  change (batch_ids (result (after_tickets fb (initial w d))))
    with (batch_ids (body_result fb (initial w d))) in Hp.
  split.
  - eapply Permutation_NoDup; [symmetry; exact Hp|]. now apply NoDup_draws.
  - intros x Hx.
    apply (Permutation_in _ Hp), in_map_iff in Hx as (n & <- & Hn).
    apply in_seq in Hn. exists n. split; [lia | reflexivity].
Qed.

Lemma NoDup_append_fresh (old new : list string) :
  NoDup old -> NoDup new -> (forall x, In x new -> ~ In x old) ->
  NoDup (old ++ new).
Proof.
  intros Ho Hn Hd. induction Ho as [|a old Ha _ IH]; simpl; [exact Hn|].
  constructor.
  - intros Hin. apply in_app_or in Hin as [Hin|Hin]; [contradiction|].
    apply (Hd a Hin). now left.
  - apply IH. intros x Hx Hin. apply (Hd x Hx). now right.
Qed.

(** X10. A click on import never spoils the ids of the application. If
    the generator does not repeat itself, the ids in each of the tables of
    boards, sprints and tickets are pairwise distinct, and none of them is
    an identifier the generator has yet to hand out, then after the click
    and the application's [handleBulkImport] the ids in each table are
    still pairwise distinct. When the text imports, the tables are the
    ones that were there with the boards, sprints and tickets of the
    parsed batch appended, the profiles are untouched, and the active
    board becomes the first board of the batch when it has one. When the
    text does not import, the application is left as it was and nothing
    is written or inserted. *)
Theorem import_keeps_ids_unique JSON_parse activeBoardId typeErrorText
    configured m w a :
  (forall i j, uuid_at w i = uuid_at w j -> i = j) ->
  unique_ids a ->
  ids_not_pending w a ->
  let calls :=
    snd (handleImport JSON_parse activeBoardId typeErrorText m w) in
  let a' := fst (receive configured calls a) in
  unique_ids a'
  /\ match parseJsonImport JSON_parse (ImportModal.jsonInput m)
                           (Some activeBoardId) w with
     | Return (r, _) =>
         App.boards a' = App.boards a ++ boards r
         /\ App.sprints a' = App.sprints a ++ sprints r
         /\ App.tickets a' = App.tickets a ++ tickets r
         /\ App.profiles a' = App.profiles a
         /\ App.activeBoardId a'
            = match boards r with
              | b0 :: _ => Board.id b0
              | [] => App.activeBoardId a
              end
     | Throw _ => receive configured calls a = (a, [])
     end.
Proof.
  intros Hinj (Ub & Us & Ut) Hpend. cbn zeta. unfold handleImport.
  destruct (importable JSON_parse (ImportModal.jsonInput m)) eqn:Himp.
  - unfold importable in Himp. rewrite run_outcome.
    destruct (JSON_parse (ImportModal.jsonInput m)) as [d|]; [|discriminate].
    rewrite Himp. cbn [snd receive].
    set (r := body_result (Some activeBoardId) (initial w d)).
    destruct (batch_ids_fresh (Some activeBoardId) w d Hinj) as (Hnd & Hfresh).
    fold r in Hnd, Hfresh.
    assert (Hout : forall x, In x (batch_ids r) ->
              ~ In x (map Board.id (App.boards a)
                      ++ map Sprint.id (App.sprints a)
                      ++ map Ticket.id (App.tickets a))).
    { intros x Hx. destruct (Hfresh x Hx) as (n & Hn & ->).
      now apply Hpend. }
    unfold batch_ids in Hnd, Hout.
    assert (Hres : fst (handleBulkImport configured (boards r) (sprints r)
                          (tickets r) a)
                   = App.mk (App.tickets a ++ tickets r)
                            (App.sprints a ++ sprints r)
                            (App.profiles a)
                            (App.boards a ++ boards r)
                            (match boards r with
                             | b0 :: _ => Board.id b0
                             | [] => App.activeBoardId a
                             end)).
    { unfold handleBulkImport, syncData. destruct (boards r); reflexivity. }
    destruct (handleBulkImport configured (boards r) (sprints r) (tickets r)
                a) as [a1 fx1]. cbn [fst] in Hres. subst a1. cbn [fst].
    split; [|repeat split].
    + unfold unique_ids. cbn [App.boards App.sprints App.tickets].
      rewrite !map_app. repeat split; apply NoDup_append_fresh; auto.
      * now apply NoDup_app_remove_r in Hnd.
      * intros x Hx Hin. apply (Hout x).
        -- apply in_or_app. now left.
        -- apply in_or_app. now left.
      * now apply NoDup_app_remove_l, NoDup_app_remove_r in Hnd.
      * intros x Hx Hin. apply (Hout x).
        -- apply in_or_app. right. apply in_or_app. now left.
        -- apply in_or_app. right. apply in_or_app. now left.
      * now apply NoDup_app_remove_l, NoDup_app_remove_l in Hnd.
      * intros x Hx Hin. apply (Hout x).
        -- apply in_or_app. right. apply in_or_app. now right.
        -- apply in_or_app. right. apply in_or_app. now right.
  - rewrite (run_not_importable _ _ (Some activeBoardId) w Himp).
    cbn [snd receive fst].
    split; [repeat split; assumption | reflexivity].
Qed.

Lemma example_uuid_head n : exists rest, example_uuid n = String "u" rest.
Proof. destruct n; simpl; eauto. Qed.

Lemma import_keeps_ids_unique_witness :
  let calls :=
    snd (handleImport JSON_parse_examples "default-board" "boom"
                      example_modal example_world) in
  let a' := fst (receive false calls example_app) in
  (exists r w',
      parseJsonImport JSON_parse_examples
        (ImportModal.jsonInput example_modal) (Some "default-board")
        example_world = Return (r, w')
      /\ length (boards r) = 1 /\ length (sprints r) = 1
      /\ length (tickets r) = 2)
  /\ unique_ids a'
  /\ match parseJsonImport JSON_parse_examples
             (ImportModal.jsonInput example_modal) (Some "default-board")
             example_world with
     | Return (r, _) =>
         App.boards a' = App.boards example_app ++ boards r
         /\ App.sprints a' = App.sprints example_app ++ sprints r
         /\ App.tickets a' = App.tickets example_app ++ tickets r
         /\ App.profiles a' = App.profiles example_app
         /\ App.activeBoardId a'
            = match boards r with
              | b0 :: _ => Board.id b0
              | [] => App.activeBoardId example_app
              end
     | Throw _ => receive false calls example_app = (example_app, [])
     end.
Proof.
  split.
  - eexists. eexists. split; [vm_compute; reflexivity|].
    repeat split.
  - apply (import_keeps_ids_unique JSON_parse_examples "default-board"
             "boom" false example_modal example_world example_app).
    + apply example_uuid_injective.
    + unfold unique_ids, example_app. simpl.
      repeat split; repeat constructor; simpl; tauto.
    + intros n _ Hin. simpl in Hin.
      destruct (example_uuid_head n) as (rest & E). rewrite E in Hin.
      destruct Hin as [Hin|[Hin|[]]]; discriminate Hin.
Defined.
